(** * MyMalloc: a first-fit allocator with headers embedded in the arena

    Shallow embedding of [mymalloc.c].  The allocator is compiled for an
    LP64 target: [size_t], [uintptr_t] and [void *] are 64-bit words, so
    [sizeof(allocHdr)] is 8.  Words are integers in [0, 2^64) and every
    arithmetic operation of the source is written with its wrap-around.

    The only memory the allocator reads or writes are the [hdr.next] words
    of block headers, so the memory is a finite map from the address of a
    header to the word stored there; a word that was never written reads
    as 0, as fresh [sbrk] memory does.  The store is not bounded by the
    arena: a header written past the end of the arena is recorded like any
    other.  [headers_inside] says that none was; the theorems on calls
    that return are stated where every header stays inside the arena.

    Both loops of the source follow [next] references and may spin for ever
    on a cyclic chain; they are modelled with fuel, and [None] means that
    the fuel ran out. *)

From Stdlib Require Import ZArith Lia List Bool Sorted.
From stdpp Require Import base option list sorting gmap.

Local Open Scope Z_scope.

(** ** Machine words *)

Definition WORD : Z := 2 ^ 64.

Definition wrap (x : Z) : Z := x mod WORD.

(** Conversion of an [int] constant expression to a 64-bit unsigned word. *)
Definition of_int (x : Z) : Z := wrap x.

(** ** Constants and macros of mymalloc.c *)

Definition MY_ALIGNMENT_SZ : Z := 8.
Definition IN_USE_BIT : Z := 1.
Definition SZ_BLOCK_METADATA : Z := 8.
Definition NULL : Z := 0.

(** [#define ALIGN(_x) ((_x + MY_ALIGNMENT_SZ) & ~(MY_ALIGNMENT_SZ - 1))] *)
Definition ALIGN (x : Z) : Z :=
  Z.land (wrap (x + MY_ALIGNMENT_SZ)) (of_int (Z.lnot (MY_ALIGNMENT_SZ - 1))).

(** [size_t aux_size = ALIGN(size + SZ_BLOCK_METADATA);]  The macro argument
    is not parenthesised, which is harmless here: the expansion is
    [(size + SZ_BLOCK_METADATA + MY_ALIGNMENT_SZ) & ~7]. *)
Definition aux_size_of (size : Z) : Z :=
  Z.land (wrap (size + SZ_BLOCK_METADATA + MY_ALIGNMENT_SZ))
         (of_int (Z.lnot (MY_ALIGNMENT_SZ - 1))).

(** ** The heap and the header store *)

Record Heap : Type := mkHeap {
  size : Z;
  available_size : Z;
  start_of_heap : Z
}.

(** The global [_h], the header words, and the program break that [sbrk]
    moves. *)
Record state : Type := mkState {
  _h : Heap;
  mem : gmap Z Z;
  brk : Z
}.

Definition load (m : gmap Z Z) (a : Z) : Z := default 0 (m !! a).

Definition store (m : gmap Z Z) (a v : Z) : gmap Z Z := <[a := v]> m.

(** [_x->hdr.next] *)
Definition hdr_next (m : gmap Z Z) (x : Z) : Z := load m x.

(** [&_x->start] *)
Definition start (x : Z) : Z := wrap (x + SZ_BLOCK_METADATA).

Definition UNSET_INUSE (m : gmap Z Z) (x : Z) : gmap Z Z :=
  store m x (Z.land (hdr_next m x) (of_int (Z.lnot IN_USE_BIT))).

Definition SET_INUSE (m : gmap Z Z) (x : Z) : gmap Z Z :=
  store m x (Z.lor (hdr_next m x) IN_USE_BIT).

Definition IS_INUSE (m : gmap Z Z) (x : Z) : Z :=
  Z.land (hdr_next m x) IN_USE_BIT.

Definition NEXT_ADDRESS (m : gmap Z Z) (x : Z) : Z :=
  Z.land (hdr_next m x) (of_int (Z.lnot IN_USE_BIT)).

(** [#define BLOCK_SIZE(_x) ((uintptr_t) NEXT_ADDRESS(_x) - (uintptr_t)&_x->start)] *)
Definition BLOCK_SIZE (m : gmap Z Z) (x : Z) : Z :=
  wrap (NEXT_ADDRESS m x - start x).

(** The size [check_heap] prints for a block (the DEBUG build only): it
    treats the block with the terminal next reference apart. *)
Definition check_heap_alloc_size (s : state) (x : Z) : Z :=
  if Z.eqb (NEXT_ADDRESS (mem s) x) NULL
  then wrap (wrap (start_of_heap (_h s) + size (_h s)) - start x)
  else wrap (NEXT_ADDRESS (mem s) x - start x).

(** ** do_compact *)

(** [for (last = block; last && !IS_INUSE(last); last = NEXT_ADDRESS(last));]
    returns the value of [last] when the loop exits. *)
Fixpoint compact_walk (fuel : nat) (m : gmap Z Z) (last : Z) : option Z :=
  if Z.eqb last NULL || negb (Z.eqb (IS_INUSE m last) 0) then Some last
  else match fuel with
       | O => None
       | S fuel' => compact_walk fuel' m (NEXT_ADDRESS m last)
       end.

(** [block->hdr.next = last;] *)
Definition do_compact (fuel : nat) (m : gmap Z Z) (block : Z) : option (gmap Z Z) :=
  match compact_walk fuel m block with
  | Some last => Some (store m block last)
  | None => None
  end.

(** ** init_heap *)

(** [sbrk(n)] returns the old break and moves it by [n]. *)
Definition sbrk (s : state) (n : Z) : Z * state :=
  (brk s, mkState (_h s) (mem s) (wrap (brk s + n))).

Definition init_heap (s : state) : state :=
  let sz := 4096 in
  let '(p, s1) := sbrk s sz in
  mkState (mkHeap sz sz p) (store (mem s1) p NULL) (brk s1).

(** ** reset_heap *)

(** [for (tmp = _h.start_of_heap; tmp; tmp = NEXT_ADDRESS(tmp)) UNSET_INUSE(tmp);] *)
Fixpoint reset_loop (fuel : nat) (m : gmap Z Z) (tmp : Z) : option (gmap Z Z) :=
  if Z.eqb tmp NULL then Some m
  else match fuel with
       | O => None
       | S fuel' =>
           let m' := UNSET_INUSE m tmp in
           reset_loop fuel' m' (NEXT_ADDRESS m' tmp)
       end.

Definition reset_heap (fuel : nat) (s : state) : option state :=
  match reset_loop fuel (mem s) (start_of_heap (_h s)) with
  | Some m1 =>
      match do_compact fuel m1 (start_of_heap (_h s)) with
      | Some m2 => Some (mkState (_h s) m2 (brk s))
      | None => None
      end
  | None => None
  end.

(** ** mymalloc *)

(** The search loop of [mymalloc]: the value of [tmp] when the loop exits
    (NULL when the chain was exhausted) and the store as the coalescing
    calls left it. *)
Fixpoint scan (fuel : nat) (m : gmap Z Z) (tmp aux : Z) {struct fuel}
  : option (Z * gmap Z Z) :=
  if Z.eqb tmp NULL then Some (NULL, m)
  else match fuel with
       | O => None
       | S fuel' =>
           if Z.eqb (IS_INUSE m tmp) 0 then
             match do_compact fuel' m tmp with
             | Some m' =>
                 if Z.geb (BLOCK_SIZE m' tmp) aux then Some (tmp, m')
                 else scan fuel' m' (NEXT_ADDRESS m' tmp) aux
             | None => None
             end
           else scan fuel' m (NEXT_ADDRESS m tmp) aux
       end.

(** The test that decides whether the candidate block is split. *)
Definition needs_split (m : gmap Z Z) (tmp aux : Z) : bool :=
  Z.geb (BLOCK_SIZE m tmp) (wrap (wrap (aux + SZ_BLOCK_METADATA) + ALIGN 1)).

(** The body of the [if] that splits: the three assignments in order. *)
Definition split (m : gmap Z Z) (tmp aux : Z) : gmap Z Z :=
  let tmp2 := wrap (tmp + aux) in
  let m1 := store m tmp2 (hdr_next m tmp) in
  let m2 := UNSET_INUSE m1 tmp2 in
  store m2 tmp tmp2.

(** From the split test to the end of [mymalloc]. *)
Definition hand_over (s : state) (m : gmap Z Z) (tmp aux : Z) : Z * state :=
  let m1 := if needs_split m tmp aux then split m tmp aux else m in
  let m2 := SET_INUSE m1 tmp in
  let h := _h s in
  (start tmp,
   mkState (mkHeap (size h) (wrap (available_size h - aux)) (start_of_heap h))
           m2 (brk s)).

(** [if (_h.size <= 0) { init_heap(&_h); }] *)
Definition ready (s : state) : state :=
  if Z.leb (size (_h s)) 0 then init_heap s else s.

(** [mymalloc] returns its pointer and the state it leaves.  Both failure
    paths ([assert("Not enough space" == NULL); return NULL;] and
    [assert(tmp)]) are modelled as a return of NULL with the state reached
    at that point. *)
Definition mymalloc (fuel : nat) (sz : Z) (s : state) : option (Z * state) :=
  let aux := aux_size_of sz in
  let s1 := ready s in
  if Z.gtb aux (available_size (_h s1)) then Some (NULL, s1)
  else match scan fuel (mem s1) (start_of_heap (_h s1)) aux with
       | Some (tmp, m) =>
           if Z.eqb tmp NULL then Some (NULL, mkState (_h s1) m (brk s1))
           else Some (hand_over s1 m tmp aux)
       | None => None
       end.

(** ** myfree *)

Definition myfree (fuel : nat) (ptr : Z) (s : state) : option state :=
  if Z.eqb ptr NULL then Some s
  else
    let tmp := wrap (ptr - SZ_BLOCK_METADATA) in
    match do_compact fuel (UNSET_INUSE (mem s) tmp) tmp with
    | Some m => Some (mkState (_h s) m (brk s))
    | None => None
    end.

(** ** Programs: sequences of calls *)

(** The process starts with [_h] zeroed, no header written, and the
    program break at [b]. *)
Definition initial_state (b : Z) : state := mkState (mkHeap 0 0 0) ∅ b.

(** What is assumed of the break [sbrk] hands out: it is not NULL, it is
    aligned to the alignment unit and the arena lies in the lower half of
    the address space. *)
Definition initial_brk (b : Z) : Prop :=
  0 < b ∧ b mod MY_ALIGNMENT_SZ = 0 ∧ 2 * (b + 4096) ≤ WORD.

(** A live allocation: the pointer [mymalloc] returned and the padded
    footprint of the request. *)
Record allocd : Type := mkAllocd { a_ptr : Z; a_footprint : Z }.

(** The bytes of a live allocation: from the pointer up to the end of the
    padded footprint, which starts at the block's header. *)
Definition in_range (a : allocd) (x : Z) : Prop :=
  a_ptr a ≤ x < a_ptr a - SZ_BLOCK_METADATA + a_footprint a.

Definition disjoint_ranges (a b : allocd) : Prop :=
  ∀ x, ¬ (in_range a x ∧ in_range b x).

Definition drop_ptr (p : Z) (live : list allocd) : list allocd :=
  filter (λ a, a_ptr a ≠ p) live.

(** One call of the interface by a well-behaved client: any request size
    that fits a [size_t]; [myfree] of NULL or of a live pointer;
    [reset_heap] once the heap exists (before that, [do_compact]
    dereferences NULL).  The second component tracks the live
    allocations. *)
Inductive step : state * list allocd → state * list allocd → Prop :=
| step_malloc fuel n s p s' live :
    0 ≤ n < WORD →
    mymalloc fuel n s = Some (p, s') →
    step (s, live)
         (s', if Z.eqb p NULL then live
              else mkAllocd p (aux_size_of n) :: live)
| step_free_null fuel s s' live :
    myfree fuel NULL s = Some s' →
    step (s, live) (s', live)
| step_free fuel a s s' live :
    a ∈ live →
    myfree fuel (a_ptr a) s = Some s' →
    step (s, live) (s', drop_ptr (a_ptr a) live)
| step_reset fuel s s' live :
    start_of_heap (_h s) ≠ NULL →
    reset_heap fuel s = Some s' →
    step (s, live) (s', []).

Inductive reachable : state * list allocd → Prop :=
| reach_init b : initial_brk b → reachable (initial_state b, [])
| reach_step c c' : reachable c → step c c' → reachable c'.

(** ** Chains of blocks *)

(** [first_stop m b l]: following next references from [b], [l] is the
    first block that is in use, or the terminal marker when every block
    on the way is free. *)
Inductive first_stop (m : gmap Z Z) : Z → Z → Prop :=
| fs_null : first_stop m NULL NULL
| fs_inuse b : b ≠ NULL → IS_INUSE m b ≠ 0 → first_stop m b b
| fs_free b l :
    b ≠ NULL → IS_INUSE m b = 0 →
    first_stop m (NEXT_ADDRESS m b) l → first_stop m b l.

(** [path m a l b]: following next references from [a] visits the blocks
    of [l] in this order and then arrives at [b]. *)
Inductive path (m : gmap Z Z) : Z → list Z → Z → Prop :=
| path_nil a : path m a [] a
| path_cons a l b :
    a ≠ NULL → path m (NEXT_ADDRESS m a) l b → path m a (a :: l) b.

(** A free block is coalesced when the block it points to is in use or is
    the terminal marker. *)
Definition coalesced (m : gmap Z Z) (a : Z) : Prop :=
  hdr_next m a = NEXT_ADDRESS m a ∧
  (NEXT_ADDRESS m a = NULL ∨ IS_INUSE m (NEXT_ADDRESS m a) ≠ 0).

(** A block the search loop went past: in use, or free, coalesced and too
    small. *)
Definition passed_over (m : gmap Z Z) (aux a : Z) : Prop :=
  IS_INUSE m a ≠ 0 ∨
  (IS_INUSE m a = 0 ∧ coalesced m a ∧ BLOCK_SIZE m a < aux).

(** A word whose in-use bit is clear. *)
Definition masked (x : Z) : Prop :=
  Z.land x (of_int (Z.lnot IN_USE_BIT)) = x.

(** ** The heap invariant *)

(** An address a header word can hold: a multiple of 8 below [2^64 - 1];
    NULL is one. *)
Definition word_addr (v : Z) : Prop := 0 ≤ v ∧ v + 1 < WORD ∧ v mod 8 = 0.


(** The header of block [a], whose successor in address order is [nx]
    ([NULL] for the last one): a free block pointing to [nx], a block in
    use pointing to [nx], or a block in use pointing to itself (what a
    split by a footprint of 0 leaves). *)
Definition link (m : gmap Z Z) (a nx : Z) : Prop :=
  load m a = nx ∨ load m a = nx + 1 ∨ load m a = a + 1.

(** The headers of the blocks of [l], listed in address order, when the
    successor of the last one is [nx]. *)
Fixpoint linked_to (m : gmap Z Z) (nx : Z) (l : list Z) : Prop :=
  match l with
  | [] => True
  | a :: l' => link m a (hd nx l') ∧ linked_to m nx l'
  end.

Definition linked (m : gmap Z Z) (l : list Z) : Prop := linked_to m NULL l.

Definition addr_ok (b0 top a : Z) : Prop :=
  b0 ≤ a ≤ top ∧ a mod MY_ALIGNMENT_SZ = 0.

(** A live allocation sits on a block of the list that is in use, and its
    footprint ends before every later block. *)
Definition live_ok (m : gmap Z Z) (bl : list Z) (x : allocd) : Prop :=
  let a := a_ptr x - SZ_BLOCK_METADATA in
  a ∈ bl ∧ load m a mod 2 = 1 ∧
  ∀ c, c ∈ bl → a < c → a + a_footprint x ≤ c.

(** [bl] lists the headers in address order, from the arena base [b0];
    none lies above [top]. *)
Definition chain_ok (b0 top : Z) (m : gmap Z Z) (bl : list Z)
    (live : list allocd) : Prop :=
  head bl = Some b0 ∧
  StronglySorted Z.lt bl ∧
  Forall (addr_ok b0 top) bl ∧
  linked m bl ∧
  Forall (live_ok m bl) live.

Definition heap_inv (s : state) (live : list allocd) (bl : list Z) : Prop :=
  let h := _h s in
  size h = 4096 ∧
  0 ≤ available_size h ≤ 4096 ∧
  initial_brk (start_of_heap h) ∧
  chain_ok (start_of_heap h) (start_of_heap h + 4096 - available_size h)
           (mem s) bl live ∧
  NoDup (map a_ptr live).

Definition invariant (c : state * list allocd) : Prop :=
  (∃ b, initial_brk b ∧ c = (initial_state b, [])) ∨
  (∃ bl, heap_inv c.1 c.2 bl).

(** ** Further invariants *)

(** The footprint of a live allocation lies in the part of the arena the
    available counter accounts for as handed out. *)
Definition in_arena (h : Heap) (x : allocd) : Prop :=
  start_of_heap h ≤ a_ptr x - SZ_BLOCK_METADATA ∧
  a_ptr x - SZ_BLOCK_METADATA + a_footprint x
    ≤ start_of_heap h + size h - available_size h.

(** ** A sample run *)

(** The states of a process whose break is at 65536 after one and after
    two requests of 10 bytes, and the allocations live then. *)
Definition sample_s1 : state :=
  mkState (mkHeap 4096 4072 65536)
          (<[65536 := 65561]> (<[65560 := 0]> ∅)) 69632.

Definition sample_s2 : state :=
  mkState (mkHeap 4096 4048 65536)
          (<[65536 := 65561]> (<[65560 := 65585]> (<[65584 := 0]> ∅)))
          69632.

Definition sample_x : allocd := mkAllocd 65544 24.

Definition sample_y : allocd := mkAllocd 65568 24.

(** ** Tidy chains *)

(** No block of the list points to itself, and the last block is free. *)
Definition tidy (m : gmap Z Z) (bl : list Z) : Prop :=
  Forall (λ a, NEXT_ADDRESS m a ≠ a) bl ∧
  ∀ t, last bl = Some t → load m t = NULL.

Definition tidy_inv (c : state * list allocd) : Prop :=
  (∃ b, initial_brk b ∧ c = (initial_state b, [])) ∨
  (∃ bl, heap_inv c.1 c.2 bl ∧ tidy (mem c.1) bl).

(** The states reached by a well-behaved client none of whose requests
    has a footprint of 0 (the footprint is 0 only for the eight request
    sizes from [2^64 - 16] to [2^64 - 9], where the sum wraps around). *)
Inductive reachable_nz : state * list allocd → Prop :=
| reach_nz_init b : initial_brk b → reachable_nz (initial_state b, [])
| reach_nz_malloc fuel n s p s' live :
    reachable_nz (s, live) →
    0 ≤ n < WORD → aux_size_of n ≠ 0 →
    mymalloc fuel n s = Some (p, s') →
    reachable_nz (s', if Z.eqb p NULL then live
                      else mkAllocd p (aux_size_of n) :: live)
| reach_nz_free_null fuel s s' live :
    reachable_nz (s, live) →
    myfree fuel NULL s = Some s' →
    reachable_nz (s', live)
| reach_nz_free fuel a s s' live :
    reachable_nz (s, live) →
    a ∈ live →
    myfree fuel (a_ptr a) s = Some s' →
    reachable_nz (s', drop_ptr (a_ptr a) live)
| reach_nz_reset fuel s s' live :
    reachable_nz (s, live) →
    start_of_heap (_h s) ≠ NULL →
    reset_heap fuel s = Some s' →
    reachable_nz (s', []).

(** Fuel that is enough for every loop on a tidy chain: a chain of
    8-aligned headers between the arena base and 4096 bytes above it has
    at most 513 blocks. *)
Definition ENOUGH : nat := 514.

(** ** The test driver, main.c *)

(** How [main] ends: it returns a value, or an [assert] aborts it. *)
Inductive outcome : Type :=
| Returned (v : Z)
| Aborted.

(** [test0]: the loop
    [while ((c = mymalloc(10)) != NULL && cnt-- > 0) { ...; if (rand() % 2 == 0) myfree(c); }]
    with [cnt] starting at 100.  [rnd k] tells whether the [k]-th call of
    [rand()] returns an even number.  The [printf] is left out. *)
Fixpoint test0_loop (fuel : nat) (rnd : nat → bool) (k cnt : nat) (s : state)
  : option state :=
  '(c, s1) ← mymalloc fuel 10 s;
  if Z.eqb c NULL then Some s1
  else match cnt with
       | O => Some s1
       | S cnt' =>
           s2 ← (if rnd k then myfree fuel c s1 else Some s1);
           test0_loop fuel rnd (S k) cnt' s2
       end.

Definition test0 (fuel : nat) (rnd : nat → bool) (s : state)
  : option (Z * state) :=
  s' ← test0_loop fuel rnd 0 100 s;
  Some (0, s').

Definition test1 (fuel : nat) (s : state) : option (Z * state) :=
  '(c1, s) ← mymalloc fuel 10 s;
  '(c2, s) ← mymalloc fuel 10 s;
  '(c3, s) ← mymalloc fuel 10 s;
  '(c4, s) ← mymalloc fuel 10 s;
  s ← myfree fuel c3 s;
  s ← myfree fuel c1 s;
  s ← myfree fuel c4 s;
  s ← myfree fuel c2 s;
  '(c1, s) ← mymalloc fuel 10 s;
  Some (0, s).

Definition test2 (fuel : nat) (s : state) : option (Z * state) :=
  '(c1, s) ← mymalloc fuel 10 s;
  '(c2, s) ← mymalloc fuel 10 s;
  '(c3, s) ← mymalloc fuel 10 s;
  '(c4, s) ← mymalloc fuel 10 s;
  s ← myfree fuel c3 s;
  '(c3, s) ← mymalloc fuel 20 s;
  s ← myfree fuel c2 s;
  '(c2, s) ← mymalloc fuel 20 s;
  s ← myfree fuel c1 s;
  '(c1, s) ← mymalloc fuel 20 s;
  Some (0, s).

(** [main]: [assert(tests[i].fp() == 0)] for the three tests in order,
    then [return 0]. *)
Definition main (fuel : nat) (rnd : nat → bool) (s : state)
  : option (outcome * state) :=
  '(r0, s) ← test0 fuel rnd s;
  if negb (Z.eqb r0 0) then Some (Aborted, s)
  else
    '(r1, s) ← test1 fuel s;
    if negb (Z.eqb r1 0) then Some (Aborted, s)
    else
      '(r2, s) ← test2 fuel s;
      if negb (Z.eqb r2 0) then Some (Aborted, s)
      else Some (Returned 0, s).

(** A point of a program none of whose requests has a footprint of 0:
    the state, the live allocations and the value of the available
    counter once the heap is initialised. *)
Definition running (avail : Z) (s : state) (live : list allocd) : Prop :=
  reachable_nz (s, live) ∧ available_size (_h (ready s)) = avail.

(** [p] is the pointer of a live allocation. *)
Definition holds_ptr (live : list allocd) (p : Z) : Prop :=
  ∃ x, x ∈ live ∧ a_ptr x = p.

(** Every header word with the in-use bit set, wherever it lies, is the
    header of a live allocation. *)
Definition inuse_is_live (c : state * list allocd) : Prop :=
  ∀ a, IS_INUSE (mem c.1) a ≠ 0 → holds_ptr c.2 (a + SZ_BLOCK_METADATA).

(** ** check_heap (the DEBUG build) *)

(** What [check_heap] prints for one block: its address, the in-use
    flag, the size, the address handed to the user and the next
    address. *)
Record line : Type := mkLine {
  l_block : Z;
  l_in_use : Z;
  l_alloc_size : Z;
  l_user_address : Z;
  l_next : Z
}.

Definition line_of (s : state) (tmp : Z) : line :=
  mkLine tmp (IS_INUSE (mem s) tmp) (check_heap_alloc_size s tmp)
         (start tmp) (NEXT_ADDRESS (mem s) tmp).

(** [for (tmp = _h.start_of_heap, cnt = 0; tmp; tmp = NEXT_ADDRESS(tmp), cnt++)]:
    the lines printed, in order. *)
Fixpoint check_heap_loop (fuel : nat) (s : state) (tmp : Z)
  : option (list line) :=
  if Z.eqb tmp NULL then Some []
  else match fuel with
       | O => None
       | S fuel' =>
           rest ← check_heap_loop fuel' s (NEXT_ADDRESS (mem s) tmp);
           Some (line_of s tmp :: rest)
       end.

(** [check_heap]: the lines for the blocks and the count printed as
    "Allocated blocks". *)
Definition check_heap (fuel : nat) (s : state) : option (list line * Z) :=
  lines ← check_heap_loop fuel s (start_of_heap (_h s));
  Some (lines, Z.of_nat (length lines)).

(** The bytes the printed lines account for: each block's header and
    size. *)
Definition accounted (lines : list line) : Z :=
  foldr (λ ln acc, SZ_BLOCK_METADATA + l_alloc_size ln + acc) 0 lines.

(** ** Headers inside the arena *)

(** Every header word written so far lies between [lo] and [hi]. *)
Definition keys_in (lo hi : Z) (m : gmap Z Z) : Prop :=
  ∀ c, is_Some (m !! c) → lo ≤ c ≤ hi.

(** The header words written so far all start between the arena base and
    the end of the part of the arena that the available counter counts
    as handed out. *)
Definition in_bounds (s : state) : Prop :=
  keys_in (start_of_heap (_h s))
          (start_of_heap (_h s) + size (_h s) - available_size (_h s))
          (mem s).

(** Every header word written so far lies, with all its eight bytes,
    inside the arena: none was stored at or past the program break. *)
Definition headers_inside (s : state) : Prop :=
  ∀ c, is_Some (mem s !! c) →
       start_of_heap (_h s) ≤ c ∧
       c + SZ_BLOCK_METADATA ≤ start_of_heap (_h s) + size (_h s).

(** The size of block [x] as [check_heap] computes it, in the store [m]
    that the search loop of [mymalloc] has left: the distance from the
    payload to the next header, or to the end of the arena for the last
    block. *)
Definition true_size (s : state) (m : gmap Z Z) (x : Z) : Z :=
  check_heap_alloc_size (mkState (_h s) m (brk s)) x.

(** The footprints recorded for live allocations. *)
Definition footprint_ok (x : allocd) : Prop :=
  0 ≤ a_footprint x ∧ a_footprint x mod MY_ALIGNMENT_SZ = 0.

(** The state of the sample run after both allocations were freed, the
    one at the lower address first: two free blocks, not yet merged. *)
Definition sample_s3 : state :=
  mkState (mkHeap 4096 4048 65536)
          (<[65536 := 65560]> (<[65560 := 65585]> (<[65584 := 0]> ∅))) 69632.

Definition sample_s4 : state :=
  mkState (mkHeap 4096 4048 65536)
          (<[65536 := 65560]> (<[65560 := 0]> (<[65584 := 0]> ∅))) 69632.

(** * Word arithmetic *)

Section Words.

Lemma WORD_eq : WORD = 18446744073709551616.
Proof. reflexivity. Qed.

Lemma wrap_range x : 0 ≤ wrap x < WORD.
Proof. unfold wrap. apply Z.mod_pos_bound. rewrite WORD_eq. lia. Qed.

Lemma wrap_small x : 0 ≤ x < WORD → wrap x = x.
Proof. intros. unfold wrap. apply Z.mod_small. lia. Qed.

Lemma mask_align : of_int (Z.lnot (MY_ALIGNMENT_SZ - 1)) = WORD - 8.
Proof. reflexivity. Qed.

Lemma mask_inuse : of_int (Z.lnot IN_USE_BIT) = WORD - 2.
Proof. reflexivity. Qed.

(** Masking a word with the 64-bit image of [~(2^k - 1)] clears its [k]
    low bits. *)
Lemma land_clear_low (k x : Z) :
  0 ≤ k → 0 ≤ x < WORD →
  Z.land x (wrap (Z.lnot (Z.ones k))) = 2 ^ k * (x / 2 ^ k).
Proof.
  intros Hk Hx. unfold wrap, WORD.
  rewrite <- Z.land_ones by lia.
  rewrite (Z.land_comm (Z.lnot _)), Z.land_assoc.
  rewrite (Z.land_ones x 64) by lia.
  fold WORD. rewrite Z.mod_small by lia.
  rewrite <- Z.ldiff_land, Z.ldiff_ones_r by lia.
  rewrite Z.shiftr_div_pow2, Z.shiftl_mul_pow2 by lia. lia.
Qed.

Lemma land_align x : 0 ≤ x < WORD → Z.land x (WORD - 8) = 8 * (x / 8).
Proof. intros. exact (land_clear_low 3 x ltac:(lia) H). Qed.

Lemma land_not_inuse x : 0 ≤ x < WORD → Z.land x (WORD - 2) = 2 * (x / 2).
Proof. intros. exact (land_clear_low 1 x ltac:(lia) H). Qed.

Lemma land_inuse x : Z.land x IN_USE_BIT = x mod 2.
Proof. exact (Z.land_ones x 1 ltac:(lia)). Qed.

Lemma lor_inuse x : 0 ≤ x → Z.lor x IN_USE_BIT = 2 * (x / 2) + 1.
Proof.
  intros Hx. unfold IN_USE_BIT.
  destruct x as [|p|p]; [reflexivity| |lia].
  destruct p as [q|q|]; [| |reflexivity].
  - change (Z.lor (Z.pos q~1) 1) with (Z.pos q~1).
    rewrite Pos2Z.inj_xI. Z.div_mod_to_equations. lia.
  - change (Z.lor (Z.pos q~0) 1) with (Z.pos q~1).
    rewrite Pos2Z.inj_xI, Pos2Z.inj_xO. Z.div_mod_to_equations. lia.
Qed.

Lemma aux_size_of_eq n :
  aux_size_of n = 8 * (wrap (n + 16) / 8).
Proof.
  unfold aux_size_of. rewrite mask_align.
  rewrite land_align by apply wrap_range.
  unfold SZ_BLOCK_METADATA, MY_ALIGNMENT_SZ.
  replace (n + 8 + 8) with (n + 16) by lia. reflexivity.
Qed.

Lemma aux_size_of_range n : 0 ≤ aux_size_of n < WORD.
Proof.
  rewrite aux_size_of_eq. pose proof (wrap_range (n + 16)).
  rewrite WORD_eq in *. Z.div_mod_to_equations. lia.
Qed.

Lemma aux_size_of_aligned n : aux_size_of n mod 8 = 0.
Proof.
  rewrite aux_size_of_eq, Z.mul_comm. apply Z.mod_mul. lia.
Qed.

Lemma ALIGN_1 : ALIGN 1 = 8.
Proof. reflexivity. Qed.

End Words.

(** * The padded footprint *)

Section Footprint.

(** C7 as stated fails where the sum wraps around: a request of
    [2^64 - 8] bytes has a footprint of 8 bytes, not the sum
    [2^64 - 8 + 8 + 8] rounded down to a multiple of 8, although
    [n + header size] is a multiple of 8. *)
Lemma footprint_wraps_around :
  let n := WORD - 8 in
  0 ≤ n < WORD ∧
  (n + SZ_BLOCK_METADATA) mod MY_ALIGNMENT_SZ = 0 ∧
  aux_size_of n = 8 ∧
  aux_size_of n ≠
    MY_ALIGNMENT_SZ *
      ((n + SZ_BLOCK_METADATA + MY_ALIGNMENT_SZ) / MY_ALIGNMENT_SZ) ∧
  aux_size_of n ≠ n + SZ_BLOCK_METADATA + MY_ALIGNMENT_SZ.
Proof. vm_compute. repeat split; congruence. Qed.

(** C7 (amended): the footprint of every request is a multiple of 8;
    for a request [n] whose sum [n + header size + alignment unit] fits
    a 64-bit word, it is that sum rounded down to a multiple of 8, and
    it is [n + header size + 8] when [n + header size] is already a
    multiple of 8. *)
Theorem footprint_formula (n : Z) :
  0 ≤ n < WORD →
  aux_size_of n mod MY_ALIGNMENT_SZ = 0 ∧
  (n + SZ_BLOCK_METADATA + MY_ALIGNMENT_SZ < WORD →
   aux_size_of n =
     MY_ALIGNMENT_SZ *
       ((n + SZ_BLOCK_METADATA + MY_ALIGNMENT_SZ) / MY_ALIGNMENT_SZ) ∧
   ((n + SZ_BLOCK_METADATA) mod MY_ALIGNMENT_SZ = 0 →
    aux_size_of n = n + SZ_BLOCK_METADATA + MY_ALIGNMENT_SZ)).
Proof.
  intros Hn. split; [apply aux_size_of_aligned|].
  unfold SZ_BLOCK_METADATA, MY_ALIGNMENT_SZ. intros Hfit.
  rewrite aux_size_of_eq, wrap_small by lia.
  replace (n + 8 + 8) with (n + 16) by lia.
  split; [reflexivity|]. intros Hal.
  Z.div_mod_to_equations. lia.
Qed.

Lemma footprint_formula_witness :
  aux_size_of 8 mod MY_ALIGNMENT_SZ = 0 ∧
  (8 + SZ_BLOCK_METADATA + MY_ALIGNMENT_SZ < WORD →
   aux_size_of 8 =
     MY_ALIGNMENT_SZ *
       ((8 + SZ_BLOCK_METADATA + MY_ALIGNMENT_SZ) / MY_ALIGNMENT_SZ) ∧
   ((8 + SZ_BLOCK_METADATA) mod MY_ALIGNMENT_SZ = 0 →
    aux_size_of 8 = 8 + SZ_BLOCK_METADATA + MY_ALIGNMENT_SZ)).
Proof. apply (footprint_formula 8). rewrite WORD_eq. lia. Defined.

End Footprint.

(** * The available counter *)

Section Counter.

Lemma ready_initialised s : 0 < size (_h s) → ready s = s.
Proof.
  intros H. unfold ready. destruct (Z.leb_spec (size (_h s)) 0); [lia|done].
Qed.

Lemma mymalloc_counter_short fuel n s :
  aux_size_of n > available_size (_h (ready s)) →
  mymalloc fuel n s = Some (NULL, ready s).
Proof.
  intros Hgt. unfold mymalloc. cbv zeta.
  destruct (Z.gtb_spec (aux_size_of n) (available_size (_h (ready s))));
    [done|lia].
Qed.

(** C9: a request whose footprint exceeds the available counter fails
    at once: [mymalloc] returns NULL without a single step of the search
    loop (no fuel is needed), and the state it leaves is the state it
    was called in, up to the lazy initialisation. *)
Theorem exhausted_counter_fails_at_once (fuel : nat) (n : Z) (s : state) :
  aux_size_of n > available_size (_h (ready s)) →
  mymalloc fuel n s = Some (NULL, ready s) ∧
  mymalloc 0 n s = Some (NULL, ready s) ∧
  (0 < size (_h s) → ready s = s).
Proof.
  intros Hgt. split; [by apply mymalloc_counter_short|].
  split; [by apply mymalloc_counter_short|]. apply ready_initialised.
Qed.

Lemma exhausted_counter_fails_at_once_witness :
  let s := mkState (mkHeap 4096 16 65536) (<[65536 := 0]> ∅) 69632 in
  mymalloc 7 10 s = Some (NULL, s) ∧
  mymalloc 0 10 s = Some (NULL, s) ∧
  (0 < size (_h s) → s = s).
Proof.
  apply (exhausted_counter_fails_at_once 7 10
           (mkState (mkHeap 4096 16 65536) (<[65536 := 0]> ∅) 69632)).
  vm_compute. reflexivity.
Defined.

Lemma myfree_heap fuel p s s' : myfree fuel p s = Some s' → _h s' = _h s.
Proof.
  unfold myfree. destruct (Z.eqb p NULL); [congruence|].
  destruct (do_compact _ _ _); [|done]. intros [= <-]. done.
Qed.

Lemma reset_heap_heap fuel s s' : reset_heap fuel s = Some s' → _h s' = _h s.
Proof.
  unfold reset_heap. destruct (reset_loop _ _ _); [|done].
  destruct (do_compact _ _ _); [|done]. intros [= <-]. done.
Qed.

(** What a call of [mymalloc] that returns does, by cases. *)
Lemma mymalloc_cases fuel n s p s' :
  mymalloc fuel n s = Some (p, s') →
  let aux := aux_size_of n in
  (aux > available_size (_h (ready s)) ∧ p = NULL ∧ s' = ready s) ∨
  (aux ≤ available_size (_h (ready s)) ∧
   ∃ tmp m,
     scan fuel (mem (ready s)) (start_of_heap (_h (ready s))) aux
       = Some (tmp, m) ∧
     ((tmp = NULL ∧ p = NULL ∧
       s' = mkState (_h (ready s)) m (brk (ready s))) ∨
      (tmp ≠ NULL ∧ (p, s') = hand_over (ready s) m tmp aux))).
Proof.
  unfold mymalloc. cbv zeta.
  destruct (Z.gtb_spec (aux_size_of n) (available_size (_h (ready s))))
    as [Hgt|Hle].
  - intros [= <- <-]. left. split; [lia|done].
  - destruct (scan _ _ _ _) as [[tmp m]|] eqn:Hscan; [|done].
    intros Hret. right. split; [lia|]. exists tmp, m. split; [done|].
    destruct (Z.eqb_spec tmp NULL) as [Hnull|Hnn].
    + left. by injection Hret as <- <-.
    + right. split; [done|]. congruence.
Qed.

(** C4: the available counter is left as it is by [myfree] of a
    non-null pointer and by [reset_heap]; a call of [mymalloc] that
    returns a pointer lowers it by the padded footprint. *)
Theorem available_counter_only_decreases :
  (∀ fuel p s s',
      p ≠ NULL → myfree fuel p s = Some s' →
      available_size (_h s') = available_size (_h s)) ∧
  (∀ fuel s s',
      reset_heap fuel s = Some s' →
      available_size (_h s') = available_size (_h s)) ∧
  (∀ fuel n s p s',
      mymalloc fuel n s = Some (p, s') → p ≠ NULL →
      0 ≤ n < WORD → 0 ≤ available_size (_h (ready s)) < WORD →
      available_size (_h s')
        = available_size (_h (ready s)) - aux_size_of n).
Proof.
  split; [|split].
  - intros fuel p s s' _ H. by rewrite (myfree_heap _ _ _ _ H).
  - intros fuel s s' H. by rewrite (reset_heap_heap _ _ _ H).
  - intros fuel n s p s' H Hp Hn Hav.
    apply mymalloc_cases in H. cbv zeta in H.
    destruct H as [(_ & -> & _)|(Hle & tmp & m & _ & H1)]; [done|].
    destruct H1 as [(_ & -> & _)|(_ & H2)]; [done|].
    unfold hand_over in H2. inversion H2; subst. cbn.
    pose proof (aux_size_of_range n). apply wrap_small. lia.
Qed.

End Counter.

Lemma available_counter_only_decreases_witness :
  let s := mkState (mkHeap 4096 4072 65536)
                   (<[65536 := 65561]> (<[65560 := 0]> ∅)) 69632 in
  let s' := mkState (mkHeap 4096 4072 65536)
                    (<[65536 := 0]> (<[65560 := 0]> ∅)) 69632 in
  myfree 3 65544 s = Some s' ∧
  available_size (_h s') = available_size (_h s).
Proof.
  intros s s'.
  assert (H : myfree 3 65544 s = Some s') by (vm_compute; reflexivity).
  split; [exact H|].
  refine (proj1 available_counter_only_decreases 3%nat 65544 s s' _ H).
  discriminate.
Defined.

(** * Coalescing *)

Section Compact.

Implicit Types (m : gmap Z Z) (a b l : Z).

Lemma load_store_eq m a v : load (store m a v) a = v.
Proof. unfold load, store. by rewrite lookup_insert_eq. Qed.

Lemma load_store_ne m a b v : a ≠ b → load (store m a v) b = load m b.
Proof. intros. unfold load, store. by rewrite lookup_insert_ne. Qed.

Lemma store_store m a v w : store (store m a v) a w = store m a w.
Proof. unfold store. apply insert_insert_eq. Qed.

(** The mask [~IN_USE_BIT] clears bit 0 and is idempotent. *)
Lemma masked_idem x :
  Z.land (Z.land x (of_int (Z.lnot IN_USE_BIT))) (of_int (Z.lnot IN_USE_BIT))
  = Z.land x (of_int (Z.lnot IN_USE_BIT)).
Proof. by rewrite <- Z.land_assoc, Z.land_diag. Qed.

Lemma masked_free x :
  Z.land (Z.land x (of_int (Z.lnot IN_USE_BIT))) IN_USE_BIT = 0.
Proof.
  rewrite <- Z.land_assoc.
  replace (Z.land (of_int (Z.lnot IN_USE_BIT)) IN_USE_BIT) with 0
    by reflexivity.
  apply Z.land_0_r.
Qed.

Lemma masked_NEXT m a : masked (NEXT_ADDRESS m a).
Proof. apply masked_idem. Qed.

Lemma masked_land_inuse x : masked x → Z.land x IN_USE_BIT = 0.
Proof. intros <-. apply masked_free. Qed.

Lemma compact_walk_unfold fuel m a :
  compact_walk fuel m a =
    if Z.eqb a NULL || negb (Z.eqb (IS_INUSE m a) 0) then Some a
    else match fuel with
         | O => None
         | S fuel' => compact_walk fuel' m (NEXT_ADDRESS m a)
         end.
Proof. by destruct fuel. Qed.

Lemma compact_walk_stop fuel m a :
  a = NULL ∨ IS_INUSE m a ≠ 0 → compact_walk fuel m a = Some a.
Proof.
  intros H. rewrite compact_walk_unfold.
  destruct (Z.eqb_spec a NULL) as [|Hn]; [done|].
  destruct (Z.eqb_spec (IS_INUSE m a) 0) as [Hz|]; [|done].
  destruct H; done.
Qed.

Lemma compact_walk_free fuel m a :
  a ≠ NULL → IS_INUSE m a = 0 →
  compact_walk (S fuel) m a = compact_walk fuel m (NEXT_ADDRESS m a).
Proof.
  intros Hn Hf. rewrite compact_walk_unfold.
  destruct (Z.eqb_spec a NULL); [done|]. by rewrite Hf.
Qed.

Lemma compact_walk_free_0 m a :
  a ≠ NULL → IS_INUSE m a = 0 → compact_walk 0 m a = None.
Proof.
  intros Hn Hf. rewrite compact_walk_unfold.
  destruct (Z.eqb_spec a NULL); [done|]. by rewrite Hf.
Qed.

(** The loop of [do_compact] computes [first_stop]. *)
Lemma compact_walk_sound fuel m a l :
  compact_walk fuel m a = Some l → first_stop m a l.
Proof.
  revert a. induction fuel as [|fuel IH]; intros a;
    rewrite compact_walk_unfold;
    destruct (Z.eqb_spec a NULL) as [->|Hn]; cbn [orb];
    try (intros [= <-]; constructor);
    destruct (Z.eqb_spec (IS_INUSE m a) 0) as [Hf|Hu]; cbn [negb];
    try done; try (intros [= <-]; by constructor).
  intros H. apply fs_free; auto.
Qed.

Lemma compact_walk_complete m a l :
  first_stop m a l → ∃ fuel, compact_walk fuel m a = Some l.
Proof.
  induction 1 as [|b Hn Hu|b l Hn Hf _ [fuel IH]].
  - exists O. by apply compact_walk_stop; left.
  - exists O. by apply compact_walk_stop; right.
  - exists (S fuel). by rewrite compact_walk_free.
Qed.

Lemma first_stop_unique m a l l' :
  first_stop m a l → first_stop m a l' → l = l'.
Proof.
  induction 1; inversion 1; subst; auto; done.
Qed.

Lemma first_stop_masked m a l : first_stop m a l → masked a → masked l.
Proof.
  induction 1; auto. intros _. apply IHfirst_stop, masked_NEXT.
Qed.

Lemma first_stop_stops m a l :
  first_stop m a l → l = NULL ∨ IS_INUSE m l ≠ 0.
Proof. induction 1; auto. Qed.

(** More fuel does not change the result. *)
Lemma compact_walk_mono fuel fuel' m a l :
  compact_walk fuel m a = Some l → (fuel ≤ fuel')%nat →
  compact_walk fuel' m a = Some l.
Proof.
  revert fuel' a. induction fuel as [|fuel IH]; intros fuel' a;
    rewrite (compact_walk_unfold _ m a), (compact_walk_unfold fuel' m a);
    destruct (_ || _); try done.
  destruct fuel' as [|fuel']; [lia|]. intros H ?. apply IH; [done|lia].
Qed.

End Compact.

Section CompactSpec.

Implicit Types (m : gmap Z Z) (a b l : Z).

Lemma do_compact_inv fuel m block m' :
  do_compact fuel m block = Some m' →
  ∃ l, compact_walk fuel m block = Some l ∧ m' = store m block l.
Proof.
  unfold do_compact. destruct (compact_walk _ _ _) as [l|]; [|done].
  intros [= <-]. by exists l.
Qed.

Lemma first_stop_from_free m block l :
  block ≠ NULL → IS_INUSE m block = 0 →
  first_stop m block l ↔ first_stop m (NEXT_ADDRESS m block) l.
Proof.
  intros Hn Hf. split.
  - inversion 1; subst; done.
  - by apply fs_free.
Qed.

(** C5: on a free block, [do_compact] stores in the block's next
    reference the first block in use found by following next references
    from it, or the terminal marker when all the following blocks are
    free; the block stays free, its size now runs up to that block, and
    no other header is modified.  The call returns exactly when such a
    block (or the end of the chain) can be reached. *)
Theorem do_compact_repoints_to_first_in_use m block :
  block ≠ NULL → IS_INUSE m block = 0 →
  (∀ l, first_stop m (NEXT_ADDRESS m block) l ↔
        ∃ fuel, do_compact fuel m block = Some (store m block l)) ∧
  (∀ fuel m',
      do_compact fuel m block = Some m' →
      ∃ l, first_stop m (NEXT_ADDRESS m block) l ∧
           (l = NULL ∨ IS_INUSE m l ≠ 0) ∧
           hdr_next m' block = l ∧
           NEXT_ADDRESS m' block = l ∧
           IS_INUSE m' block = 0 ∧
           BLOCK_SIZE m' block = wrap (l - start block) ∧
           ∀ a, a ≠ block → m' !! a = m !! a).
Proof.
  intros Hn Hf. split.
  - intros l. rewrite <- first_stop_from_free by done. split.
    + intros [fuel H]%compact_walk_complete. exists fuel.
      unfold do_compact. by rewrite H.
    + intros [fuel (l' & Hw & Heq)%do_compact_inv].
      apply compact_walk_sound in Hw.
      assert (l' = l) as <-; [|done].
      apply (f_equal (λ m, load m block)) in Heq.
      by rewrite !load_store_eq in Heq.
  - intros fuel m' (l & Hw & ->)%do_compact_inv.
    apply compact_walk_sound in Hw.
    apply first_stop_from_free in Hw; [|done..].
    pose proof (first_stop_masked _ _ _ Hw (masked_NEXT _ _)) as Hm.
    exists l. split; [done|]. split; [by eapply first_stop_stops|].
    unfold BLOCK_SIZE, NEXT_ADDRESS, IS_INUSE, hdr_next.
    rewrite !load_store_eq. rewrite Hm.
    repeat split; auto using masked_land_inuse.
    intros a Ha. unfold store. by rewrite lookup_insert_ne.
Qed.

Lemma do_compact_repoints_to_first_in_use_witness :
  let m : gmap Z Z := <[64 := 96]> (<[96 := 128]> (<[128 := 161]> ∅)) in
  (∀ l, first_stop m (NEXT_ADDRESS m 64) l ↔
        ∃ fuel, do_compact fuel m 64 = Some (store m 64 l)) ∧
  (∀ fuel m',
      do_compact fuel m 64 = Some m' →
      ∃ l, first_stop m (NEXT_ADDRESS m 64) l ∧
           (l = NULL ∨ IS_INUSE m l ≠ 0) ∧
           hdr_next m' 64 = l ∧
           NEXT_ADDRESS m' 64 = l ∧
           IS_INUSE m' 64 = 0 ∧
           BLOCK_SIZE m' 64 = wrap (l - start 64) ∧
           ∀ a, a ≠ 64 → m' !! a = m !! a).
Proof.
  intros m. apply (do_compact_repoints_to_first_in_use m 64).
  - discriminate.
  - reflexivity.
Defined.

(** On the store of the witness the walk stops at the block in use at
    128, past the free block at 96. *)
Example do_compact_example :
  let m : gmap Z Z := <[64 := 96]> (<[96 := 128]> (<[128 := 161]> ∅)) in
  do_compact 2 m 64 = Some (<[64 := 128]> m).
Proof. vm_compute. reflexivity. Qed.

End CompactSpec.

(** * Release *)

Section Release.

Implicit Types (m : gmap Z Z) (a b l : Z).

Lemma UNSET_INUSE_free m a : IS_INUSE (UNSET_INUSE m a) a = 0.
Proof.
  unfold IS_INUSE, UNSET_INUSE, hdr_next. rewrite load_store_eq.
  apply masked_free.
Qed.

(** Coalescing a block that [do_compact] has just coalesced. *)
Lemma do_compact_again fuel fuel' m a m' :
  a = NULL ∨ IS_INUSE m a = 0 →
  do_compact fuel m a = Some m' →
  UNSET_INUSE m' a = m' ∧ do_compact (S fuel') m' a = Some m'.
Proof.
  intros Hfree (l & Hw & ->)%do_compact_inv.
  destruct (Z.eq_dec a NULL) as [->|Hn].
  - rewrite compact_walk_stop in Hw by auto. injection Hw as <-.
    unfold UNSET_INUSE, hdr_next, do_compact.
    rewrite load_store_eq, store_store, compact_walk_stop by auto.
    by rewrite store_store.
  - destruct Hfree as [|Hf]; [done|].
    apply compact_walk_sound in Hw.
    apply first_stop_from_free in Hw; [|done..].
    pose proof (first_stop_masked _ _ _ Hw (masked_NEXT _ _)) as Hm.
    pose proof (first_stop_stops _ _ _ Hw) as Hstop.
    assert (Hl : l ≠ a) by (intros ->; destruct Hstop; done).
    split.
    + unfold UNSET_INUSE, hdr_next.
      by rewrite load_store_eq, store_store, Hm.
    + unfold do_compact.
      assert (Hnext : NEXT_ADDRESS (store m a l) a = l).
      { unfold NEXT_ADDRESS, hdr_next. by rewrite load_store_eq. }
      rewrite compact_walk_free, Hnext; [|done|].
      * rewrite compact_walk_stop; [by rewrite store_store|].
        destruct Hstop as [|Hu]; [by left|right].
        unfold IS_INUSE, hdr_next in *. by rewrite load_store_ne.
      * unfold IS_INUSE, hdr_next. rewrite load_store_eq.
        by apply masked_land_inuse.
Qed.

(** C10: when a call of [myfree] returns, calling [myfree] again at
    once with the same pointer returns too and leaves the heap exactly
    as the first call left it. *)
Theorem myfree_twice_is_myfree_once fuel fuel' (p : Z) (s s1 : state) :
  myfree fuel p s = Some s1 →
  myfree (S fuel') p s1 = Some s1.
Proof.
  unfold myfree. destruct (Z.eqb_spec p NULL) as [|Hp]; [by intros [= <-]|].
  destruct (do_compact fuel _ _) as [m1|] eqn:Hc; [|done].
  intros [= <-]. cbn [mem _h brk].
  destruct (do_compact_again fuel fuel' _ _ _
              (or_intror (UNSET_INUSE_free _ _)) Hc) as [-> ->].
  done.
Qed.

Lemma myfree_twice_is_myfree_once_witness :
  let s := mkState (mkHeap 4096 4048 65536)
             (<[65536 := 65561]> (<[65560 := 65584]> (<[65584 := 0]> ∅)))
             69632 in
  let s1 := mkState (mkHeap 4096 4048 65536)
              (<[65536 := 0]> (<[65560 := 65584]> (<[65584 := 0]> ∅)))
              69632 in
  myfree 5 65544 s = Some s1 ∧ myfree 1 65544 s1 = Some s1.
Proof.
  intros s s1.
  assert (H : myfree 5 65544 s = Some s1) by (vm_compute; reflexivity).
  split; [exact H|].
  exact (myfree_twice_is_myfree_once 5 0 65544 s s1 H).
Defined.

End Release.

(** * The size of the last block, and reset *)

Section LastBlock.

Implicit Types (m : gmap Z Z) (x : Z).

(** For a block other than the last one [BLOCK_SIZE] is the distance from
    the payload to the next header. *)
Lemma BLOCK_SIZE_inner m x :
  start x ≤ NEXT_ADDRESS m x < WORD →
  BLOCK_SIZE m x = NEXT_ADDRESS m x - start x.
Proof.
  intros H. unfold BLOCK_SIZE. apply wrap_small.
  pose proof (wrap_range (x + SZ_BLOCK_METADATA)). unfold start in *. lia.
Qed.

(** For the last block [BLOCK_SIZE] subtracts the payload address from
    NULL: the end of the arena plays no part. *)
Lemma BLOCK_SIZE_last m x :
  NEXT_ADDRESS m x = NULL → BLOCK_SIZE m x = wrap (- start x).
Proof. intros H. unfold BLOCK_SIZE. by rewrite H. Qed.

(** C3 fails on the last block.  On the heap as [init_heap] leaves it,
    with the arena at 65536, the only block has the terminal next
    reference; the distance from its payload to the end of the arena is
    4088, which is what [check_heap] prints, but the size [mymalloc] tests
    is [2^64 - 65544].  So a request of 4080 bytes, whose footprint 4096
    exceeds 4088, is served, and the header of the remainder is written
    at 69632, past the end of the arena. *)
Theorem last_block_size_is_not_distance_to_arena_end :
  let s := ready (initial_state 65536) in
  start_of_heap (_h s) = 65536 ∧ size (_h s) = 4096 ∧
  NEXT_ADDRESS (mem s) 65536 = NULL ∧
  start_of_heap (_h s) + size (_h s) - start 65536 = 4088 ∧
  check_heap_alloc_size s 65536 = 4088 ∧
  BLOCK_SIZE (mem s) 65536 = WORD - 65544 ∧
  aux_size_of 4080 = 4096 ∧
  ∃ s', mymalloc 2 4080 (initial_state 65536) = Some (65544, s') ∧
        mem s' !! (65536 + 4096) = Some 0.
Proof.
  cbv zeta. repeat (split; [vm_compute; reflexivity|]).
  eexists. split; vm_compute; reflexivity.
Qed.

(** C2 fails: [reset_heap] does not restore the available counter.  After
    one request of 10 bytes (footprint 24) and a reset, the heap is again
    a single free block, but a request whose footprint is the capacity
    minus one header (4088) is refused, because the counter still reads
    4072. *)
Theorem reset_then_full_request_fails :
  ∃ s1 s2,
    mymalloc 5 10 (initial_state 65536) = Some (65544, s1) ∧
    reset_heap 5 s1 = Some s2 ∧
    mem s2 !! 65536 = Some NULL ∧
    available_size (_h s2) = 4072 ∧
    aux_size_of 4072 = size (_h s2) - SZ_BLOCK_METADATA ∧
    ∀ fuel, mymalloc fuel 4072 s2 = Some (NULL, s2).
Proof.
  eexists. eexists.
  split; [vm_compute; reflexivity|].
  split; [vm_compute; reflexivity|].
  split; [vm_compute; reflexivity|].
  split; [vm_compute; reflexivity|].
  split; [vm_compute; reflexivity|].
  intros fuel. by apply mymalloc_counter_short.
Qed.

End LastBlock.

(** * Headers of aligned blocks *)

Section Headers.

Implicit Types (m : gmap Z Z) (a v nx : Z).

Lemma word_addr_NULL : word_addr NULL.
Proof. unfold word_addr, NULL. rewrite WORD_eq. by repeat split. Qed.

Lemma decode_free v :
  word_addr v →
  Z.land v IN_USE_BIT = 0 ∧
  Z.land v (of_int (Z.lnot IN_USE_BIT)) = v ∧
  Z.lor v IN_USE_BIT = v + 1.
Proof.
  intros (H0 & Hw & H8).
  rewrite land_inuse, mask_inuse, land_not_inuse, lor_inuse by lia.
  Z.div_mod_to_equations. lia.
Qed.

Lemma decode_inuse v :
  word_addr v →
  Z.land (v + 1) IN_USE_BIT = 1 ∧
  Z.land (v + 1) (of_int (Z.lnot IN_USE_BIT)) = v ∧
  Z.lor (v + 1) IN_USE_BIT = v + 1.
Proof.
  intros (H0 & Hw & H8).
  rewrite land_inuse, mask_inuse, land_not_inuse, lor_inuse by lia.
  Z.div_mod_to_equations. lia.
Qed.

Lemma word_addr_masked v : word_addr v → masked v.
Proof. intros H. apply (decode_free v H). Qed.

(** The three shapes of a header, decoded. *)
Lemma link_cases m a nx :
  word_addr a → word_addr nx → link m a nx →
  (load m a = nx ∧ IS_INUSE m a = 0 ∧ NEXT_ADDRESS m a = nx) ∨
  (load m a = nx + 1 ∧ IS_INUSE m a = 1 ∧ NEXT_ADDRESS m a = nx) ∨
  (load m a = a + 1 ∧ IS_INUSE m a = 1 ∧ NEXT_ADDRESS m a = a).
Proof.
  intros Ha Hnx [H|[H|H]]; unfold IS_INUSE, NEXT_ADDRESS, hdr_next;
    rewrite H.
  - left. split; [done|]. split; apply (decode_free nx Hnx).
  - right; left. split; [done|]. split; apply (decode_inuse nx Hnx).
  - right; right. split; [done|]. split; apply (decode_inuse a Ha).
Qed.

Lemma IS_INUSE_odd m a : IS_INUSE m a = load m a mod 2.
Proof. apply land_inuse. Qed.

End Headers.

(** * Lists of blocks in address order *)

Section Chain.

Context (b0 top : Z).
Hypothesis Hb0 : initial_brk b0.
Hypothesis Htop : top ≤ b0 + 4096.

Implicit Types (m : gmap Z Z) (a r nx : Z) (l bl : list Z).

Lemma addr_ok_word a : addr_ok b0 top a → word_addr a ∧ a ≠ NULL.
Proof.
  destruct Hb0 as (Hpos & Hal & Hfit). unfold addr_ok, word_addr, NULL.
  unfold MY_ALIGNMENT_SZ in *. rewrite WORD_eq in *. lia.
Qed.

Lemma hd_word nx l :
  word_addr nx → Forall (addr_ok b0 top) l → word_addr (hd nx l).
Proof.
  intros Hnx Hl. destruct Hl as [|a l Ha _]; [done|].
  by apply addr_ok_word.
Qed.

Lemma linked_to_app m nx l1 l2 :
  linked_to m nx (l1 ++ l2) ↔ linked_to m (hd nx l2) l1 ∧ linked_to m nx l2.
Proof using Type.
  induction l1 as [|a l1 IH]; cbn [app linked_to]; [tauto|].
  rewrite IH. destruct l1; cbn [app hd]; tauto.
Qed.

Lemma linked_to_frame m m' nx l :
  (∀ c, c ∈ l → load m' c = load m c) →
  linked_to m nx l → linked_to m' nx l.
Proof using Type.
  induction l as [|a l IH]; [done|]. cbn [linked_to]. intros Hfr [Hl Hrest].
  split.
  - unfold link in *. rewrite Hfr; [done|]. apply elem_of_cons. by left.
  - apply IH; [|done]. intros c Hc. apply Hfr. apply elem_of_cons. by right.
Qed.

(** The header of a block of the list, decoded. *)
Lemma linked_cases m nx a l :
  word_addr nx → Forall (addr_ok b0 top) (a :: l) →
  linked_to m nx (a :: l) →
  (load m a = hd nx l ∧ IS_INUSE m a = 0 ∧ NEXT_ADDRESS m a = hd nx l) ∨
  (load m a = hd nx l + 1 ∧ IS_INUSE m a = 1 ∧ NEXT_ADDRESS m a = hd nx l) ∨
  (load m a = a + 1 ∧ IS_INUSE m a = 1 ∧ NEXT_ADDRESS m a = a).
Proof.
  intros Hnx [Ha Hl]%Forall_cons [Hlink _].
  apply link_cases; [by apply addr_ok_word|by apply hd_word|done].
Qed.

(** The loop of [do_compact], started on a free block of the list, runs
    over the free blocks that follow and stops on the first block in
    use, or on NULL after the last block. *)
Lemma walk_chain m fuel : ∀ a l r,
  Forall (addr_ok b0 top) (a :: l) → linked m (a :: l) →
  IS_INUSE m a = 0 →
  compact_walk fuel m a = Some r →
  ∃ frees l2,
    l = frees ++ l2 ∧ Forall (λ c, IS_INUSE m c = 0) frees ∧
    r = hd NULL l2 ∧ (l2 = [] ∨ IS_INUSE m (hd NULL l2) ≠ 0).
Proof.
  induction fuel as [|fuel IH]; intros a l r Hok Hlk Hfree Hw.
  { apply Forall_cons in Hok as [[_ Hn]%addr_ok_word _].
    by rewrite compact_walk_free_0 in Hw. }
  pose proof Hok as [[_ Hn]%addr_ok_word Hokl]%Forall_cons.
  rewrite compact_walk_free in Hw by done.
  destruct (linked_cases m NULL a l word_addr_NULL Hok Hlk)
    as [(_ & _ & Hnext)|[(_ & Hu & _)|(_ & Hu & _)]]; [|congruence..].
  rewrite Hnext in Hw. destruct l as [|a' l'].
  - cbn in Hw. rewrite compact_walk_stop in Hw by auto.
    injection Hw as <-. exists [], []. by repeat split; auto.
  - cbn [hd] in Hw. destruct Hlk as [_ Hlk].
    destruct (Z.eq_dec (IS_INUSE m a') 0) as [Hf'|Hu'].
    + destruct (IH a' l' r Hokl Hlk Hf' Hw) as (frees & l2 & -> & Hfr & -> & Hst).
      exists (a' :: frees), l2. repeat split; auto.
    + rewrite compact_walk_stop in Hw by auto. injection Hw as <-.
      exists [], (a' :: l'). repeat split; auto.
Qed.

Lemma chain_ok_sorted_ne bl l1 a l2 c :
  StronglySorted Z.lt bl → bl = l1 ++ a :: l2 → c ∈ l1 ++ l2 → c ≠ a.
Proof using Type.
  intros Hs -> Hc ->. apply StronglySorted_app in Hs as (H12 & _ & H2).
  apply StronglySorted_cons in H2 as [H2 _].
  apply elem_of_app in Hc as [Hc|Hc].
  - assert (a < a); [|lia]. apply H12; [done|]. apply elem_of_cons. by left.
  - rewrite Forall_forall in H2. specialize (H2 a Hc). lia.
Qed.

Lemma do_compact_chain m bl live fuel a m' :
  chain_ok b0 top m bl live → a ∈ bl → IS_INUSE m a = 0 →
  do_compact fuel m a = Some m' →
  ∃ l1 frees l2,
    bl = l1 ++ a :: frees ++ l2 ∧
    chain_ok b0 top m' (l1 ++ a :: l2) live ∧
    m' = store m a (hd NULL l2) ∧
    (l2 = [] ∨ IS_INUSE m (hd NULL l2) ≠ 0).
Proof.
  intros (Hhd & Hs & Hok & Hlk & Hlive) Hin Hfree (r & Hw & ->)%do_compact_inv.
  apply list_elem_of_split in Hin as (l1 & l & ->).
  pose proof Hok as [Hok1 Hokl]%Forall_app.
  pose proof Hlk as [Hlk1 Hlkl]%linked_to_app.
  destruct (walk_chain m fuel a l r Hokl Hlkl Hfree Hw)
    as (frees & l2 & -> & Hfrees & -> & Hstop).
  exists l1, frees, l2. split; [done|]. split; [|done].
  assert (Hne : ∀ c, c ∈ l1 ++ frees ++ l2 → c ≠ a)
    by (intros c; by eapply chain_ok_sorted_ne).
  assert (Hfr : ∀ c, c ∈ l1 ++ frees ++ l2 →
                     load (store m a (hd NULL l2)) c = load m c).
  { intros c Hc. apply load_store_ne. by intros <-; eapply Hne. }
  split; [by destruct l1|]. split.
  { revert Hs. rewrite !StronglySorted_app, !StronglySorted_cons,
      !StronglySorted_app, !Forall_app. set_solver. }
  split.
  { revert Hok. rewrite !Forall_app, !Forall_cons, !Forall_app. tauto. }
  split.
  { apply linked_to_app. split.
    - eapply linked_to_frame; [|exact Hlk1]. intros c Hc. apply Hfr. set_solver.
    - split; [left; apply load_store_eq|].
      destruct Hlkl as [_ [_ Hl2]%linked_to_app].
      eapply linked_to_frame; [|exact Hl2]. intros c Hc. apply Hfr. set_solver. }
  eapply Forall_impl; [exact Hlive|]. intros x (Hx & Hodd & Hbound).
  set (blk := a_ptr x - SZ_BLOCK_METADATA) in *.
  assert (Hblk : blk ∈ l1 ++ l2).
  { rewrite !elem_of_app, elem_of_cons, elem_of_app in Hx.
    destruct Hx as [?|[->|[Hx|?]]]; [set_solver| |exfalso|set_solver].
    - rewrite IS_INUSE_odd in Hfree. lia.
    - rewrite Forall_forall in Hfrees. specialize (Hfrees _ Hx).
      rewrite IS_INUSE_odd in Hfrees. lia. }
  split; [set_solver|]. split.
  - rewrite Hfr; [done|set_solver].
  - intros c Hc. apply Hbound. set_solver.
Qed.



Lemma scan_unfold fuel m tmp aux :
  scan fuel m tmp aux =
    if Z.eqb tmp NULL then Some (NULL, m)
    else match fuel with
         | O => None
         | S fuel' =>
             if Z.eqb (IS_INUSE m tmp) 0 then
               match do_compact fuel' m tmp with
               | Some m' =>
                   if Z.geb (BLOCK_SIZE m' tmp) aux then Some (tmp, m')
                   else scan fuel' m' (NEXT_ADDRESS m' tmp) aux
               | None => None
               end
             else scan fuel' m (NEXT_ADDRESS m tmp) aux
         end.
Proof using Type. by destruct fuel. Qed.

(** A block in use that points to itself stops every loop that reaches
    it. *)
Lemma scan_self_loop fuel m a aux :
  a ≠ NULL → IS_INUSE m a ≠ 0 → NEXT_ADDRESS m a = a →
  scan fuel m a aux = None.
Proof using Type.
  intros Hn Hu Hself. induction fuel as [|fuel IH]; rewrite scan_unfold;
    destruct (Z.eqb_spec a NULL); try done.
  destruct (Z.eqb_spec (IS_INUSE m a) 0); [done|]. by rewrite Hself.
Qed.

Lemma compact_walk_self_loop fuel m a :
  a ≠ NULL → IS_INUSE m a = 0 → NEXT_ADDRESS m a = a →
  compact_walk fuel m a = None.
Proof using Type.
  intros Hn Hf Hself. induction fuel as [|fuel IH].
  - by apply compact_walk_free_0.
  - by rewrite compact_walk_free, Hself.
Qed.

(** The search loop keeps the list of blocks well formed, and the block
    it stops on is a free, coalesced block of the list. *)
Lemma scan_chain aux live fuel : ∀ m bl a t m',
  chain_ok b0 top m bl live → a = NULL ∨ a ∈ bl →
  scan fuel m a aux = Some (t, m') →
  ∃ bl', chain_ok b0 top m' bl' live ∧
         (t = NULL ∨
          ∃ l1 l2, bl' = l1 ++ t :: l2 ∧ load m' t = hd NULL l2 ∧
                   aux ≤ BLOCK_SIZE m' t).
Proof.
  induction fuel as [|fuel IH]; intros m bl a t m' Hc Ha;
    rewrite scan_unfold; destruct (Z.eqb_spec a NULL) as [->|Hn].
  1,3: intros [= <- <-]; exists bl; by auto.
  { done. }
  destruct Ha as [|Ha]; [done|].
  pose proof Hc as (Hhd & Hs & Hok & Hlk & Hlive).
  pose proof Ha as (l1 & l & Hbl)%list_elem_of_split.
  assert (Hokl : Forall (addr_ok b0 top) (a :: l)).
  { rewrite Hbl in Hok. by apply Forall_app in Hok as [_ ?]. }
  assert (Hlkl : linked_to m NULL (a :: l)).
  { rewrite Hbl in Hlk. by apply linked_to_app in Hlk as [_ ?]. }
  assert (Hcs := linked_cases m NULL a l word_addr_NULL Hokl Hlkl).
  assert (Hnext_in : hd NULL l = NULL ∨ hd NULL l ∈ bl).
  { destruct l as [|a' l']; [by left|right]. rewrite Hbl. set_solver. }
  destruct Hcs as [(_ & Hf & _)|[(_ & Hu & Hnext)|(_ & Hu & Hnext)]].
  - rewrite Hf. cbn [Z.eqb].
    destruct (do_compact fuel m a) as [m1|] eqn:Hdc; [|done].
    destruct (do_compact_chain m bl live fuel a m1 Hc Ha Hf Hdc)
      as (k1 & frees & k2 & -> & Hc1 & -> & Hstop).
    assert (Hload : load (store m a (hd NULL k2)) a = hd NULL k2)
      by apply load_store_eq.
    destruct (Z.geb _ aux) eqn:Hfit.
    + intros [= <- <-]. eexists. split; [exact Hc1|]. right.
      exists k1, k2. split; [done|]. split; [done|].
      apply Z.geb_le in Hfit. lia.
    + intros Hscan. eapply IH; [exact Hc1| |exact Hscan].
      assert (Hw : word_addr (hd NULL k2)).
      { apply hd_word; [apply word_addr_NULL|].
        destruct Hc1 as (_ & _ & Hok1 & _).
        by apply Forall_app in Hok1 as [_ [_ ?]%Forall_cons]. }
      unfold NEXT_ADDRESS, hdr_next. rewrite Hload.
      rewrite (proj1 (proj2 (decode_free _ Hw))).
      destruct k2 as [|c k2]; [by left|right]. set_solver.
  - rewrite Hu. cbn [Z.eqb]. rewrite Hnext. intros Hscan.
    eapply IH; [exact Hc|exact Hnext_in|exact Hscan].
  - rewrite Hu. cbn [Z.eqb]. rewrite Hnext.
    rewrite scan_self_loop; [done..|lia|done].
Qed.

Lemma chain_ok_mono top1 m bl live :
  top1 ≤ top → chain_ok b0 top1 m bl live → chain_ok b0 top m bl live.
Proof.
  intros Hle (Hhd & Hs & Hok & Hlk & Hlive). repeat split; try done.
  eapply Forall_impl; [exact Hok|]. unfold addr_ok. intros c. lia.
Qed.

(** A live allocation sits on a block in use, so not on a free one. *)
Lemma live_not_free m bl live t :
  Forall (live_ok m bl) live → IS_INUSE m t = 0 →
  ∀ x, x ∈ live → a_ptr x - SZ_BLOCK_METADATA ≠ t.
Proof using Type.
  intros Hlive Hf x Hx <-. rewrite Forall_forall in Hlive.
  destruct (Hlive x Hx) as (_ & Hodd & _).
  rewrite IS_INUSE_odd in Hf. lia.
Qed.

(** Marking a free block of the list as in use, with the next reference
    kept or pointed at the block itself. *)
Lemma mark_inuse_chain m m' live l1 t l2 v fp :
  chain_ok b0 top m (l1 ++ t :: l2) live →
  load m t = hd NULL l2 →
  v = hd NULL l2 + 1 ∨ v = t + 1 →
  (∀ c, c ∈ l2 → t + fp ≤ c) →
  load m' t = v → (∀ c, c ≠ t → load m' c = load m c) →
  chain_ok b0 top m' (l1 ++ t :: l2) (mkAllocd (t + 8) fp :: live).
Proof.
  intros (Hhd & Hs & Hok & Hlk & Hlive) Hfree Hv Hfp Ht Hfr.
  assert (Hne : ∀ c, c ∈ l1 ++ l2 → c ≠ t)
    by (intros c; by eapply chain_ok_sorted_ne).
  assert (Hw : word_addr (hd NULL l2)).
  { apply hd_word; [apply word_addr_NULL|].
    by apply Forall_app in Hok as [_ [_ ?]%Forall_cons]. }
  assert (Hwt : word_addr t ∧ t ≠ NULL).
  { apply addr_ok_word. by apply Forall_app in Hok as [_ [? _]%Forall_cons]. }
  assert (Hf : IS_INUSE m t = 0).
  { unfold IS_INUSE, hdr_next. rewrite Hfree. apply (decode_free _ Hw). }
  split; [done|]. split; [done|]. split; [done|]. split.
  { apply linked_to_app in Hlk as (Hl1 & _ & Hl2).
    apply linked_to_app. split; [|split].
    - eapply linked_to_frame; [|exact Hl1].
      intros c Hc. apply Hfr, Hne. set_solver.
    - unfold link. rewrite Ht. tauto.
    - eapply linked_to_frame; [|exact Hl2].
      intros c Hc. apply Hfr, Hne. set_solver. }
  apply Forall_cons. split.
  - unfold live_ok. cbn [a_ptr a_footprint]. unfold SZ_BLOCK_METADATA.
    replace (t + 8 - 8) with t by lia. split; [set_solver|]. split.
    + rewrite Ht. destruct Hwt as [(? & ? & ?) _], Hw as (? & ? & ?).
      destruct Hv as [->| ->]; Z.div_mod_to_equations; lia.
    + intros c Hc Hlt. apply elem_of_app in Hc as [Hc|Hc].
      * apply StronglySorted_app in Hs as (H12 & _ & _).
        assert (c < t); [|lia]. apply H12; [done|]. apply elem_of_cons. by left.
      * apply elem_of_cons in Hc as [->|Hc]; [lia|by apply Hfp].
  - rewrite Forall_forall in Hlive |- *. intros x Hx.
    destruct (Hlive x Hx) as (Hin & Hodd & Hb).
    split; [done|]. split; [|done]. rewrite Hfr; [done|].
    eapply live_not_free; [|exact Hf|exact Hx]. by apply Forall_forall.
Qed.

(** Splitting a free block [t] of the list: [t] becomes a block in use
    that points to the new free block [t2], which takes over the old next
    reference of [t]. *)
Lemma split_chain m m' live l1 t l2 t2 fp :
  chain_ok b0 top m (l1 ++ t :: l2) live →
  load m t = hd NULL l2 →
  t < t2 → t + fp ≤ t2 → addr_ok b0 top t2 → (∀ c, c ∈ l2 → t2 < c) →
  load m' t = t2 + 1 → load m' t2 = hd NULL l2 →
  (∀ c, c ≠ t → c ≠ t2 → load m' c = load m c) →
  chain_ok b0 top m' (l1 ++ t :: t2 :: l2) (mkAllocd (t + 8) fp :: live).
Proof.
  intros (Hhd & Hs & Hok & Hlk & Hlive) Hfree Hlt Hfp Hok2 Hl2 Ht Ht2 Hfr.
  assert (Hw : word_addr (hd NULL l2)).
  { apply hd_word; [apply word_addr_NULL|].
    by apply Forall_app in Hok as [_ [_ ?]%Forall_cons]. }
  assert (Hf : IS_INUSE m t = 0).
  { unfold IS_INUSE, hdr_next. rewrite Hfree. apply (decode_free _ Hw). }
  pose proof Hs as (H12 & Hs1 & [Htl2 Hs2]%StronglySorted_cons)%StronglySorted_app.
  assert (H1t : ∀ c, c ∈ l1 → c < t).
  { intros c Hc. apply H12; [done|]. apply elem_of_cons. by left. }
  assert (Ht2' : ∀ c, c ∈ l2 → t < c).
  { intros c Hc. rewrite Forall_forall in Htl2. by apply Htl2. }
  split; [by destruct l1|]. split.
  { apply StronglySorted_app. split; [|split; [done|]].
    - intros x1 x2 Hx1 Hx2. specialize (H1t x1 Hx1).
      rewrite !elem_of_cons in Hx2. destruct Hx2 as [->|[->|Hx2]]; [lia..|].
      specialize (Ht2' x2 Hx2). lia.
    - apply StronglySorted_cons. split.
      + apply Forall_cons. split; [done|]. apply Forall_forall. auto.
      + apply StronglySorted_cons. split; [|done]. apply Forall_forall. auto. }
  split.
  { revert Hok. rewrite !Forall_app, !Forall_cons. tauto. }
  split.
  { apply linked_to_app in Hlk as (Hl1 & _ & Hlk2).
    apply linked_to_app. split; [|split; [|split]].
    - eapply linked_to_frame; [|exact Hl1].
      intros c Hc. specialize (H1t c Hc). apply Hfr; lia.
    - unfold link. cbn [hd]. rewrite Ht. tauto.
    - unfold link. rewrite Ht2. tauto.
    - eapply linked_to_frame; [|exact Hlk2].
      intros c Hc. specialize (Hl2 c Hc). specialize (Ht2' c Hc). apply Hfr; lia. }
  apply Forall_cons. split.
  - unfold live_ok. cbn [a_ptr a_footprint]. unfold SZ_BLOCK_METADATA.
    replace (t + 8 - 8) with t by lia. split; [set_solver|]. split.
    + rewrite Ht. destruct Hok2 as (_ & Hal). unfold MY_ALIGNMENT_SZ in Hal.
      Z.div_mod_to_equations. lia.
    + intros c Hc Hltc. rewrite elem_of_app, !elem_of_cons in Hc.
      destruct Hc as [Hc|[->|[->|Hc]]]; [|lia..|].
      * specialize (H1t c Hc). lia.
      * specialize (Hl2 c Hc). lia.
  - rewrite Forall_forall in Hlive |- *. intros x Hx.
    destruct (Hlive x Hx) as (Hin & Hodd & Hb).
    assert (Hxt : a_ptr x - SZ_BLOCK_METADATA ≠ t).
    { eapply live_not_free; [|exact Hf|exact Hx]. by apply Forall_forall. }
    set (blk := a_ptr x - SZ_BLOCK_METADATA) in *.
    assert (Hside : (blk ∈ l1 ∧ blk < t) ∨ (blk ∈ l2 ∧ t2 < blk)).
    { rewrite elem_of_app, elem_of_cons in Hin.
      destruct Hin as [Hin|[->|Hin]]; [left|done|right]; auto. }
    split; [|split].
    + rewrite elem_of_app, !elem_of_cons. tauto.
    + rewrite Hfr; [done..|]. destruct Hside as [[_ ?]|[_ ?]]; lia.
    + intros c Hc Hltc. rewrite elem_of_app, !elem_of_cons in Hc.
      assert (Hbt : blk < t → blk + a_footprint x ≤ t).
      { apply Hb. rewrite elem_of_app, elem_of_cons. tauto. }
      destruct Hc as [Hc|[->|[->|Hc]]].
      * apply Hb; [|done]. rewrite elem_of_app. tauto.
      * by apply Hbt.
      * destruct Hside as [[_ ?]|[_ ?]]; lia.
      * apply Hb; [|done]. rewrite elem_of_app, elem_of_cons. tauto.
Qed.

End Chain.

(** * Handing a block over *)

Section HandOver.

Implicit Types (m : gmap Z Z) (a t : Z) (l bl : list Z).

Lemma wrap_neg x : 0 < x < WORD → wrap (- x) = WORD - x.
Proof.
  intros H. unfold wrap. symmetry. apply (Z.mod_unique _ _ (-1)); lia.
Qed.

(** The store [mymalloc] leaves once the candidate [tmp] is found. *)
Lemma hand_over_mem s m tmp aux :
  mem (hand_over s m tmp aux).2 =
    if needs_split m tmp aux
    then store (store m (wrap (tmp + aux))
                  (Z.land (hdr_next m tmp) (of_int (Z.lnot IN_USE_BIT))))
               tmp (Z.lor (wrap (tmp + aux)) IN_USE_BIT)
    else store m tmp (Z.lor (hdr_next m tmp) IN_USE_BIT).
Proof.
  unfold hand_over. cbn [snd mem]. destruct (needs_split m tmp aux); [|done].
  unfold split, SET_INUSE, UNSET_INUSE, hdr_next.
  by rewrite !load_store_eq, !store_store.
Qed.

Lemma split_threshold aux :
  0 ≤ aux ≤ 4096 →
  wrap (wrap (aux + SZ_BLOCK_METADATA) + ALIGN 1) = aux + 16.
Proof.
  intros H. rewrite ALIGN_1. unfold SZ_BLOCK_METADATA.
  rewrite !wrap_small; rewrite ?wrap_small; rewrite ?WORD_eq; lia.
Qed.

End HandOver.

Section Alloc.

Context (b0 : Z).
Hypothesis Hb0 : initial_brk b0.

Implicit Types (m : gmap Z Z) (a t : Z) (l bl : list Z).

(** The size [mymalloc] tests for a free block of the list. *)
Lemma chain_block_size top m l1 t l2 live :
  top ≤ b0 + 4096 →
  chain_ok b0 top m (l1 ++ t :: l2) live → load m t = hd NULL l2 →
  start t = t + 8 ∧
  IS_INUSE m t = 0 ∧
  BLOCK_SIZE m t = match l2 with
                   | [] => WORD - t - 8
                   | a' :: _ => a' - t - 8
                   end ∧
  (∀ c, c ∈ l2 → t + 8 ≤ hd NULL l2 ≤ c).
Proof.
  intros Htop (Hhd & Hs & Hok & Hlk & Hlive) Hfree.
  pose proof Hok as [_ [Hokt Hok2]%Forall_cons]%Forall_app.
  assert (Hw : word_addr (hd NULL l2))
    by (eapply hd_word; eauto using word_addr_NULL).
  destruct (addr_ok_word b0 top Hb0 Htop t Hokt) as [(Ht0 & Ht1 & Ht8) Htn].
  assert (Hst : start t = t + 8).
  { unfold start, SZ_BLOCK_METADATA. apply wrap_small.
    destruct Hb0 as (? & ? & ?), Hokt as [? _]. rewrite WORD_eq in *. lia. }
  assert (Hnext : NEXT_ADDRESS m t = hd NULL l2).
  { unfold NEXT_ADDRESS, hdr_next. rewrite Hfree. apply (decode_free _ Hw). }
  split; [done|]. split.
  { unfold IS_INUSE, hdr_next. rewrite Hfree. apply (decode_free _ Hw). }
  unfold BLOCK_SIZE. rewrite Hnext, Hst.
  destruct l2 as [|a' l2]; cbn [hd].
  - split; [|by intros c ?%elem_of_nil].
    unfold NULL. replace (0 - (t + 8)) with (- (t + 8)) by lia.
    rewrite wrap_neg; [lia|].
    destruct Hb0 as (? & ? & ?), Hokt as [? _]. rewrite WORD_eq in *. lia.
  - apply StronglySorted_app in Hs as (_ & _ & Hs).
    apply StronglySorted_cons in Hs as [Hta Hs].
    apply StronglySorted_cons in Hs as [Ha' _].
    apply Forall_cons in Hta as [Hta _].
    cbn [hd] in Hw. destruct Hw as (? & ? & Ha8).
    assert (t + 8 ≤ a') by (Z.div_mod_to_equations; lia).
    split; [rewrite wrap_small; lia|].
    intros c [->|Hc]%elem_of_cons; [lia|].
    rewrite Forall_forall in Ha'. specialize (Ha' c Hc). lia.
Qed.

(** Handing the candidate block over keeps the list of blocks well
    formed, with the new allocation added to the live ones; the pointer
    is not that of a live allocation. *)
Lemma hand_over_chain avail m live l1 t l2 aux s :
  0 ≤ aux ≤ avail → avail ≤ 4096 → aux mod 8 = 0 →
  chain_ok b0 (b0 + 4096 - avail) m (l1 ++ t :: l2) live →
  load m t = hd NULL l2 → aux ≤ BLOCK_SIZE m t →
  (hand_over s m t aux).1 = t + 8 ∧
  (∀ x, x ∈ live → a_ptr x ≠ t + 8) ∧
  ∃ bl', chain_ok b0 (b0 + 4096 - (avail - aux))
           (mem (hand_over s m t aux).2) bl' (mkAllocd (t + 8) aux :: live).
Proof.
  intros Haux Hav Hal Hc Hfree Hfit.
  set (top := b0 + 4096 - avail) in *.
  set (top' := b0 + 4096 - (avail - aux)).
  assert (Htop : top ≤ b0 + 4096) by (unfold top; lia).
  assert (Htop' : top' ≤ b0 + 4096) by (unfold top'; lia).
  destruct (chain_block_size top m l1 t l2 live Htop Hc Hfree)
    as (Hst & Hf & Hbs & Hl2).
  pose proof Hc as (_ & _ & Hok & _ & Hlive).
  pose proof Hok as [_ [Hokt Hok2]%Forall_cons]%Forall_app.
  assert (Hw : word_addr (hd NULL l2)).
  { apply (hd_word b0 top Hb0 Htop); [apply word_addr_NULL|exact Hok2]. }
  destruct (addr_ok_word b0 top Hb0 Htop t Hokt) as [Hwt Htn].
  assert (Hc' : chain_ok b0 top' m (l1 ++ t :: l2) live).
  { eapply chain_ok_mono; [|exact Hc]. unfold top, top'. lia. }
  split; [done|]. split.
  { intros x Hx Hp.
    apply (live_not_free m _ live t Hlive Hf x Hx).
    unfold SZ_BLOCK_METADATA. lia. }
  rewrite hand_over_mem. unfold needs_split, hdr_next.
  rewrite split_threshold, Hfree by lia.
  rewrite (proj1 (proj2 (decode_free _ Hw))).
  destruct (Z.geb_spec (BLOCK_SIZE m t) (aux + 16)) as [Hsplit|Hwhole].
  - assert (Ht2 : wrap (t + aux) = t + aux).
    { apply wrap_small. destruct Hb0 as (? & ? & ?), Hokt as [[? ?] _].
      unfold top in *. rewrite WORD_eq in *. lia. }
    rewrite Ht2.
    assert (Hok2' : addr_ok b0 top' (t + aux)).
    { destruct Hokt as [[? ?] Hm]. unfold addr_ok, MY_ALIGNMENT_SZ in *.
      unfold top, top' in *. split; [lia|]. Z.div_mod_to_equations. lia. }
    destruct (addr_ok_word b0 top' Hb0 Htop' _ Hok2') as [Hwt2 _].
    rewrite (proj2 (proj2 (decode_free _ Hwt2))).
    destruct (Z.eq_dec aux 0) as [->|Hpos].
    + exists (l1 ++ t :: l2).
      eapply (mark_inuse_chain b0 top' Hb0 Htop' m _ live l1 t l2 (t + 1) 0);
        [exact Hc'|exact Hfree|by right| | |].
      * intros c Hc0. specialize (Hl2 c Hc0). lia.
      * replace (t + 0) with t by lia. by rewrite load_store_eq.
      * intros c Hne. replace (t + 0) with t by lia.
        by rewrite !load_store_ne.
    + exists (l1 ++ t :: (t + aux) :: l2).
      eapply (split_chain b0 top' Hb0 Htop' m _ live l1 t l2 (t + aux) aux);
        [exact Hc'|exact Hfree|lia|lia|exact Hok2'| | | |].
      * intros c Hc0. specialize (Hl2 c Hc0).
        destruct l2 as [|a' l2]; [by apply elem_of_nil in Hc0|].
        cbn [hd] in Hl2. lia.
      * apply load_store_eq.
      * rewrite load_store_ne by lia. apply load_store_eq.
      * intros c Hn1 Hn2. by rewrite !load_store_ne.
  - exists (l1 ++ t :: l2).
    rewrite (proj2 (proj2 (decode_free _ Hw))).
    eapply (mark_inuse_chain b0 top' Hb0 Htop' m _ live l1 t l2 _ aux);
      [exact Hc'|exact Hfree|by left| | |].
    + intros c Hc0. specialize (Hl2 c Hc0).
      destruct l2 as [|a' l2]; [by apply elem_of_nil in Hc0|].
      cbn [hd] in Hl2. lia.
    + apply load_store_eq.
    + intros c Hne. by rewrite load_store_ne.
Qed.

End Alloc.

(** * The invariant is kept by every call *)

Section Invariant.

Implicit Types (s : state) (live : list allocd) (bl : list Z).

Lemma ready_inv s live :
  invariant (s, live) → ∃ bl, heap_inv (ready s) live bl.
Proof.
  intros [(b & Hb & [= -> ->])|[bl Hinv]].
  - exists [b]. unfold ready, init_heap, heap_inv. cbn.
    split; [done|]. split; [lia|]. split; [done|]. split; [|constructor].
    pose proof Hb as (Hpos & Hal & Hfit).
    split; [done|]. split; [repeat constructor|]. split.
    { repeat constructor; [lia|lia|done]. }
    split; [|constructor].
    split; [|done]. left. apply load_store_eq.
  - exists bl. cbn in Hinv. unfold ready.
    pose proof Hinv as (Hsz & _).
    destruct (Z.leb_spec (size (_h s)) 0); [lia|done].
Qed.

Lemma mymalloc_invariant fuel n s p s' live :
  0 ≤ n < WORD → invariant (s, live) →
  mymalloc fuel n s = Some (p, s') →
  invariant (s', if Z.eqb p NULL then live
                 else mkAllocd p (aux_size_of n) :: live).
Proof.
  intros Hn [bl Hinv]%ready_inv Hm. apply mymalloc_cases in Hm. cbv zeta in Hm.
  revert Hinv Hm. generalize (ready s). clear s. intros s Hinv Hm.
  destruct Hinv as (Hsz & Hav & Hb & Hc & Hnd).
  destruct Hm as [(_ & -> & ->)|(Hle & tmp & m & Hscan & Hm)].
  { right. exists bl. exact (conj Hsz (conj Hav (conj Hb (conj Hc Hnd)))). }
  assert (Htop : start_of_heap (_h s) + 4096
                 - available_size (_h s)
                 ≤ start_of_heap (_h s) + 4096) by lia.
  eapply (scan_chain _ _ Hb Htop) in Hscan as (bl' & Hc' & Ht); [|exact Hc|].
  2: { right. destruct Hc as (Hhd & _). destruct bl; [done|].
       injection Hhd as ->. set_solver. }
  destruct Hm as [(-> & -> & ->)|(Hnn & Hm)].
  { right. exists bl'. exact (conj Hsz (conj Hav (conj Hb (conj Hc' Hnd)))). }
  destruct Ht as [|(l1 & l2 & -> & Hfree & Hfit)]; [done|].
  pose proof (aux_size_of_range n) as Hr.
  pose proof (aux_size_of_aligned n) as Hal.
  destruct (hand_over_chain _ Hb (available_size (_h s)) m live
              l1 tmp l2 (aux_size_of n) s
              ltac:(lia) ltac:(lia) Hal Hc' Hfree Hfit)
    as (Hp & Hfresh & bl2 & Hc2).
  rewrite <- Hm in Hp, Hc2. cbn [fst snd] in Hp, Hc2. subst p.
  assert (Htn : tmp + 8 ≠ NULL).
  { destruct Hc' as (_ & _ & Hok & _).
    apply Forall_app in Hok as [_ [[[? ?] _] _]%Forall_cons].
    destruct Hb as (? & _). unfold NULL. lia. }
  destruct (Z.eqb_spec (tmp + 8) NULL) as [|_]; [done|].
  right. exists bl2. unfold hand_over in Hm. injection Hm as _ ->.
  cbn [fst snd _h mem size available_size start_of_heap] in *.
  assert (Hwr : wrap (available_size (_h s) - aux_size_of n)
                = available_size (_h s) - aux_size_of n).
  { apply wrap_small. rewrite WORD_eq. lia. }
  unfold heap_inv. cbn [_h mem size available_size start_of_heap].
  rewrite Hwr.
  split; [done|]. split; [lia|]. split; [done|]. split; [done|].
  cbn [map a_ptr]. apply NoDup_cons. split; [|done].
  intros (x & Hx & Hin)%list_elem_of_fmap. by apply (Hfresh x).
Qed.

(** Marking a block of the list as free, for the allocations that stay
    live. *)
Lemma unmark_chain b0 top (m m' : gmap Z Z) live live' l1 t l2 :
  chain_ok b0 top m (l1 ++ t :: l2) live →
  load m' t = hd NULL l2 → (∀ c, c ≠ t → load m' c = load m c) →
  (∀ y, y ∈ live' → y ∈ live ∧ a_ptr y - SZ_BLOCK_METADATA ≠ t) →
  chain_ok b0 top m' (l1 ++ t :: l2) live'.
Proof.
  intros (Hhd & Hs & Hok & Hlk & Hlive) Ht Hfr Hsub.
  assert (Hne : ∀ c, c ∈ l1 ++ l2 → c ≠ t)
    by (intros c; by eapply chain_ok_sorted_ne).
  split; [done|]. split; [done|]. split; [done|]. split.
  { apply linked_to_app in Hlk as (Hl1 & _ & Hl2).
    apply linked_to_app. split; [|split].
    - eapply linked_to_frame; [|exact Hl1].
      intros c Hc. apply Hfr, Hne. set_solver.
    - unfold link. rewrite Ht. tauto.
    - eapply linked_to_frame; [|exact Hl2].
      intros c Hc. apply Hfr, Hne. set_solver. }
  rewrite Forall_forall in Hlive |- *. intros y Hy.
  destruct (Hsub y Hy) as [Hin Hyt].
  destruct (Hlive y Hin) as (Hbl & Hodd & Hb).
  split; [done|]. split; [|done]. by rewrite Hfr.
Qed.

Lemma drop_ptr_spec p live y :
  y ∈ drop_ptr p live ↔ y ∈ live ∧ a_ptr y ≠ p.
Proof. unfold drop_ptr. rewrite list_elem_of_filter. tauto. Qed.

Lemma drop_ptr_NoDup p live :
  NoDup (map a_ptr live) → NoDup (map a_ptr (drop_ptr p live)).
Proof.
  intros H. eapply sublist_NoDup; [exact H|].
  apply (fmap_sublist a_ptr), sublist_filter.
Qed.

Lemma myfree_invariant fuel x s s' live :
  invariant (s, live) → x ∈ live →
  myfree fuel (a_ptr x) s = Some s' →
  invariant (s', drop_ptr (a_ptr x) live).
Proof.
  intros [(b & _ & [= -> ->])|[bl Hinv]] Hx; [by apply elem_of_nil in Hx|].
  destruct Hinv as (Hsz & Hav & Hb & Hc & Hnd). cbn [fst snd] in *.
  set (b0 := start_of_heap (_h s)) in *.
  set (top := b0 + 4096 - available_size (_h s)) in *.
  assert (Htop : top ≤ b0 + 4096) by (unfold top; lia).
  pose proof Hc as (Hhd & Hs & Hok & Hlk & Hlive).
  pose proof (proj1 (Forall_forall _ _) Hlive x Hx) as (Hin & Hodd & _).
  set (blk := a_ptr x - SZ_BLOCK_METADATA) in *.
  apply list_elem_of_split in Hin as (l1 & l2 & Hbl).
  rewrite Hbl in Hok, Hlk.
  pose proof Hok as [_ Hokl]%Forall_app.
  pose proof Hokl as [Hokb _]%Forall_cons.
  pose proof Hlk as [_ Hlkl]%linked_to_app.
  destruct (addr_ok_word b0 top Hb Htop blk Hokb) as [Hwb Hbn].
  assert (Hw : word_addr (hd NULL l2)).
  { apply (hd_word b0 top Hb Htop); [apply word_addr_NULL|].
    by apply Forall_cons in Hokl as [_ ?]. }
  assert (Hp : a_ptr x = blk + 8) by (unfold blk, SZ_BLOCK_METADATA; lia).
  unfold myfree. rewrite Hp.
  destruct (Z.eqb_spec (blk + 8) NULL) as [Hz|_].
  { destruct Hwb as (? & _). unfold NULL in Hz. lia. }
  assert (Hwrap : wrap (blk + 8 - SZ_BLOCK_METADATA) = blk).
  { unfold SZ_BLOCK_METADATA. replace (blk + 8 - 8) with blk by lia.
    apply wrap_small. destruct Hwb as (? & ? & _). lia. }
  rewrite Hwrap.
  destruct (do_compact fuel _ blk) as [m'|] eqn:Hdc; [|done].
  intros [= <-].
  assert (Hf0 : IS_INUSE (UNSET_INUSE (mem s) blk) blk = 0)
    by apply UNSET_INUSE_free.
  assert (Hload0 : load (UNSET_INUSE (mem s) blk) blk
                   = NEXT_ADDRESS (mem s) blk) by apply load_store_eq.
  destruct (linked_cases b0 top Hb Htop (mem s) NULL blk l2 word_addr_NULL
              Hokl Hlkl)
    as [(_ & Hf & _)|[(_ & _ & Hnext)|(_ & _ & Hnext)]].
  - rewrite IS_INUSE_odd in Hf. lia.
  - rewrite Hnext in Hload0.
    assert (Hc0 : chain_ok b0 top (UNSET_INUSE (mem s) blk)
                    (l1 ++ blk :: l2) (drop_ptr (blk + 8) live)).
    { eapply unmark_chain; [by rewrite <- Hbl|exact Hload0| |].
      - intros c Hne. by apply load_store_ne.
      - intros y [Hy Hyp]%drop_ptr_spec. split; [done|].
        unfold SZ_BLOCK_METADATA. lia. }
    eapply (do_compact_chain b0 top Hb Htop) in Hdc
      as (k1 & frees & k2 & _ & Hc1 & _); [|exact Hc0|set_solver|done].
    right. eexists. split; [done|]. split; [done|]. split; [done|].
    split; [exact Hc1|]. by apply drop_ptr_NoDup.
  - exfalso. apply do_compact_inv in Hdc as (r & Hw' & _).
    rewrite compact_walk_self_loop in Hw'; [done..|].
    unfold NEXT_ADDRESS, hdr_next. rewrite Hload0, Hnext.
    apply (decode_free _ Hwb).
Qed.

Lemma reset_loop_unfold fuel (m : gmap Z Z) tmp :
  reset_loop fuel m tmp =
    if Z.eqb tmp NULL then Some m
    else match fuel with
         | O => None
         | S fuel' =>
             reset_loop fuel' (UNSET_INUSE m tmp)
               (NEXT_ADDRESS (UNSET_INUSE m tmp) tmp)
         end.
Proof. by destruct fuel. Qed.

Lemma UNSET_INUSE_load (m : gmap Z Z) a :
  load (UNSET_INUSE m a) a = NEXT_ADDRESS m a.
Proof. apply load_store_eq. Qed.

Lemma UNSET_INUSE_next (m : gmap Z Z) a :
  NEXT_ADDRESS (UNSET_INUSE m a) a = NEXT_ADDRESS m a.
Proof.
  unfold NEXT_ADDRESS at 1. unfold hdr_next. rewrite UNSET_INUSE_load.
  apply masked_NEXT.
Qed.

(** The loop of [reset_heap] never leaves a block that points to
    itself. *)
Lemma reset_loop_self_loop fuel : ∀ (m : gmap Z Z) a,
  a ≠ NULL → NEXT_ADDRESS m a = a → reset_loop fuel m a = None.
Proof.
  induction fuel as [|fuel IH]; intros m a Hn Hself;
    rewrite reset_loop_unfold; destruct (Z.eqb_spec a NULL); try done.
  rewrite UNSET_INUSE_next, Hself. apply IH; [done|].
  by rewrite UNSET_INUSE_next.
Qed.

(** The loop of [reset_heap] frees every block of the list and keeps the
    next references. *)
Lemma reset_loop_chain b0 top fuel : ∀ (m : gmap Z Z) a l m',
  initial_brk b0 → top ≤ b0 + 4096 →
  StronglySorted Z.lt (a :: l) → Forall (addr_ok b0 top) (a :: l) →
  linked m (a :: l) →
  reset_loop fuel m a = Some m' →
  Forall (λ c, IS_INUSE m' c = 0) (a :: l) ∧ linked m' (a :: l) ∧
  ∀ c, c ∉ a :: l → load m' c = load m c.
Proof.
  induction fuel as [|fuel IH]; intros m a l m' Hb Htop Hs Hok Hlk;
    pose proof Hok as [[Hwa Hn]%(addr_ok_word b0 top Hb Htop) Hokl]%Forall_cons;
    rewrite reset_loop_unfold; destruct (Z.eqb_spec a NULL); try done.
  rewrite UNSET_INUSE_next.
  assert (Hw : word_addr (hd NULL l))
    by (apply (hd_word b0 top Hb Htop); [apply word_addr_NULL|done]).
  assert (Hnormal : NEXT_ADDRESS m a = hd NULL l →
    reset_loop fuel (UNSET_INUSE m a) (hd NULL l) = Some m' →
    Forall (λ c, IS_INUSE m' c = 0) (a :: l) ∧ linked m' (a :: l) ∧
    ∀ c, c ∉ a :: l → load m' c = load m c).
  { intros Hnext Hloop.
    assert (Hla : load (UNSET_INUSE m a) a = hd NULL l)
      by (by rewrite UNSET_INUSE_load).
    destruct l as [|a' l'].
    - rewrite reset_loop_unfold in Hloop. cbn in Hloop. injection Hloop as <-.
      split; [|split].
      + repeat constructor. apply UNSET_INUSE_free.
      + split; [|done]. by left.
      + intros c Hc. apply load_store_ne. set_solver.
    - cbn [hd] in *.
      pose proof Hs as [Hlt Hs']%StronglySorted_cons.
      assert (Hnotin : a ∉ a' :: l').
      { intros Hin. rewrite Forall_forall in Hlt. specialize (Hlt a Hin). lia. }
      destruct Hlk as [_ Hlk'].
      destruct (IH (UNSET_INUSE m a) a' l' m' Hb Htop Hs' Hokl) as (Hfree & Hlk2 & Hfr).
      { eapply linked_to_frame; [|exact Hlk'].
        intros c Hc. apply load_store_ne. by intros <-. }
      { done. }
      assert (Hla' : load m' a = a') by (by rewrite Hfr).
      split; [|split].
      + apply Forall_cons. split; [|done].
        unfold IS_INUSE, hdr_next. rewrite Hla'. apply (decode_free _ Hw).
      + split; [by left|done].
      + intros c Hc. rewrite Hfr by set_solver.
        apply load_store_ne. set_solver. }
  destruct (linked_cases b0 top Hb Htop m NULL a l word_addr_NULL Hok Hlk)
    as [(_ & _ & Hnext)|[(_ & _ & Hnext)|(_ & _ & Hnext)]];
    rewrite Hnext; try (by apply Hnormal).
  by rewrite reset_loop_self_loop by (by rewrite ?UNSET_INUSE_next).
Qed.

Lemma reset_heap_invariant fuel s s' live :
  invariant (s, live) → start_of_heap (_h s) ≠ NULL →
  reset_heap fuel s = Some s' →
  invariant (s', []).
Proof.
  intros [(b & _ & [= -> ->])|[bl Hinv]] Hstart; [done|].
  destruct Hinv as (Hsz & Hav & Hb & Hc & Hnd). cbn [fst snd] in *.
  set (b0 := start_of_heap (_h s)) in *.
  set (top := b0 + 4096 - available_size (_h s)) in *.
  assert (Htop : top ≤ b0 + 4096) by (unfold top; lia).
  destruct Hc as (Hhd & Hs & Hok & Hlk & _).
  destruct bl as [|a l]; [done|]. injection Hhd as ->.
  unfold reset_heap. fold b0.
  destruct (reset_loop fuel (mem s) b0) as [m1|] eqn:Hloop; [|done].
  destruct (do_compact fuel m1 b0) as [m2|] eqn:Hdc; [|done].
  intros [= <-].
  destruct (reset_loop_chain b0 top fuel (mem s) b0 l m1 Hb Htop Hs Hok Hlk Hloop)
    as (Hfree & Hlk1 & _).
  apply do_compact_inv in Hdc as (r & Hw & ->).
  pose proof Hfree as [Hf0 Hfl]%Forall_cons.
  destruct (walk_chain b0 top Hb Htop m1 fuel b0 l r Hok Hlk1 Hf0 Hw)
    as (frees & l2 & -> & _ & -> & Hstop).
  assert (Hl2 : l2 = []).
  { destruct Hstop as [|Hu]; [done|]. destruct l2 as [|c l2]; [done|].
    cbn [hd] in Hu. rewrite Forall_forall in Hfl.
    exfalso. apply Hu, Hfl. set_solver. }
  subst l2. cbn [hd].
  right. exists [b0]. unfold heap_inv.
  cbn [fst snd _h mem start_of_heap available_size size]. fold b0. fold top.
  split; [done|]. split; [done|]. split; [done|].
  split; [|constructor].
  split; [done|]. split; [repeat constructor|]. split.
  { apply Forall_cons in Hok as [Hokb _].
    apply Forall_cons. split; [exact Hokb|constructor]. }
  split; [|constructor].
  split; [|done]. left. apply load_store_eq.
Qed.

(** Every state a program can reach satisfies the invariant. *)
Lemma reachable_invariant c : reachable c → invariant c.
Proof.
  induction 1 as [b Hb|c c' _ IH Hstep].
  - left. by exists b.
  - destruct Hstep as [fuel n s p s' live Hn Hm|fuel s s' live Hf
                      |fuel a s s' live Ha Hf|fuel s s' live Hs Hr].
    + by eapply mymalloc_invariant.
    + unfold myfree in Hf. cbn in Hf. by injection Hf as <-.
    + by eapply myfree_invariant.
    + by eapply reset_heap_invariant.
Qed.

Lemma NoDup_fmap_eq {A B} (f : A → B) (l : list A) x y :
  NoDup (f <$> l) → x ∈ l → y ∈ l → f x = f y → x = y.
Proof.
  induction l as [|z l IH]; [by intros _ ?%elem_of_nil|].
  rewrite fmap_cons, NoDup_cons, !elem_of_cons.
  intros [Hz Hnd] [->|Hx] [->|Hy] Hxy; [done| | |by apply IH].
  - exfalso. apply Hz. rewrite Hxy. by apply list_elem_of_fmap_2.
  - exfalso. apply Hz. rewrite <- Hxy. by apply list_elem_of_fmap_2.
Qed.

End Invariant.

(** * Disjointness of live allocations *)

Section Disjoint.

(** Two live allocations on different blocks of a well-formed list: the
    one at the lower address ends before the other begins. *)
Lemma live_ok_ordered m bl x y :
  live_ok m bl x → live_ok m bl y → a_ptr x < a_ptr y →
  disjoint_ranges x y.
Proof.
  intros (_ & _ & Hbx) (Hy & _ & _) Hlt z [[_ Hzx] [Hzy _]].
  specialize (Hbx _ Hy). unfold SZ_BLOCK_METADATA in *. lia.
Qed.

Lemma disjoint_ranges_sym x y : disjoint_ranges x y → disjoint_ranges y x.
Proof. intros H z [? ?]. by apply (H z). Qed.

(** C1: in every state a program reaches, two distinct live allocations
    have distinct pointers and disjoint byte ranges, each range running
    from the pointer to the end of the padded footprint of its block. *)
Theorem live_allocations_disjoint s live x y :
  reachable (s, live) → x ∈ live → y ∈ live → x ≠ y →
  a_ptr x ≠ a_ptr y ∧ disjoint_ranges x y.
Proof.
  intros [(b & _ & [= -> ->])|[bl Hinv]]%reachable_invariant Hx Hy Hxy;
    [by apply elem_of_nil in Hx|].
  destruct Hinv as (_ & _ & _ & (_ & _ & _ & _ & Hlive) & Hnd).
  cbn [fst snd] in *. rewrite Forall_forall in Hlive.
  assert (Hp : a_ptr x ≠ a_ptr y).
  { intros Heq. by apply Hxy, (NoDup_fmap_eq a_ptr live). }
  split; [done|].
  destruct (Z.lt_total (a_ptr x) (a_ptr y)) as [Hlt|[Heq|Hgt]]; [|done|].
  - eapply live_ok_ordered; eauto.
  - apply disjoint_ranges_sym. eapply live_ok_ordered; eauto.
Qed.

Lemma live_allocations_disjoint_witness :
  let x := mkAllocd 65544 24 in
  let y := mkAllocd 65568 24 in
  a_ptr x ≠ a_ptr y ∧ disjoint_ranges x y.
Proof.
  intros x y.
  pose (s1 := mkState (mkHeap 4096 4072 65536)
                (<[65536 := 65561]> (<[65560 := 0]> ∅)) 69632).
  pose (s2 := mkState (mkHeap 4096 4048 65536)
                (<[65536 := 65561]> (<[65560 := 65585]> (<[65584 := 0]> ∅)))
                69632).
  assert (Hb : initial_brk 65536) by (vm_compute; repeat split; congruence).
  assert (Hn : 0 ≤ 10 < WORD) by (vm_compute; split; congruence).
  assert (H1 : mymalloc 5 10 (initial_state 65536) = Some (65544, s1))
    by (vm_compute; reflexivity).
  assert (H2 : mymalloc 5 10 s1 = Some (65568, s2))
    by (vm_compute; reflexivity).
  assert (Hreach : reachable (s2, [y; x])).
  { eapply reach_step; [eapply reach_step; [exact (reach_init 65536 Hb)|]|].
    - exact (step_malloc 5 10 (initial_state 65536) 65544 s1 [] Hn H1).
    - exact (step_malloc 5 10 s1 65568 s2 [x] Hn H2). }
  apply (live_allocations_disjoint s2 [y; x] x y Hreach).
  - apply elem_of_cons. right. apply elem_of_cons. by left.
  - apply elem_of_cons. by left.
  - discriminate.
Defined.

End Disjoint.

(** * First fit *)

Section FirstFit.

Implicit Types (m : gmap Z Z) (a t y aux : Z) (pre : list Z).

Lemma coalesced_first_stop m a :
  coalesced m a → first_stop m (NEXT_ADDRESS m a) (NEXT_ADDRESS m a).
Proof.
  intros [_ [Hnull|Hu]].
  - rewrite Hnull. constructor.
  - destruct (Z.eq_dec (NEXT_ADDRESS m a) NULL) as [->|Hn]; by constructor.
Qed.

Lemma passed_over_frame m m' aux y :
  (∀ z, IS_INUSE m' z = IS_INUSE m z) → load m' y = load m y →
  passed_over m aux y → passed_over m' aux y.
Proof.
  intros Hu Hy. unfold passed_over, coalesced, BLOCK_SIZE, NEXT_ADDRESS, hdr_next.
  rewrite !Hu, !Hy. done.
Qed.

Lemma path_frame m m' a pre t :
  (∀ y, y ∈ pre → load m' y = load m y) →
  path m a pre t → path m' a pre t.
Proof.
  intros Hfr Hp. induction Hp as [a|a l b Hn Hp IH]; [constructor|].
  constructor; [done|].
  assert (Hnext : NEXT_ADDRESS m' a = NEXT_ADDRESS m a).
  { unfold NEXT_ADDRESS, hdr_next. rewrite Hfr; [done|]. apply elem_of_cons. by left. }
  rewrite Hnext. apply IH. intros y Hy. apply Hfr. apply elem_of_cons. by right.
Qed.

(** What one call of [do_compact] on a free block changes for the search
    loop: no block changes between free and in use, the blocks the loop
    went past keep their headers, and the block is coalesced. *)
Lemma do_compact_scan_frame aux fuel m a m' :
  a ≠ NULL → IS_INUSE m a = 0 → do_compact fuel m a = Some m' →
  (∀ y, IS_INUSE m' y = IS_INUSE m y) ∧
  (∀ y, passed_over m aux y → load m' y = load m y) ∧
  IS_INUSE m' a = 0 ∧ coalesced m' a.
Proof.
  intros Hn Hf (l & Hw & ->)%do_compact_inv.
  apply compact_walk_sound, first_stop_from_free in Hw; [|done..].
  pose proof (first_stop_masked _ _ _ Hw (masked_NEXT _ _)) as Hm.
  pose proof (first_stop_stops _ _ _ Hw) as Hstop.
  assert (Hu : ∀ y, IS_INUSE (store m a l) y = IS_INUSE m y).
  { intros y. unfold IS_INUSE, hdr_next. destruct (Z.eq_dec a y) as [<-|Hne].
    - rewrite load_store_eq. rewrite masked_land_inuse by done.
      symmetry. exact Hf.
    - by rewrite load_store_ne. }
  split; [done|]. split; [|split].
  - intros y Hy. destruct (Z.eq_dec a y) as [<-|Hne]; [|by apply load_store_ne].
    rewrite load_store_eq. destruct Hy as [Hy|(_ & Hco & _)]; [done|].
    rewrite (first_stop_unique _ _ _ _ Hw (coalesced_first_stop _ _ Hco)).
    symmetry. apply Hco.
  - by rewrite Hu.
  - unfold coalesced, NEXT_ADDRESS, hdr_next. rewrite load_store_eq, Hm.
    split; [done|]. rewrite Hu. exact Hstop.
Qed.

(** The search loop stops on a free, coalesced block that fits; every
    block on the way from where it started is in use or is a free,
    coalesced block that does not fit. *)
Lemma scan_passes aux fuel : ∀ m a t m',
  scan fuel m a aux = Some (t, m') → t ≠ NULL →
  ∃ pre,
    path m' a pre t ∧ Forall (passed_over m' aux) pre ∧
    IS_INUSE m' t = 0 ∧ coalesced m' t ∧ aux ≤ BLOCK_SIZE m' t ∧
    (∀ y, IS_INUSE m' y = IS_INUSE m y) ∧
    (∀ y, passed_over m aux y → load m' y = load m y).
Proof.
  induction fuel as [|fuel IH]; intros m a t m';
    rewrite scan_unfold; destruct (Z.eqb_spec a NULL) as [->|Hn].
  1,3: by intros [= <- <-] ?.
  { done. }
  destruct (Z.eqb_spec (IS_INUSE m a) 0) as [Hf|Hu].
  - destruct (do_compact fuel m a) as [m1|] eqn:Hdc; [|done].
    destruct (do_compact_scan_frame aux fuel m a m1 Hn Hf Hdc)
      as (Hu1 & Hfr1 & Hf1 & Hco1).
    destruct (Z.geb (BLOCK_SIZE m1 a) aux) eqn:Hfit.
    + intros [= <- <-] _. exists []. apply Z.geb_le in Hfit.
      split; [constructor|]. split; [constructor|].
      split; [done|]. split; [done|]. split; [lia|]. by split.
    + intros Hscan Ht.
      destruct (IH _ _ _ _ Hscan Ht)
        as (pre & Hp & Hpre & Hft & Hcot & Hfitt & Hu' & Hfr').
      assert (Hsmall : BLOCK_SIZE m1 a < aux).
      { destruct (Z.geb_spec (BLOCK_SIZE m1 a) aux); [done|lia]. }
      assert (Hpo : passed_over m1 aux a) by (right; done).
      assert (Hla : load m' a = load m1 a) by (by apply Hfr').
      exists (a :: pre). split; [|split; [|split; [|split; [|split; [|split]]]]];
        try done.
      * constructor; [done|].
        replace (NEXT_ADDRESS m' a) with (NEXT_ADDRESS m1 a); [done|].
        unfold NEXT_ADDRESS, hdr_next. by rewrite Hla.
      * constructor; [|done]. by apply (passed_over_frame m1).
      * intros y. by rewrite Hu', Hu1.
      * intros y Hy. rewrite <- (Hfr1 y Hy). apply Hfr'.
        apply (passed_over_frame m); [done|by apply Hfr1|done].
  - intros Hscan Ht.
    destruct (IH _ _ _ _ Hscan Ht)
      as (pre & Hp & Hpre & Hft & Hcot & Hfitt & Hu' & Hfr').
    assert (Hpo : passed_over m aux a) by (by left).
    assert (Hla : load m' a = load m a) by (by apply Hfr').
    exists (a :: pre). split; [|split; [|split; [|split; [|split; [|split]]]]];
      try done.
    + constructor; [done|].
      replace (NEXT_ADDRESS m' a) with (NEXT_ADDRESS m a); [done|].
      unfold NEXT_ADDRESS, hdr_next. by rewrite Hla.
    + constructor; [|done]. by apply (passed_over_frame m).
Qed.

Lemma path_self_loop m a pre t :
  NEXT_ADDRESS m a = a → path m a pre t → t = a.
Proof.
  intros Hself Hp. induction Hp as [a|a l b Hn Hp IH]; [done|].
  rewrite Hself in IH. by apply IH.
Qed.

Lemma path_null m pre t : path m NULL pre t → t = NULL.
Proof. by inversion 1. Qed.

(** In a well-formed list a path to a free block runs along the list. *)
Lemma path_in_chain b0 top m :
  initial_brk b0 → top ≤ b0 + 4096 →
  ∀ pre a l t,
    Forall (addr_ok b0 top) (a :: l) → linked m (a :: l) →
    path m a pre t → t ≠ NULL → IS_INUSE m t = 0 →
    ∃ l2, a :: l = pre ++ t :: l2.
Proof.
  intros Hb Htop. induction pre as [|x pre IH]; intros a l t Hok Hlk Hp Ht Hf.
  { inversion Hp; subst. by exists l. }
  inversion Hp as [|? ? ? Hn Hp']; subst.
  destruct (linked_cases b0 top Hb Htop m NULL x l word_addr_NULL Hok Hlk)
    as [(_ & _ & Hnext)|[(_ & _ & Hnext)|(_ & Hu & Hnext)]];
    rewrite Hnext in Hp'.
  3: { apply path_self_loop in Hp'; [|done]. subst. congruence. }
  all: destruct l as [|a' l']; [by apply path_null in Hp'|].
  all: cbn [hd] in Hp'; apply Forall_cons in Hok as [_ Hok];
    destruct Hlk as [_ Hlk];
    destruct (IH a' l' t Hok Hlk Hp' Ht Hf) as [l2 ->]; by exists l2.
Qed.

(** The search in terms of the number [BLOCK_SIZE] computes: when
    [mymalloc] returns a pointer in a state a program reaches, the block
    handed out is free, coalesced and [BLOCK_SIZE] finds it at least as
    large as the padded footprint, and the blocks of the chain before it,
    which are the blocks at lower addresses, are each in use or free,
    coalesced and smaller than the footprint by [BLOCK_SIZE]. *)
Lemma mymalloc_first_fit s live fuel n p s' :
  reachable (s, live) → 0 ≤ n < WORD →
  mymalloc fuel n s = Some (p, s') → p ≠ NULL →
  ∃ tmp m pre,
    scan fuel (mem (ready s)) (start_of_heap (_h (ready s))) (aux_size_of n)
      = Some (tmp, m) ∧
    p = start tmp ∧
    path m (start_of_heap (_h (ready s))) pre tmp ∧
    StronglySorted Z.lt (pre ++ [tmp]) ∧
    Forall (passed_over m (aux_size_of n)) pre ∧
    IS_INUSE m tmp = 0 ∧ coalesced m tmp ∧
    aux_size_of n ≤ BLOCK_SIZE m tmp.
Proof.
  intros [bl Hinv]%reachable_invariant%ready_inv Hn Hm Hp.
  apply mymalloc_cases in Hm. cbv zeta in Hm.
  destruct Hm as [(_ & -> & _)|(Hle & tmp & m & Hscan & Hm)]; [done|].
  destruct Hm as [(_ & -> & _)|(Hnn & Hm)]; [done|].
  destruct Hinv as (Hsz & Hav & Hb & Hc & Hnd).
  assert (Htop : start_of_heap (_h (ready s)) + 4096
                 - available_size (_h (ready s))
                 ≤ start_of_heap (_h (ready s)) + 4096) by lia.
  destruct (scan_passes _ _ _ _ _ _ Hscan Hnn)
    as (pre & Hpath & Hpre & Hf & Hco & Hfit & _).
  pose proof Hscan as Hscan'.
  eapply (scan_chain _ _ Hb Htop) in Hscan' as (bl' & Hc' & _); [|exact Hc|].
  2: { right. destruct Hc as (Hhd & _). destruct bl; [done|].
       injection Hhd as ->. set_solver. }
  destruct Hc' as (Hhd & Hs & Hok & Hlk & _).
  destruct bl' as [|a l]; [done|]. injection Hhd as ->.
  destruct (path_in_chain _ _ m Hb Htop pre _ l tmp Hok Hlk Hpath Hnn Hf)
    as [l2 Heq].
  exists tmp, m, pre. split; [done|]. split.
  { unfold hand_over in Hm. by injection Hm as -> _. }
  split; [done|]. split; [|done].
  rewrite Heq in Hs. rewrite cons_middle, app_assoc in Hs.
  by apply StronglySorted_app_1_l in Hs.
Qed.

End FirstFit.

(** * Splitting *)

Section Split.

Implicit Types (m : gmap Z Z) (s : state).

Lemma NEXT_ADDRESS_SET_INUSE m a :
  NEXT_ADDRESS (SET_INUSE m a) a = NEXT_ADDRESS m a.
Proof.
  unfold NEXT_ADDRESS, SET_INUSE, hdr_next. rewrite load_store_eq.
  rewrite Z.land_lor_distr_l.
  replace (Z.land IN_USE_BIT (of_int (Z.lnot IN_USE_BIT))) with 0
    by reflexivity.
  apply Z.lor_0_r.
Qed.

(** The split in terms of the number [BLOCK_SIZE] computes: the chosen
    block [tmp] is split exactly when [BLOCK_SIZE] is at least the padded
    footprint plus one header plus one alignment unit.  When it is split,
    the header at [tmp + footprint] receives the old next reference of
    [tmp] with the in-use bit clear, and the header of [tmp] receives
    that address with the in-use bit set; no other header is written.
    Otherwise only the in-use bit of [tmp] is set: its next reference is
    unchanged. *)
Lemma mymalloc_splits_iff_room s live fuel n p s' :
  reachable (s, live) → 0 ≤ n < WORD →
  mymalloc fuel n s = Some (p, s') → p ≠ NULL →
  ∃ tmp m,
    scan fuel (mem (ready s)) (start_of_heap (_h (ready s))) (aux_size_of n)
      = Some (tmp, m) ∧
    p = start tmp ∧
    (needs_split m tmp (aux_size_of n) = true ↔
     aux_size_of n + SZ_BLOCK_METADATA + MY_ALIGNMENT_SZ ≤ BLOCK_SIZE m tmp) ∧
    (needs_split m tmp (aux_size_of n) = true →
     mem s' = store (store m (wrap (tmp + aux_size_of n)) (NEXT_ADDRESS m tmp))
                tmp (Z.lor (wrap (tmp + aux_size_of n)) IN_USE_BIT)) ∧
    (needs_split m tmp (aux_size_of n) = false →
     mem s' = SET_INUSE m tmp ∧
     NEXT_ADDRESS (mem s') tmp = NEXT_ADDRESS m tmp ∧
     BLOCK_SIZE (mem s') tmp = BLOCK_SIZE m tmp).
Proof.
  intros [bl Hinv]%reachable_invariant%ready_inv Hn Hm Hp.
  apply mymalloc_cases in Hm. cbv zeta in Hm.
  destruct Hm as [(_ & -> & _)|(Hle & tmp & m & Hscan & Hm)]; [done|].
  destruct Hm as [(_ & -> & _)|(Hnn & Hm)]; [done|].
  destruct Hinv as (_ & Hav & _).
  pose proof (aux_size_of_range n) as Hr.
  exists tmp, m. split; [done|].
  assert (Hmem : mem s' = mem (hand_over (ready s) m tmp (aux_size_of n)).2)
    by (by rewrite <- Hm).
  rewrite hand_over_mem in Hmem.
  split; [unfold hand_over in Hm; by injection Hm as -> _|].
  split; [|split].
  - unfold needs_split. rewrite split_threshold by lia.
    unfold SZ_BLOCK_METADATA, MY_ALIGNMENT_SZ. rewrite Z.geb_le. lia.
  - intros Hsplit. by rewrite Hsplit in Hmem.
  - intros Hwhole. rewrite Hwhole in Hmem.
    assert (Hset : mem s' = SET_INUSE m tmp) by done.
    split; [done|]. rewrite Hset.
    split; [apply NEXT_ADDRESS_SET_INUSE|].
    unfold BLOCK_SIZE. by rewrite NEXT_ADDRESS_SET_INUSE.
Qed.

End Split.

(** * Where the blocks handed out lie *)

Section Placement.

Implicit Types (s : state) (live : list allocd).

(** The block behind a pointer [mymalloc] returns, and the heap record
    the call leaves. *)
Lemma mymalloc_block fuel n s p s' live :
  invariant (s, live) → 0 ≤ n < WORD →
  mymalloc fuel n s = Some (p, s') → p ≠ NULL →
  let h := _h (ready s) in
  ∃ tmp,
    p = tmp + 8 ∧
    addr_ok (start_of_heap h) (start_of_heap h + 4096 - available_size h) tmp ∧
    initial_brk (start_of_heap h) ∧
    size h = 4096 ∧
    0 ≤ aux_size_of n ≤ available_size h ∧ available_size h ≤ 4096 ∧
    _h s' = mkHeap (size h) (available_size h - aux_size_of n) (start_of_heap h) ∧
    brk s' = brk (ready s).
Proof.
  intros [bl Hinv]%ready_inv Hn Hm Hp. cbv zeta.
  apply mymalloc_cases in Hm. cbv zeta in Hm.
  destruct Hm as [(_ & -> & _)|(Hle & tmp & m & Hscan & Hm)]; [done|].
  destruct Hm as [(_ & -> & _)|(Hnn & Hm)]; [done|].
  destruct Hinv as (Hsz & Hav & Hb & Hc & Hnd).
  assert (Htop : start_of_heap (_h (ready s)) + 4096
                 - available_size (_h (ready s))
                 ≤ start_of_heap (_h (ready s)) + 4096) by lia.
  eapply (scan_chain _ _ Hb Htop) in Hscan as (bl' & Hc' & Ht); [|exact Hc|].
  2: { right. destruct Hc as (Hhd & _). destruct bl; [done|].
       injection Hhd as ->. set_solver. }
  destruct Ht as [|(l1 & l2 & -> & Hfree & Hfit)]; [done|].
  destruct Hc' as (_ & _ & Hok & _).
  apply Forall_app in Hok as [_ [Hokt _]%Forall_cons].
  pose proof (aux_size_of_range n) as Hr.
  exists tmp. unfold hand_over in Hm. injection Hm as -> ->. cbn [_h brk].
  split.
  { unfold start, SZ_BLOCK_METADATA. apply wrap_small.
    destruct Hb as (? & ? & ?), Hokt as [[? ?] _]. rewrite WORD_eq in *. lia. }
  split; [done|]. split; [done|]. split; [done|]. split; [lia|].
  split; [lia|]. split; [|done].
  f_equal. apply wrap_small. rewrite WORD_eq. lia.
Qed.

Lemma invariant_live_ready s live x :
  invariant (s, live) → x ∈ live → ready s = s.
Proof.
  intros [(b & _ & [= -> ->])|[bl (Hsz & _)]] Hx;
    [by apply elem_of_nil in Hx|].
  apply ready_initialised. cbn in Hsz. lia.
Qed.

Lemma reachable_in_arena c :
  reachable c → Forall (in_arena (_h c.1)) c.2.
Proof.
  induction 1 as [b Hb|c c' Hreach IH Hstep]; [constructor|].
  apply reachable_invariant in Hreach.
  destruct Hstep as [fuel n s p s' live Hn Hm|fuel s s' live Hf
                    |fuel a s s' live Ha Hf|fuel s s' live Hs Hr];
    cbn [fst snd] in *.
  - assert (Hold : ∀ h', size h' = size (_h (ready s)) →
                         start_of_heap h' = start_of_heap (_h (ready s)) →
                         available_size h' ≤ available_size (_h (ready s)) →
                         Forall (in_arena h') live).
    { intros h' Hsz Hst Hav. apply Forall_forall. intros x Hx.
      rewrite (invariant_live_ready s live x Hreach Hx) in *.
      rewrite Forall_forall in IH. destruct (IH x Hx) as [H1 H2].
      unfold in_arena. rewrite Hsz, Hst. lia. }
    destruct (Z.eqb_spec p NULL) as [->|Hp].
    + apply mymalloc_cases in Hm. cbv zeta in Hm.
      destruct Hm as [(_ & _ & ->)|(Hle & tmp & m & _ & [(_ & _ & ->)|(_ & Hm)])].
      * by apply Hold.
      * by apply Hold.
      * unfold hand_over in Hm. injection Hm as _ ->. cbn [_h].
        apply Hold; cbn [size start_of_heap available_size]; try done.
        pose proof (aux_size_of_range n).
        destruct (ready_inv s live Hreach) as (bl & _ & Hav & _).
        rewrite wrap_small; [lia|]. rewrite WORD_eq. lia.
    + destruct (mymalloc_block fuel n s p s' live Hreach Hn Hm Hp)
        as (tmp & -> & [[Hlo Hhi] _] & _ & Hsz & Haux & Hav & Hh & _).
      apply Forall_cons. split.
      * unfold in_arena. rewrite Hh. cbn. unfold SZ_BLOCK_METADATA. lia.
      * apply Hold; rewrite Hh; cbn; lia.
  - unfold myfree in Hf. cbn in Hf. by injection Hf as <-.
  - rewrite (myfree_heap _ _ _ _ Hf). rewrite Forall_forall in IH |- *.
    intros x [Hx _]%drop_ptr_spec. by apply IH.
  - constructor.
Qed.

End Placement.

(** * A sample run, step by step *)

Section Handed.

Implicit Types (s : state) (live : list allocd).

Lemma sample_brk : initial_brk 65536.
Proof. vm_compute. repeat split; congruence. Qed.

Lemma sample_size : 0 ≤ 10 < WORD.
Proof. vm_compute. split; congruence. Qed.

Lemma sample_malloc1 :
  mymalloc 5 10 (initial_state 65536) = Some (65544, sample_s1).
Proof. vm_compute. reflexivity. Qed.

Lemma sample_malloc2 : mymalloc 5 10 sample_s1 = Some (65568, sample_s2).
Proof. vm_compute. reflexivity. Qed.

Lemma sample_reachable1 : reachable (sample_s1, [sample_x]).
Proof.
  eapply reach_step; [exact (reach_init 65536 sample_brk)|].
  exact (step_malloc 5 10 (initial_state 65536) 65544 sample_s1 []
           sample_size sample_malloc1).
Qed.

Lemma sample_reachable2 : reachable (sample_s2, [sample_y; sample_x]).
Proof.
  eapply reach_step; [exact sample_reachable1|].
  exact (step_malloc 5 10 sample_s1 65568 sample_s2 [sample_x]
           sample_size sample_malloc2).
Qed.

End Handed.

(** * The heap record *)

Section Geometry.

Implicit Types (s : state).

(** X3: of a footprint that does not wrap around, between one and eight
    bytes are padding beyond the header and the request; so the [n]
    bytes from the pointer on lie inside the range of the allocation. *)
Theorem footprint_holds_request (n p : Z) :
  0 ≤ n → n + SZ_BLOCK_METADATA + MY_ALIGNMENT_SZ < WORD →
  n < aux_size_of n - SZ_BLOCK_METADATA ≤ n + MY_ALIGNMENT_SZ ∧
  ∀ z, p ≤ z < p + n → in_range (mkAllocd p (aux_size_of n)) z.
Proof.
  unfold SZ_BLOCK_METADATA, MY_ALIGNMENT_SZ. intros Hn Hfit.
  assert (Hb : n < aux_size_of n - 8 ≤ n + 8).
  { rewrite aux_size_of_eq, wrap_small by lia. Z.div_mod_to_equations. lia. }
  split; [done|]. intros z Hz. unfold in_range. cbn [a_ptr a_footprint].
  unfold SZ_BLOCK_METADATA. lia.
Qed.

Lemma footprint_holds_request_witness :
  10 < aux_size_of 10 - SZ_BLOCK_METADATA ≤ 10 + MY_ALIGNMENT_SZ ∧
  ∀ z, 65544 ≤ z < 65544 + 10 → in_range (mkAllocd 65544 (aux_size_of 10)) z.
Proof.
  apply (footprint_holds_request 10 65544); vm_compute; congruence.
Defined.

(** X4: the arena is obtained once.  On a heap that is initialised no
    call changes the capacity, the base address or the program break; on
    a heap that is not, [mymalloc] sets the capacity to 4096, takes the
    old break as the base and moves the break by 4096. *)
Theorem arena_is_obtained_once :
  (∀ fuel n s p s',
      0 < size (_h s) → mymalloc fuel n s = Some (p, s') →
      size (_h s') = size (_h s) ∧
      start_of_heap (_h s') = start_of_heap (_h s) ∧ brk s' = brk s) ∧
  (∀ fuel p s s',
      myfree fuel p s = Some s' → _h s' = _h s ∧ brk s' = brk s) ∧
  (∀ fuel s s',
      reset_heap fuel s = Some s' → _h s' = _h s ∧ brk s' = brk s) ∧
  (∀ fuel n s p s',
      size (_h s) ≤ 0 → mymalloc fuel n s = Some (p, s') →
      size (_h s') = 4096 ∧ start_of_heap (_h s') = brk s ∧
      brk s' = wrap (brk s + 4096)).
Proof.
  assert (Hready : ∀ fuel n s p s',
    mymalloc fuel n s = Some (p, s') →
    size (_h s') = size (_h (ready s)) ∧
    start_of_heap (_h s') = start_of_heap (_h (ready s)) ∧
    brk s' = brk (ready s)).
  { intros fuel n s p s' Hm. apply mymalloc_cases in Hm. cbv zeta in Hm.
    destruct Hm as [(_ & _ & ->)|(_ & tmp & m & _ & [(_ & _ & ->)|(_ & Hm)])];
      [done..|].
    unfold hand_over in Hm. by injection Hm as _ ->. }
  split; [|split; [|split]].
  - intros fuel n s p s' Hsz Hm.
    pose proof (Hready _ _ _ _ _ Hm) as Hr.
    by rewrite (ready_initialised s Hsz) in Hr.
  - intros fuel p s s'. unfold myfree. destruct (Z.eqb p NULL); [by intros [= <-]|].
    destruct (do_compact _ _ _); [|done]. by intros [= <-].
  - intros fuel s s'. unfold reset_heap. destruct (reset_loop _ _ _); [|done].
    destruct (do_compact _ _ _); [|done]. by intros [= <-].
  - intros fuel n s p s' Hsz Hm. apply Hready in Hm. unfold ready in Hm.
    destruct (Z.leb_spec (size (_h s)) 0); [|lia]. exact Hm.
Qed.

Lemma arena_is_obtained_once_witness :
  size (_h sample_s2) = size (_h sample_s1) ∧
  start_of_heap (_h sample_s2) = start_of_heap (_h sample_s1) ∧
  brk sample_s2 = brk sample_s1.
Proof.
  refine (proj1 arena_is_obtained_once 5%nat 10 sample_s1 65568 sample_s2
            _ sample_malloc2).
  vm_compute. reflexivity.
Defined.

End Geometry.

(** * Tidy chains *)

Section Tidy.

Context (b0 top : Z).
Hypothesis Hb0 : initial_brk b0.
Hypothesis Htop : top ≤ b0 + 4096.

Implicit Types (m : gmap Z Z) (a t : Z) (l bl : list Z).

Lemma NEXT_ADDRESS_load m m' a :
  load m' a = load m a → NEXT_ADDRESS m' a = NEXT_ADDRESS m a.
Proof using Type. unfold NEXT_ADDRESS, hdr_next. by intros ->. Qed.

Lemma tidy_frame m m' bl :
  (∀ c, c ∈ bl → load m' c = load m c) → tidy m bl → tidy m' bl.
Proof using Type.
  intros Hfr [Hns Hlast]. split.
  - rewrite Forall_forall in Hns |- *. intros c Hc.
    rewrite (NEXT_ADDRESS_load m m') by auto. auto.
  - intros t Ht. rewrite Hfr by (by apply last_Some_elem_of). auto.
Qed.

(** A free block of a well-formed list points to the next block of the
    list. *)
Lemma free_block_next m live l1 a l2 :
  chain_ok b0 top m (l1 ++ a :: l2) live → load m a = hd NULL l2 →
  NEXT_ADDRESS m a = hd NULL l2 ∧ hd NULL l2 ≠ a ∧ IS_INUSE m a = 0.
Proof.
  intros (_ & Hs & Hok & _) Hfree.
  pose proof Hok as [_ [Hoka Hok2]%Forall_cons]%Forall_app.
  assert (Hw : word_addr (hd NULL l2))
    by (apply (hd_word b0 top Hb0 Htop); [apply word_addr_NULL|done]).
  destruct (addr_ok_word b0 top Hb0 Htop a Hoka) as [_ Hn].
  unfold NEXT_ADDRESS, IS_INUSE, hdr_next. rewrite Hfree.
  split; [apply (decode_free _ Hw)|]. split; [|apply (decode_free _ Hw)].
  destruct l2 as [|c l2]; [done|]. cbn [hd].
  apply (chain_ok_sorted_ne _ l1 a (c :: l2) c Hs eq_refl).
  apply elem_of_app. right. apply elem_of_cons. by left.
Qed.

Lemma do_compact_tidy m bl live fuel a m' :
  chain_ok b0 top m bl live → tidy m bl → a ∈ bl → IS_INUSE m a = 0 →
  do_compact fuel m a = Some m' →
  ∃ l1 frees l2,
    bl = l1 ++ a :: frees ++ l2 ∧
    chain_ok b0 top m' (l1 ++ a :: l2) live ∧
    tidy m' (l1 ++ a :: l2) ∧
    load m' a = hd NULL l2 ∧
    (l2 = [] ∨ IS_INUSE m' (hd NULL l2) ≠ 0).
Proof.
  intros Hc [Hns Hlast] Ha Hf Hdc.
  destruct (do_compact_chain b0 top Hb0 Htop m bl live fuel a m' Hc Ha Hf Hdc)
    as (l1 & frees & l2 & -> & Hc1 & -> & Hstop).
  exists l1, frees, l2. split; [done|]. split; [done|].
  assert (Hla : load (store m a (hd NULL l2)) a = hd NULL l2)
    by apply load_store_eq.
  destruct (free_block_next _ live l1 a l2 Hc1 Hla) as (Hnext & Hne & _).
  pose proof Hc as (_ & Hs & _).
  assert (Hfr : ∀ c, c ∈ l1 ++ frees ++ l2 →
                     load (store m a (hd NULL l2)) c = load m c).
  { intros c Hin. apply load_store_ne. intros <-.
    by apply (chain_ok_sorted_ne _ l1 a (frees ++ l2) a Hs eq_refl). }
  split; [|split; [done|]].
  - split.
    + rewrite !Forall_app, !Forall_cons, !Forall_app in Hns.
      rewrite Forall_app, Forall_cons.
      destruct Hns as (H1 & _ & _ & H2).
      split; [|split; [by rewrite Hnext|]].
      * rewrite Forall_forall in H1 |- *. intros c Hin.
        rewrite (NEXT_ADDRESS_load m); [by apply H1|].
        apply Hfr. apply elem_of_app. by left.
      * rewrite Forall_forall in H2 |- *. intros c Hin.
        rewrite (NEXT_ADDRESS_load m); [by apply H2|].
        apply Hfr. rewrite !elem_of_app. auto.
    + intros t. rewrite last_app_cons. destruct l2 as [|c l2].
      * intros [= <-]. exact Hla.
      * rewrite last_cons_cons. intros Ht.
        rewrite Hfr.
        -- apply Hlast. rewrite last_app_cons.
           change (a :: frees ++ c :: l2) with ((a :: frees) ++ c :: l2).
           by rewrite last_app_cons.
        -- rewrite !elem_of_app. right. right. by apply last_Some_elem_of.
  - destruct l2 as [|c l2]; [by left|right].
    destruct Hstop as [|Hu]; [done|]. cbn [hd] in *.
    unfold IS_INUSE, hdr_next in *. rewrite Hfr; [done|].
    rewrite !elem_of_app, elem_of_cons. auto.
Qed.

End Tidy.

Section TidyScan.

Context (b0 top : Z).
Hypothesis Hb0 : initial_brk b0.
Hypothesis Htop : top ≤ b0 + 4096.

Implicit Types (m : gmap Z Z) (a t : Z) (l bl : list Z).

Lemma sorted_split_unique l1 a l2 k1 k2 :
  StronglySorted Z.lt (l1 ++ a :: l2) →
  l1 ++ a :: l2 = k1 ++ a :: k2 → l1 = k1 ∧ l2 = k2.
Proof using Type.
  intros Hs Heq.
  assert (H1 : a ∉ l1).
  { intros Hin. apply (chain_ok_sorted_ne _ l1 a l2 a Hs eq_refl); [|done].
    apply elem_of_app. by left. }
  assert (H2 : a ∉ k1).
  { rewrite Heq in Hs. intros Hin.
    apply (chain_ok_sorted_ne _ k1 a k2 a Hs eq_refl); [|done].
    apply elem_of_app. by left. }
  destruct (not_elem_of_app_cons_inv_l a a l1 l2 k1 k2 H2 H1 Heq) as (? & _ & ?).
  done.
Qed.

(** With one unit of fuel per block left, the loop of [do_compact]
    returns on a chain without a block that points to itself. *)
Lemma walk_progress m : ∀ l a fuel,
  Forall (addr_ok b0 top) (a :: l) → linked m (a :: l) →
  Forall (λ c, NEXT_ADDRESS m c ≠ c) (a :: l) →
  (length (a :: l) ≤ fuel)%nat →
  ∃ r, compact_walk fuel m a = Some r.
Proof.
  induction l as [|a' l IH]; intros a fuel Hok Hlk Hns Hlen;
    (destruct (Z.eq_dec (IS_INUSE m a) 0) as [Hf|Hu];
     [|exists a; by apply compact_walk_stop; right]);
    pose proof Hok as [[_ Hn]%(addr_ok_word b0 top Hb0 Htop) Hokl]%Forall_cons;
    (destruct fuel as [|fuel]; [cbn in Hlen; lia|]);
    rewrite compact_walk_free by done;
    destruct (linked_cases b0 top Hb0 Htop m NULL a _ word_addr_NULL Hok Hlk)
      as [(_ & _ & Hnext)|[(_ & Hu & _)|(_ & Hu & _)]]; try congruence;
    rewrite Hnext; cbn [hd].
  - exists NULL. by apply compact_walk_stop; left.
  - apply IH; [done|by destruct Hlk|by apply Forall_cons in Hns as [_ ?]|].
    cbn in *. lia.
Qed.

Lemma scan_tidy aux live fuel : ∀ m bl a t m',
  chain_ok b0 top m bl live → tidy m bl → a = NULL ∨ a ∈ bl →
  scan fuel m a aux = Some (t, m') →
  ∃ bl', chain_ok b0 top m' bl' live ∧ tidy m' bl' ∧
         (t = NULL ∨
          ∃ l1 l2, bl' = l1 ++ t :: l2 ∧ load m' t = hd NULL l2 ∧
                   aux ≤ BLOCK_SIZE m' t).
Proof.
  induction fuel as [|fuel IH]; intros m bl a t m' Hc Hty Ha;
    rewrite scan_unfold; destruct (Z.eqb_spec a NULL) as [->|Hn].
  1,3: intros [= <- <-]; exists bl; by auto.
  { done. }
  destruct Ha as [|Ha]; [done|].
  pose proof Hc as (Hhd & Hs & Hok & Hlk & Hlive).
  pose proof Ha as (l1 & l & Hbl)%list_elem_of_split.
  assert (Hokl : Forall (addr_ok b0 top) (a :: l)).
  { rewrite Hbl in Hok. by apply Forall_app in Hok as [_ ?]. }
  assert (Hlkl : linked_to m NULL (a :: l)).
  { rewrite Hbl in Hlk. by apply linked_to_app in Hlk as [_ ?]. }
  assert (Hcs := linked_cases b0 top Hb0 Htop m NULL a l word_addr_NULL Hokl Hlkl).
  assert (Hnext_in : hd NULL l = NULL ∨ hd NULL l ∈ bl).
  { destruct l as [|a' l']; [by left|right]. rewrite Hbl.
    apply elem_of_app. right. apply elem_of_cons. right.
    apply elem_of_cons. by left. }
  destruct Hcs as [(_ & Hf & _)|[(_ & Hu & Hnext)|(_ & Hu & Hnext)]].
  - rewrite Hf. cbn [Z.eqb].
    destruct (do_compact fuel m a) as [m1|] eqn:Hdc; [|done].
    destruct (do_compact_tidy b0 top Hb0 Htop m bl live fuel a m1 Hc Hty Ha Hf Hdc)
      as (k1 & frees & k2 & -> & Hc1 & Hty1 & Hload & Hstop).
    destruct (Z.geb _ aux) eqn:Hfit.
    + intros [= <- <-]. eexists. split; [exact Hc1|]. split; [exact Hty1|].
      right. exists k1, k2. split; [done|]. split; [done|].
      apply Z.geb_le in Hfit. lia.
    + intros Hscan. eapply IH; [exact Hc1|exact Hty1| |exact Hscan].
      destruct (free_block_next b0 top Hb0 Htop m1 live k1 a k2 Hc1 Hload)
        as (-> & _ & _).
      destruct k2 as [|c k2]; [by left|right].
      apply elem_of_app. right. apply elem_of_cons. right.
      apply elem_of_cons. by left.
  - rewrite Hu. cbn [Z.eqb]. rewrite Hnext. intros Hscan.
    eapply IH; [exact Hc|exact Hty|exact Hnext_in|exact Hscan].
  - rewrite Hu. cbn [Z.eqb]. rewrite Hnext.
    rewrite scan_self_loop; [done..|lia|done].
Qed.

(** On a tidy chain the search loop, given more fuel than there are
    blocks left, stops on a block: the last block is free and its size,
    taken from NULL, is larger than every footprint the counter lets
    through. *)
Lemma scan_progress aux live fuel : ∀ m l1 a l,
  chain_ok b0 top m (l1 ++ a :: l) live → tidy m (l1 ++ a :: l) →
  0 ≤ aux ≤ 4096 → (length (a :: l) < fuel)%nat →
  ∃ t m', scan fuel m a aux = Some (t, m') ∧ t ≠ NULL.
Proof.
  induction fuel as [|fuel IH]; intros m l1 a l Hc Hty Haux Hlen; [lia|].
  pose proof Hc as (Hhd & Hs & Hok & Hlk & Hlive).
  pose proof Hok as [_ Hokl]%Forall_app.
  pose proof Hlk as [_ Hlkl]%linked_to_app.
  pose proof Hokl as [Hoka _]%Forall_cons.
  destruct (addr_ok_word b0 top Hb0 Htop a Hoka) as [_ Hn].
  pose proof Hty as [Hns Hlast].
  pose proof Hns as [_ Hnsl]%Forall_app.
  rewrite scan_unfold. destruct (Z.eqb_spec a NULL) as [|_]; [done|].
  destruct (linked_cases b0 top Hb0 Htop m NULL a l word_addr_NULL Hokl Hlkl)
    as [(_ & Hf & _)|[(Hla & Hu & Hnext)|(_ & _ & Hnext)]].
  - rewrite Hf. cbn [Z.eqb].
    destruct (walk_progress m l a fuel Hokl Hlkl Hnsl)
      as [r Hr]; [cbn in *; lia|].
    assert (Hdc : do_compact fuel m a = Some (store m a r))
      by (unfold do_compact; by rewrite Hr).
    rewrite Hdc.
    assert (Ha : a ∈ l1 ++ a :: l).
    { apply elem_of_app. right. apply elem_of_cons. by left. }
    destruct (do_compact_tidy b0 top Hb0 Htop m _ live fuel a _ Hc Hty Ha Hf Hdc)
      as (k1 & frees & k2 & Heq & Hc1 & Hty1 & Hload & _).
    apply (sorted_split_unique _ _ _ _ _ Hs) in Heq as [<- ->].
    destruct (Z.geb_spec (BLOCK_SIZE (store m a r) a) aux) as [Hfit|Hsmall].
    { by eexists _, _. }
    destruct (chain_block_size b0 Hb0 top _ l1 a k2 live Htop Hc1 Hload)
      as (_ & _ & Hbs & _).
    destruct (free_block_next b0 top Hb0 Htop _ live l1 a k2 Hc1 Hload)
      as (-> & _ & _).
    destruct k2 as [|c k2].
    { exfalso. destruct Hb0 as (? & ? & ?), Hoka as [[? ?] _].
      rewrite WORD_eq in *. lia. }
    cbn [hd]. rewrite cons_middle, app_assoc in Hc1, Hty1.
    apply (IH _ (l1 ++ [a]) c k2 Hc1 Hty1 Haux).
    rewrite length_cons, length_app in Hlen. cbn [length] in *. lia.
  - rewrite Hu. cbn [Z.eqb]. rewrite Hnext. destruct l as [|a' l'].
    { exfalso. specialize (Hlast a). rewrite last_snoc in Hlast.
      rewrite Hlast in Hla by done. cbn in Hla. unfold NULL in Hla. lia. }
    cbn [hd]. rewrite cons_middle, app_assoc in Hc, Hty.
    apply (IH _ (l1 ++ [a]) a' l' Hc Hty Haux). cbn [length] in *. lia.
  - exfalso. apply Forall_cons in Hnsl as [Hself _]. done.
Qed.

Lemma mark_inuse_tidy m m' live l1 t l2 :
  chain_ok b0 top m (l1 ++ t :: l2) live → tidy m (l1 ++ t :: l2) →
  l2 ≠ [] → load m' t = hd NULL l2 + 1 →
  (∀ c, c ≠ t → load m' c = load m c) →
  tidy m' (l1 ++ t :: l2).
Proof.
  intros (_ & Hs & Hok & _) [Hns Hlast] Hl2 Ht Hfr.
  assert (Hne : ∀ c, c ∈ l1 ++ l2 → c ≠ t)
    by (intros c; by eapply chain_ok_sorted_ne).
  pose proof Hok as [_ [Hokt Hok2]%Forall_cons]%Forall_app.
  assert (Hw : word_addr (hd NULL l2))
    by (apply (hd_word b0 top Hb0 Htop); [apply word_addr_NULL|done]).
  split.
  - rewrite Forall_app, Forall_cons in Hns |- *.
    destruct Hns as (H1 & _ & H2). split; [|split].
    + rewrite Forall_forall in H1 |- *. intros c Hin.
      rewrite (NEXT_ADDRESS_load m); [by apply H1|].
      apply Hfr, Hne, elem_of_app. by left.
    + unfold NEXT_ADDRESS, hdr_next. rewrite Ht.
      rewrite (proj1 (proj2 (decode_inuse _ Hw))).
      destruct l2 as [|c l2]; [done|]. cbn [hd].
      apply Hne, elem_of_app. right. apply elem_of_cons. by left.
    + rewrite Forall_forall in H2 |- *. intros c Hin.
      rewrite (NEXT_ADDRESS_load m); [by apply H2|].
      apply Hfr, Hne, elem_of_app. by right.
  - intros x Hx. rewrite Hfr; [by apply Hlast|].
    rewrite last_app_cons in Hx. destruct l2 as [|c l2]; [done|].
    rewrite last_cons_cons in Hx. apply Hne, elem_of_app. right.
    by apply last_Some_elem_of.
Qed.

Lemma split_tidy m m' live l1 t l2 t2 :
  chain_ok b0 top m (l1 ++ t :: l2) live → tidy m (l1 ++ t :: l2) →
  t < t2 → addr_ok b0 top t2 → (∀ c, c ∈ l2 → t2 < c) →
  load m' t = t2 + 1 → load m' t2 = hd NULL l2 →
  (∀ c, c ≠ t → c ≠ t2 → load m' c = load m c) →
  tidy m' (l1 ++ t :: t2 :: l2).
Proof.
  intros (_ & Hs & Hok & _) [Hns Hlast] Hlt Hok2 Hl2 Ht Ht2 Hfr.
  pose proof Hs as (H12 & _ & [Htl2 _]%StronglySorted_cons)%StronglySorted_app.
  assert (H1t : ∀ c, c ∈ l1 → c < t).
  { intros c Hc. apply H12; [done|]. apply elem_of_cons. by left. }
  pose proof Hok as [_ [Hokt Hokl2]%Forall_cons]%Forall_app.
  assert (Hw : word_addr (hd NULL l2))
    by (apply (hd_word b0 top Hb0 Htop); [apply word_addr_NULL|done]).
  destruct (addr_ok_word b0 top Hb0 Htop t2 Hok2) as [Hw2 Hn2].
  split.
  - rewrite Forall_app, Forall_cons in Hns.
    rewrite Forall_app, !Forall_cons.
    destruct Hns as (H1 & _ & H2). split; [|split; [|split]].
    + rewrite Forall_forall in H1 |- *. intros c Hin.
      rewrite (NEXT_ADDRESS_load m); [by apply H1|].
      specialize (H1t c Hin). apply Hfr; lia.
    + unfold NEXT_ADDRESS, hdr_next. rewrite Ht.
      rewrite (proj1 (proj2 (decode_inuse _ Hw2))). lia.
    + unfold NEXT_ADDRESS, hdr_next. rewrite Ht2.
      rewrite (proj1 (proj2 (decode_free _ Hw))).
      destruct l2 as [|c l2]; [done|]. cbn [hd].
      assert (t2 < c); [|lia]. apply Hl2, elem_of_cons. by left.
    + rewrite Forall_forall in H2 |- *. intros c Hin.
      rewrite (NEXT_ADDRESS_load m); [by apply H2|].
      specialize (Hl2 c Hin). apply Hfr; lia.
  - intros x. rewrite last_app_cons, last_cons_cons.
    destruct l2 as [|c l2].
    + intros [= <-]. exact Ht2.
    + rewrite last_cons_cons. intros Hx.
      pose proof (last_Some_elem_of _ _ Hx) as Hin.
      specialize (Hl2 x Hin). rewrite Hfr by lia.
      apply Hlast. by rewrite last_app_cons, last_cons_cons.
Qed.

End TidyScan.

Section TidyAlloc.

Context (b0 : Z).
Hypothesis Hb0 : initial_brk b0.

Implicit Types (m : gmap Z Z) (a t : Z) (l bl : list Z).

(** Handing over a block of a tidy chain for a footprint that is not 0
    leaves the chain tidy. *)
Lemma hand_over_tidy avail m live l1 t l2 aux s :
  0 < aux ≤ avail → avail ≤ 4096 → aux mod 8 = 0 →
  chain_ok b0 (b0 + 4096 - avail) m (l1 ++ t :: l2) live →
  tidy m (l1 ++ t :: l2) →
  load m t = hd NULL l2 → aux ≤ BLOCK_SIZE m t →
  ∃ bl', chain_ok b0 (b0 + 4096 - (avail - aux))
           (mem (hand_over s m t aux).2) bl' (mkAllocd (t + 8) aux :: live) ∧
         tidy (mem (hand_over s m t aux).2) bl'.
Proof.
  intros Haux Hav Hal Hc Hty Hfree Hfit.
  set (top := b0 + 4096 - avail) in *.
  set (top' := b0 + 4096 - (avail - aux)).
  assert (Htop : top ≤ b0 + 4096) by (unfold top; lia).
  assert (Htop' : top' ≤ b0 + 4096) by (unfold top'; lia).
  destruct (chain_block_size b0 Hb0 top m l1 t l2 live Htop Hc Hfree)
    as (Hst & Hf & Hbs & Hl2).
  pose proof Hc as (_ & _ & Hok & _ & Hlive).
  pose proof Hok as [_ [Hokt Hok2]%Forall_cons]%Forall_app.
  assert (Hw : word_addr (hd NULL l2)).
  { apply (hd_word b0 top Hb0 Htop); [apply word_addr_NULL|exact Hok2]. }
  assert (Hc' : chain_ok b0 top' m (l1 ++ t :: l2) live).
  { eapply chain_ok_mono; [|exact Hc]. unfold top, top'. lia. }
  rewrite hand_over_mem. unfold needs_split, hdr_next.
  rewrite split_threshold, Hfree by lia.
  rewrite (proj1 (proj2 (decode_free _ Hw))).
  destruct (Z.geb_spec (BLOCK_SIZE m t) (aux + 16)) as [Hsplit|Hwhole].
  - assert (Ht2 : wrap (t + aux) = t + aux).
    { apply wrap_small. destruct Hb0 as (? & ? & ?), Hokt as [[? ?] _].
      unfold top in *. rewrite WORD_eq in *. lia. }
    rewrite Ht2.
    assert (Hok2' : addr_ok b0 top' (t + aux)).
    { destruct Hokt as [[? ?] Hm]. unfold addr_ok, MY_ALIGNMENT_SZ in *.
      unfold top, top' in *. split; [lia|]. Z.div_mod_to_equations. lia. }
    destruct (addr_ok_word b0 top' Hb0 Htop' _ Hok2') as [Hwt2 _].
    rewrite (proj2 (proj2 (decode_free _ Hwt2))).
    assert (Hbelow : ∀ c, c ∈ l2 → t + aux < c).
    { intros c Hc0. specialize (Hl2 c Hc0).
      destruct l2 as [|a' l2]; [by apply elem_of_nil in Hc0|].
      cbn [hd] in Hl2. lia. }
    exists (l1 ++ t :: (t + aux) :: l2). split.
    + eapply (split_chain b0 top' Hb0 Htop' m _ live l1 t l2 (t + aux) aux);
        [exact Hc'|exact Hfree|lia|lia|exact Hok2'|exact Hbelow| | |].
      * apply load_store_eq.
      * rewrite load_store_ne by lia. apply load_store_eq.
      * intros c Hn1 Hn2. by rewrite !load_store_ne.
    + eapply (split_tidy b0 top' Hb0 Htop' m _ live l1 t l2 (t + aux));
        [exact Hc'|exact Hty|lia|exact Hok2'|exact Hbelow| | |].
      * apply load_store_eq.
      * rewrite load_store_ne by lia. apply load_store_eq.
      * intros c Hn1 Hn2. by rewrite !load_store_ne.
  - exists (l1 ++ t :: l2).
    rewrite (proj2 (proj2 (decode_free _ Hw))).
    assert (Hne : l2 ≠ []).
    { intros ->. destruct Hb0 as (? & ? & ?), Hokt as [[? ?] _].
      unfold top in *. rewrite WORD_eq in *. lia. }
    split.
    + eapply (mark_inuse_chain b0 top' Hb0 Htop' m _ live l1 t l2 _ aux);
        [exact Hc'|exact Hfree|by left| | |].
      * intros c Hc0. specialize (Hl2 c Hc0).
        destruct l2 as [|a' l2]; [by apply elem_of_nil in Hc0|].
        cbn [hd] in Hl2. lia.
      * apply load_store_eq.
      * intros c Hn. by rewrite load_store_ne.
    + eapply (mark_inuse_tidy b0 top' Hb0 Htop' m _ live l1 t l2);
        [exact Hc'|exact Hty|exact Hne| |].
      * apply load_store_eq.
      * intros c Hn. by rewrite load_store_ne.
Qed.

End TidyAlloc.

(** * Tidy states: every call returns *)

Section TidyStates.

Implicit Types (s : state) (live : list allocd) (bl : list Z).

Lemma sorted_aligned_length hi : ∀ (l : list Z) lo,
  StronglySorted Z.lt l →
  Forall (λ a, lo ≤ a ≤ hi ∧ a mod 8 = 0) l → l ≠ [] →
  8 * Z.of_nat (length l) ≤ hi - lo + 8.
Proof.
  induction l as [|a l IH]; intros lo Hs Hok Hne; [done|].
  apply StronglySorted_cons in Hs as [Hlt Hs].
  apply Forall_cons in Hok as [[[Hlo Hhi] Ha] Hok].
  destruct l as [|c l]; [cbn; lia|].
  assert (Hok' : Forall (λ x, a + 8 ≤ x ≤ hi ∧ x mod 8 = 0) (c :: l)).
  { rewrite Forall_forall in Hlt, Hok |- *. intros x Hx.
    specialize (Hlt x Hx). destruct (Hok x Hx) as [[_ ?] Hx8].
    split; [|done]. split; [|done]. Z.div_mod_to_equations. lia. }
  specialize (IH (a + 8) Hs Hok' ltac:(done)).
  rewrite length_cons, Nat2Z.inj_succ. lia.
Qed.

(** A well-formed list has fewer than [ENOUGH] blocks. *)
Lemma block_count b0 top m bl live :
  top ≤ b0 + 4096 → chain_ok b0 top m bl live → (length bl < ENOUGH)%nat.
Proof.
  intros Htop (Hhd & Hs & Hok & _). destruct bl as [|a l]; [done|].
  pose proof (sorted_aligned_length top (a :: l) b0 Hs Hok ltac:(done)).
  unfold ENOUGH. lia.
Qed.

Lemma tidy_inv_invariant c : tidy_inv c → invariant c.
Proof. intros [?|(bl & ? & _)]; [by left|right; by exists bl]. Qed.

Lemma init_heap_inv b :
  initial_brk b → heap_inv (ready (initial_state b)) [] [b].
Proof.
  intros Hb. unfold ready, init_heap, heap_inv. cbn.
  split; [done|]. split; [lia|]. split; [done|]. split; [|constructor].
  pose proof Hb as (Hpos & Hal & Hfit).
  split; [done|]. split; [repeat constructor|]. split.
  { repeat constructor; [lia|lia|done]. }
  split; [|constructor].
  split; [|done]. left. apply load_store_eq.
Qed.

Lemma ready_tidy s live :
  tidy_inv (s, live) →
  ∃ bl, heap_inv (ready s) live bl ∧ tidy (mem (ready s)) bl.
Proof.
  intros [(b & Hb & [= -> ->])|(bl & Hinv & Hty)].
  - exists [b]. split; [by apply init_heap_inv|].
    change (mem (ready (initial_state b))) with (store ∅ b NULL).
    assert (Hl : load (store ∅ b NULL) b = NULL) by apply load_store_eq.
    split.
    + apply Forall_cons. split; [|constructor].
      unfold NEXT_ADDRESS, hdr_next. rewrite Hl.
      destruct Hb as (? & _). change (Z.land NULL _) with 0. lia.
    + by intros t [= <-].
  - exists bl. cbn [fst snd] in *. pose proof Hinv as (Hsz & _).
    rewrite ready_initialised by lia. done.
Qed.

Lemma mymalloc_tidy fuel n s p s' live :
  0 ≤ n < WORD → aux_size_of n ≠ 0 → tidy_inv (s, live) →
  mymalloc fuel n s = Some (p, s') →
  tidy_inv (s', if Z.eqb p NULL then live
                else mkAllocd p (aux_size_of n) :: live).
Proof.
  intros Hn Hnz (bl & Hinv & Hty)%ready_tidy Hm.
  apply mymalloc_cases in Hm. cbv zeta in Hm.
  revert Hinv Hty Hm. generalize (ready s). clear s. intros s Hinv Hty Hm.
  destruct Hinv as (Hsz & Hav & Hb & Hc & Hnd).
  destruct Hm as [(_ & -> & ->)|(Hle & tmp & m & Hscan & Hm)].
  { right. exists bl. split; [|done].
    exact (conj Hsz (conj Hav (conj Hb (conj Hc Hnd)))). }
  assert (Htop : start_of_heap (_h s) + 4096 - available_size (_h s)
                 ≤ start_of_heap (_h s) + 4096) by lia.
  eapply (scan_tidy _ _ Hb Htop) in Hscan as (bl' & Hc' & Hty' & Ht);
    [|exact Hc|exact Hty|].
  2: { right. destruct Hc as (Hhd & _). destruct bl; [done|].
       injection Hhd as ->. apply elem_of_cons. by left. }
  destruct Hm as [(-> & -> & ->)|(Hnn & Hm)].
  { right. exists bl'. split; [|done].
    exact (conj Hsz (conj Hav (conj Hb (conj Hc' Hnd)))). }
  destruct Ht as [|(l1 & l2 & -> & Hfree & Hfit)]; [done|].
  pose proof (aux_size_of_range n) as Hr.
  pose proof (aux_size_of_aligned n) as Hal.
  destruct (hand_over_chain _ Hb (available_size (_h s)) m live
              l1 tmp l2 (aux_size_of n) s
              ltac:(lia) ltac:(lia) Hal Hc' Hfree Hfit)
    as (Hp & Hfresh & _).
  destruct (hand_over_tidy _ Hb (available_size (_h s)) m live
              l1 tmp l2 (aux_size_of n) s
              ltac:(lia) ltac:(lia) Hal Hc' Hty' Hfree Hfit)
    as (bl2 & Hc2 & Hty2).
  rewrite <- Hm in Hp, Hc2, Hty2. cbn [fst snd] in Hp, Hc2, Hty2. subst p.
  assert (Htn : tmp + 8 ≠ NULL).
  { destruct Hc' as (_ & _ & Hok & _).
    apply Forall_app in Hok as [_ [[[? ?] _] _]%Forall_cons].
    destruct Hb as (? & _). unfold NULL. lia. }
  destruct (Z.eqb_spec (tmp + 8) NULL) as [|_]; [done|].
  right. exists bl2. split; [|done].
  unfold hand_over in Hm. injection Hm as _ ->.
  assert (Hwr : wrap (available_size (_h s) - aux_size_of n)
                = available_size (_h s) - aux_size_of n).
  { apply wrap_small. rewrite WORD_eq. lia. }
  unfold heap_inv. cbn [fst snd _h mem size available_size start_of_heap] in *.
  rewrite Hwr.
  split; [done|]. split; [lia|]. split; [done|]. split; [done|].
  cbn [map a_ptr]. apply NoDup_cons. split; [|done].
  intros (x & Hx & Hin)%list_elem_of_fmap. by apply (Hfresh x).
Qed.

End TidyStates.

Section TidyCalls.

Implicit Types (s : state) (live : list allocd) (bl : list Z).

Lemma mymalloc_progress fuel n s live :
  tidy_inv (s, live) → 0 ≤ n < WORD →
  aux_size_of n ≤ available_size (_h (ready s)) → (ENOUGH ≤ fuel)%nat →
  ∃ p s', mymalloc fuel n s = Some (p, s') ∧ p ≠ NULL.
Proof.
  intros Hti Hn Hle Hfuel.
  destruct (ready_tidy s live Hti) as (bl & Hinv & Hty).
  destruct Hinv as (Hsz & Hav & Hb & Hc & Hnd).
  assert (Htop : start_of_heap (_h (ready s)) + 4096
                 - available_size (_h (ready s))
                 ≤ start_of_heap (_h (ready s)) + 4096) by lia.
  pose proof (block_count _ _ _ _ _ Htop Hc) as Hcount.
  pose proof (aux_size_of_range n) as Hr.
  pose proof Hc as (Hhd & _). destruct bl as [|a l]; [done|].
  injection Hhd as ->.
  destruct (scan_progress _ _ Hb Htop (aux_size_of n) live fuel (mem (ready s))
              [] _ l Hc Hty ltac:(lia) ltac:(cbn in *; lia))
    as (t & m' & Hscan & Ht).
  unfold mymalloc. cbv zeta.
  destruct (Z.gtb_spec (aux_size_of n) (available_size (_h (ready s))));
    [lia|].
  rewrite Hscan. destruct (Z.eqb_spec t NULL) as [|_]; [done|].
  eexists _, _. split; [reflexivity|]. cbn [fst].
  eapply (scan_chain _ _ Hb Htop) in Hscan as (bl' & Hc' & Hdec); [|exact Hc|].
  2: { right. apply elem_of_cons. by left. }
  destruct Hdec as [|(l1 & l2 & -> & _)]; [done|].
  destruct Hc' as (_ & _ & Hok & _).
  apply Forall_app in Hok as [_ [[[Hlo Hhi] _] _]%Forall_cons].
  unfold start, SZ_BLOCK_METADATA. rewrite wrap_small.
  - destruct Hb as (? & _). unfold NULL. lia.
  - destruct Hb as (? & ? & ?). rewrite WORD_eq in *. lia.
Qed.

(** Clearing the in-use bit of a block in use of a tidy chain. *)
Lemma unmark_tidy b0 top (m m' : gmap Z Z) live l1 t l2 :
  chain_ok b0 top m (l1 ++ t :: l2) live → tidy m (l1 ++ t :: l2) →
  load m' t = hd NULL l2 → hd NULL l2 ≠ t →
  word_addr (hd NULL l2) →
  (∀ c, c ≠ t → load m' c = load m c) →
  tidy m' (l1 ++ t :: l2).
Proof.
  intros (_ & Hs & _) [Hns Hlast] Ht Hne Hw Hfr.
  assert (Hne' : ∀ c, c ∈ l1 ++ l2 → c ≠ t)
    by (intros c; by eapply chain_ok_sorted_ne).
  split.
  - rewrite Forall_app, Forall_cons in Hns |- *.
    destruct Hns as (H1 & _ & H2). split; [|split].
    + rewrite Forall_forall in H1 |- *. intros c Hin.
      rewrite (NEXT_ADDRESS_load m); [by apply H1|].
      apply Hfr, Hne', elem_of_app. by left.
    + unfold NEXT_ADDRESS, hdr_next. rewrite Ht.
      by rewrite (proj1 (proj2 (decode_free _ Hw))).
    + rewrite Forall_forall in H2 |- *. intros c Hin.
      rewrite (NEXT_ADDRESS_load m); [by apply H2|].
      apply Hfr, Hne', elem_of_app. by right.
  - intros x. rewrite last_app_cons. destruct l2 as [|c l2].
    + by intros [= <-].
    + rewrite last_cons_cons. intros Hx. rewrite Hfr.
      * apply Hlast. by rewrite last_app_cons, last_cons_cons.
      * apply Hne', elem_of_app. right. by apply last_Some_elem_of.
Qed.

(** [myfree] of a live pointer on a tidy chain: the state after
    [UNSET_INUSE], ready for [do_compact]. *)
Lemma myfree_unset s live bl x :
  heap_inv s live bl → tidy (mem s) bl → x ∈ live →
  let b0 := start_of_heap (_h s) in
  let top := b0 + 4096 - available_size (_h s) in
  let blk := a_ptr x - SZ_BLOCK_METADATA in
  let m0 := UNSET_INUSE (mem s) blk in
  a_ptr x ≠ NULL ∧ wrap (a_ptr x - SZ_BLOCK_METADATA) = blk ∧
  blk ∈ bl ∧ IS_INUSE m0 blk = 0 ∧
  chain_ok b0 top m0 bl (drop_ptr (a_ptr x) live) ∧ tidy m0 bl.
Proof.
  intros (Hsz & Hav & Hb & Hc & Hnd) Hty Hx. cbv zeta.
  set (b0 := start_of_heap (_h s)) in *.
  set (top := b0 + 4096 - available_size (_h s)) in *.
  assert (Htop : top ≤ b0 + 4096) by (unfold top; lia).
  pose proof Hc as (Hhd & Hs & Hok & Hlk & Hlive).
  pose proof (proj1 (Forall_forall _ _) Hlive x Hx) as (Hin & Hodd & _).
  set (blk := a_ptr x - SZ_BLOCK_METADATA) in *.
  pose proof Hin as (l1 & l2 & Hbl)%list_elem_of_split.
  rewrite Hbl in Hok, Hlk.
  pose proof Hok as [_ Hokl]%Forall_app.
  pose proof Hokl as [Hokb Hok2]%Forall_cons.
  pose proof Hlk as [_ Hlkl]%linked_to_app.
  destruct (addr_ok_word b0 top Hb Htop blk Hokb) as [Hwb Hbn].
  assert (Hw : word_addr (hd NULL l2))
    by (apply (hd_word b0 top Hb Htop); [apply word_addr_NULL|done]).
  assert (Hp : a_ptr x = blk + 8) by (unfold blk, SZ_BLOCK_METADATA; lia).
  split.
  { destruct Hwb as (? & _). unfold NULL. lia. }
  split.
  { apply wrap_small. destruct Hwb as (? & ? & _). lia. }
  split; [done|]. split; [apply UNSET_INUSE_free|].
  assert (Hload0 : load (UNSET_INUSE (mem s) blk) blk
                   = NEXT_ADDRESS (mem s) blk) by apply load_store_eq.
  assert (Hnext : NEXT_ADDRESS (mem s) blk = hd NULL l2).
  { destruct (linked_cases b0 top Hb Htop (mem s) NULL blk l2 word_addr_NULL
                Hokl Hlkl)
      as [(_ & Hf & _)|[(_ & _ & Hnext)|(_ & _ & Hnext)]]; [|done|].
    - rewrite IS_INUSE_odd in Hf. lia.
    - exfalso. destruct Hty as [Hns _]. rewrite Hbl in Hns.
      by apply Forall_app in Hns as [_ [? _]%Forall_cons]. }
  rewrite Hnext in Hload0.
  assert (Hfr : ∀ c, c ≠ blk → load (UNSET_INUSE (mem s) blk) c = load (mem s) c).
  { intros c Hne. by apply load_store_ne. }
  assert (Hhdne : hd NULL l2 ≠ blk).
  { destruct l2 as [|c l2]; [done|]. cbn [hd]. rewrite Hbl in Hs.
    apply (chain_ok_sorted_ne _ l1 blk (c :: l2) c Hs eq_refl).
    apply elem_of_app. right. apply elem_of_cons. by left. }
  rewrite Hbl in Hc, Hty |- *. split.
  - eapply unmark_chain; [exact Hc|exact Hload0|exact Hfr|].
    intros y [Hy Hyp]%drop_ptr_spec. split; [done|].
    unfold SZ_BLOCK_METADATA. lia.
  - by eapply unmark_tidy.
Qed.

Lemma myfree_tidy fuel x s s' live :
  tidy_inv (s, live) → x ∈ live →
  myfree fuel (a_ptr x) s = Some s' →
  tidy_inv (s', drop_ptr (a_ptr x) live).
Proof.
  intros [(b & _ & [= -> ->])|(bl & Hinv & Hty)] Hx;
    [by apply elem_of_nil in Hx|].
  cbn [fst snd] in *.
  destruct (myfree_unset s live bl x Hinv Hty Hx)
    as (Hp & Hwrap & Hin & Hf0 & Hc0 & Hty0).
  destruct Hinv as (Hsz & Hav & Hb & Hc & Hnd).
  unfold myfree. destruct (Z.eqb_spec (a_ptr x) NULL) as [|_]; [done|].
  rewrite Hwrap.
  destruct (do_compact fuel _ _) as [m'|] eqn:Hdc; [|done].
  intros [= <-].
  assert (Htop : start_of_heap (_h s) + 4096 - available_size (_h s)
                 ≤ start_of_heap (_h s) + 4096) by lia.
  eapply (do_compact_tidy _ _ Hb Htop) in Hdc
    as (k1 & frees & k2 & _ & Hc1 & Hty1 & _); [|exact Hc0|exact Hty0|done..].
  right. eexists. split; [|exact Hty1].
  split; [done|]. split; [done|]. split; [done|].
  split; [exact Hc1|]. by apply drop_ptr_NoDup.
Qed.

Lemma myfree_progress fuel x s live :
  tidy_inv (s, live) → x ∈ live → (ENOUGH ≤ fuel)%nat →
  ∃ s', myfree fuel (a_ptr x) s = Some s'.
Proof.
  intros [(b & _ & [= -> ->])|(bl & Hinv & Hty)] Hx Hfuel;
    [by apply elem_of_nil in Hx|].
  cbn [fst snd] in *.
  destruct (myfree_unset s live bl x Hinv Hty Hx)
    as (Hp & Hwrap & Hin & Hf0 & Hc0 & Hty0).
  destruct Hinv as (Hsz & Hav & Hb & Hc & Hnd).
  assert (Htop : start_of_heap (_h s) + 4096 - available_size (_h s)
                 ≤ start_of_heap (_h s) + 4096) by lia.
  pose proof (block_count _ _ _ _ _ Htop Hc0) as Hcount.
  unfold myfree. destruct (Z.eqb_spec (a_ptr x) NULL) as [|_]; [done|].
  rewrite Hwrap.
  apply list_elem_of_split in Hin as (l1 & l2 & ->).
  destruct Hc0 as (_ & _ & Hok & Hlk & _). destruct Hty0 as [Hns _].
  apply Forall_app in Hok as [_ Hokl]. apply linked_to_app in Hlk as [_ Hlkl].
  apply Forall_app in Hns as [_ Hnsl].
  destruct (walk_progress _ _ Hb Htop _ l2 _ fuel Hokl Hlkl Hnsl) as [r Hr].
  { rewrite length_app in Hcount. cbn [length] in *. lia. }
  unfold do_compact. rewrite Hr. by eexists.
Qed.

End TidyCalls.

Section TidyReset.

Implicit Types (s : state) (live : list allocd) (bl : list Z).

(** [reset_heap] leaves the heap record as it is and the arena as one
    free block: the header at the base holds NULL. *)
Lemma reset_heap_collapses fuel s s' live :
  invariant (s, live) → start_of_heap (_h s) ≠ NULL →
  reset_heap fuel s = Some s' →
  _h s' = _h s ∧ brk s' = brk s ∧
  load (mem s') (start_of_heap (_h s)) = NULL ∧
  heap_inv s' [] [start_of_heap (_h s)].
Proof.
  intros [(b & _ & [= -> ->])|[bl Hinv]] Hstart; [done|].
  destruct Hinv as (Hsz & Hav & Hb & Hc & Hnd). cbn [fst snd] in *.
  set (b0 := start_of_heap (_h s)) in *.
  set (top := b0 + 4096 - available_size (_h s)) in *.
  assert (Htop : top ≤ b0 + 4096) by (unfold top; lia).
  destruct Hc as (Hhd & Hs & Hok & Hlk & _).
  destruct bl as [|a l]; [done|]. injection Hhd as ->.
  unfold reset_heap. fold b0.
  destruct (reset_loop fuel (mem s) b0) as [m1|] eqn:Hloop; [|done].
  destruct (do_compact fuel m1 b0) as [m2|] eqn:Hdc; [|done].
  intros [= <-]. cbn [_h brk mem].
  destruct (reset_loop_chain b0 top fuel (mem s) b0 l m1 Hb Htop Hs Hok Hlk Hloop)
    as (Hfree & Hlk1 & _).
  apply do_compact_inv in Hdc as (r & Hw & ->).
  pose proof Hfree as [Hf0 Hfl]%Forall_cons.
  destruct (walk_chain b0 top Hb Htop m1 fuel b0 l r Hok Hlk1 Hf0 Hw)
    as (frees & l2 & -> & _ & -> & Hstop).
  assert (Hl2 : l2 = []).
  { destruct Hstop as [|Hu]; [done|]. destruct l2 as [|c l2]; [done|].
    cbn [hd] in Hu. rewrite Forall_forall in Hfl.
    exfalso. apply Hu, Hfl. apply elem_of_app. right.
    apply elem_of_cons. by left. }
  subst l2. cbn [hd].
  assert (Hl : load (store m1 b0 NULL) b0 = NULL) by apply load_store_eq.
  split; [done|]. split; [done|]. split; [done|].
  unfold heap_inv.
  cbn [fst snd _h mem start_of_heap available_size size]. fold b0. fold top.
  split; [done|]. split; [done|]. split; [done|].
  split; [|constructor].
  split; [done|]. split; [repeat constructor|]. split.
  { apply Forall_cons in Hok as [Hokb _].
    apply Forall_cons. split; [exact Hokb|constructor]. }
  split; [|constructor].
  split; [|done]. by left.
Qed.

Lemma reset_heap_tidy fuel s s' live :
  tidy_inv (s, live) → start_of_heap (_h s) ≠ NULL →
  reset_heap fuel s = Some s' →
  tidy_inv (s', []).
Proof.
  intros Hti Hstart Hr.
  destruct (reset_heap_collapses fuel s s' live (tidy_inv_invariant _ Hti)
              Hstart Hr) as (Hh & _ & Hl & Hinv).
  right. exists [start_of_heap (_h s)]. split; [done|]. cbn [fst].
  split.
  - apply Forall_cons. split; [|constructor].
    unfold NEXT_ADDRESS, hdr_next. rewrite Hl.
    change (Z.land NULL _) with 0. unfold NULL in Hstart. lia.
  - by intros t [= <-].
Qed.

(** With one unit of fuel per block the loop of [reset_heap] returns on a
    chain without a block that points to itself. *)
Lemma reset_loop_progress b0 top :
  initial_brk b0 → top ≤ b0 + 4096 →
  ∀ (l : list Z) (m : gmap Z Z) a fuel,
    StronglySorted Z.lt (a :: l) → Forall (addr_ok b0 top) (a :: l) →
    linked m (a :: l) → Forall (λ c, NEXT_ADDRESS m c ≠ c) (a :: l) →
    (length (a :: l) ≤ fuel)%nat →
    ∃ m', reset_loop fuel m a = Some m'.
Proof.
  intros Hb Htop.
  induction l as [|a' l IH]; intros m a fuel Hs Hok Hlk Hns Hlen;
    pose proof Hok as [[_ Hn]%(addr_ok_word b0 top Hb Htop) Hokl]%Forall_cons;
    (destruct fuel as [|fuel]; [cbn in Hlen; lia|]);
    rewrite reset_loop_unfold; (destruct (Z.eqb_spec a NULL); [done|]);
    rewrite UNSET_INUSE_next;
    pose proof Hns as [Hself Hnsl]%Forall_cons;
    destruct (linked_cases b0 top Hb Htop m NULL a _ word_addr_NULL Hok Hlk)
      as [(_ & _ & Hnext)|[(_ & _ & Hnext)|(_ & _ & Hnext)]]; try done;
    rewrite Hnext; cbn [hd].
  1,2: by rewrite reset_loop_unfold; eexists.
  all: pose proof Hs as [Hlt Hs']%StronglySorted_cons;
    assert (Hfr : ∀ c, c ∈ a' :: l →
                       load (UNSET_INUSE m a) c = load m c)
      by (intros c Hc; apply load_store_ne; intros <-;
          rewrite Forall_forall in Hlt; specialize (Hlt a Hc); lia);
    apply IH; [done|done| | |cbn in *; lia].
  1,3: eapply linked_to_frame; [exact Hfr|by destruct Hlk].
  all: rewrite Forall_forall in Hnsl |- *; intros c Hc;
    rewrite (NEXT_ADDRESS_load m) by (by apply Hfr); by apply Hnsl.
Qed.

Lemma walk_all_free b0 top (m : gmap Z Z) :
  initial_brk b0 → top ≤ b0 + 4096 →
  ∀ (l : list Z) a fuel,
    Forall (addr_ok b0 top) (a :: l) → linked m (a :: l) →
    Forall (λ c, IS_INUSE m c = 0) (a :: l) →
    (length (a :: l) ≤ fuel)%nat →
    compact_walk fuel m a = Some NULL.
Proof.
  intros Hb Htop.
  induction l as [|a' l IH]; intros a fuel Hok Hlk Hfree Hlen;
    pose proof Hok as [[_ Hn]%(addr_ok_word b0 top Hb Htop) Hokl]%Forall_cons;
    pose proof Hfree as [Hf Hfl]%Forall_cons;
    (destruct fuel as [|fuel]; [cbn in Hlen; lia|]);
    rewrite compact_walk_free by done;
    destruct (linked_cases b0 top Hb Htop m NULL a _ word_addr_NULL Hok Hlk)
      as [(_ & _ & Hnext)|[(_ & Hu & _)|(_ & Hu & _)]]; try congruence;
    rewrite Hnext; cbn [hd].
  - by apply compact_walk_stop; left.
  - apply IH; [done|by destruct Hlk|done|cbn in *; lia].
Qed.

Lemma reset_heap_progress fuel s live :
  tidy_inv (s, live) → start_of_heap (_h s) ≠ NULL → (ENOUGH ≤ fuel)%nat →
  ∃ s', reset_heap fuel s = Some s'.
Proof.
  intros [(b & _ & [= -> ->])|(bl & Hinv & Hty)] Hstart Hfuel; [done|].
  destruct Hinv as (Hsz & Hav & Hb & Hc & Hnd). cbn [fst snd] in *.
  set (b0 := start_of_heap (_h s)) in *.
  set (top := b0 + 4096 - available_size (_h s)) in *.
  assert (Htop : top ≤ b0 + 4096) by (unfold top; lia).
  pose proof (block_count _ _ _ _ _ Htop Hc) as Hcount.
  destruct Hc as (Hhd & Hs & Hok & Hlk & _). destruct Hty as [Hns _].
  destruct bl as [|a l]; [done|]. injection Hhd as ->.
  destruct (reset_loop_progress b0 top Hb Htop l (mem s) b0 fuel Hs Hok Hlk Hns)
    as [m1 Hloop]; [lia|].
  destruct (reset_loop_chain b0 top fuel (mem s) b0 l m1 Hb Htop Hs Hok Hlk Hloop)
    as (Hfree & Hlk1 & _).
  unfold reset_heap, do_compact. fold b0. rewrite Hloop.
  rewrite (walk_all_free b0 top m1 Hb Htop l b0 fuel Hok Hlk1 Hfree) by lia.
  by eexists.
Qed.

End TidyReset.

(** * Programs whose requests have a footprint *)

Section Programs.

Implicit Types (s : state) (live : list allocd) (bl : list Z).

Lemma reachable_nz_reachable c : reachable_nz c → reachable c.
Proof.
  induction 1 as [b Hb|fuel n s p s' live _ IH Hn _ Hm|fuel s s' live _ IH Hf
                 |fuel a s s' live _ IH Ha Hf|fuel s s' live _ IH Hs Hr].
  - by constructor.
  - eapply reach_step; [exact IH|]. by eapply step_malloc.
  - eapply reach_step; [exact IH|]. by eapply step_free_null.
  - eapply reach_step; [exact IH|]. by eapply step_free.
  - eapply reach_step; [exact IH|]. by eapply step_reset.
Qed.

Lemma reachable_nz_tidy c : reachable_nz c → tidy_inv c.
Proof.
  induction 1 as [b Hb|fuel n s p s' live _ IH Hn Hnz Hm|fuel s s' live _ IH Hf
                 |fuel a s s' live _ IH Ha Hf|fuel s s' live _ IH Hs Hr].
  - left. by exists b.
  - by eapply mymalloc_tidy.
  - unfold myfree in Hf. cbn in Hf. by injection Hf as <-.
  - by eapply myfree_tidy.
  - by eapply reset_heap_tidy.
Qed.

Lemma sample_nz : aux_size_of 10 ≠ 0.
Proof. vm_compute. congruence. Qed.

Lemma sample_reachable_nz1 : reachable_nz (sample_s1, [sample_x]).
Proof.
  exact (reach_nz_malloc 5 10 (initial_state 65536) 65544 sample_s1 []
           (reach_nz_init 65536 sample_brk) sample_size sample_nz
           sample_malloc1).
Qed.

Lemma sample_reachable_nz2 :
  reachable_nz (sample_s2, [sample_y; sample_x]).
Proof.
  exact (reach_nz_malloc 5 10 sample_s1 65568 sample_s2 [sample_x]
           sample_reachable_nz1 sample_size sample_nz sample_malloc2).
Qed.

End Programs.

Section OneBlock.

Implicit Types (s : state) (live : list allocd) (bl : list Z).

(** On an arena that is one free block, [mymalloc] hands out the block
    at the arena base whenever the counter lets the request through. *)
Lemma mymalloc_one_block fuel n s :
  initial_brk (start_of_heap (_h s)) → 0 < size (_h s) →
  load (mem s) (start_of_heap (_h s)) = NULL →
  0 ≤ aux_size_of n ≤ available_size (_h s) → available_size (_h s) ≤ 4096 →
  ∃ s', mymalloc (S (S fuel)) n s
        = Some (start_of_heap (_h s) + SZ_BLOCK_METADATA, s').
Proof.
  intros (Hpos & Hal & Hfit) Hsz Hl Haux Hav.
  set (b0 := start_of_heap (_h s)) in *.
  assert (Hn : b0 ≠ NULL) by (unfold NULL; lia).
  assert (Hf : IS_INUSE (mem s) b0 = 0)
    by (unfold IS_INUSE, hdr_next; by rewrite Hl).
  assert (Hnext : NEXT_ADDRESS (mem s) b0 = NULL)
    by (unfold NEXT_ADDRESS, hdr_next; by rewrite Hl).
  assert (Hst : start b0 = b0 + 8).
  { unfold start, SZ_BLOCK_METADATA. apply wrap_small.
    rewrite WORD_eq in *. lia. }
  unfold mymalloc. cbv zeta. rewrite (ready_initialised s Hsz). fold b0.
  destruct (Z.gtb_spec (aux_size_of n) (available_size (_h s))); [lia|].
  rewrite scan_unfold. destruct (Z.eqb_spec b0 NULL) as [|_]; [done|].
  rewrite Hf. cbn [Z.eqb]. unfold do_compact.
  rewrite compact_walk_free, Hnext, compact_walk_stop by auto.
  assert (Hbs : BLOCK_SIZE (store (mem s) b0 NULL) b0 = WORD - (b0 + 8)).
  { unfold BLOCK_SIZE, NEXT_ADDRESS, hdr_next. rewrite load_store_eq, Hst.
    change (Z.land NULL _) with 0. replace (0 - (b0 + 8)) with (- (b0 + 8)) by lia.
    apply wrap_neg. rewrite WORD_eq in *. lia. }
  destruct (Z.geb_spec (BLOCK_SIZE (store (mem s) b0 NULL) b0) (aux_size_of n))
    as [_|Hlt].
  2: { rewrite Hbs in Hlt. rewrite WORD_eq in *. lia. }
  destruct (Z.eqb_spec b0 NULL) as [|_]; [done|].
  eexists. unfold hand_over. rewrite Hst. reflexivity.
Qed.

(** The blocks of a tidy list are the path from its head to NULL. *)
Lemma linked_path b0 top (m : gmap Z Z) :
  initial_brk b0 → top ≤ b0 + 4096 →
  ∀ (l : list Z) a,
    Forall (addr_ok b0 top) (a :: l) → linked m (a :: l) →
    Forall (λ c, NEXT_ADDRESS m c ≠ c) (a :: l) →
    path m a (a :: l) NULL.
Proof.
  intros Hb Htop.
  induction l as [|a' l IH]; intros a Hok Hlk Hns;
    pose proof Hok as [[_ Hn]%(addr_ok_word b0 top Hb Htop) Hokl]%Forall_cons;
    pose proof Hns as [Hself Hnsl]%Forall_cons;
    (constructor; [done|]);
    destruct (linked_cases b0 top Hb Htop m NULL a _ word_addr_NULL Hok Hlk)
      as [(_ & _ & Hnext)|[(_ & _ & Hnext)|(_ & _ & Hnext)]]; try done;
    rewrite Hnext; cbn [hd].
  1,2: apply path_nil.
  all: apply IH; [done|by destruct Hlk|done].
Qed.

(** X8: in a program none of whose requests has a footprint of 0, the
    headers reached from the arena base form a finite chain that ends in
    NULL: strictly ascending addresses, each a multiple of 8 between the
    base and the part of the arena counted as handed out, fewer than 514
    blocks, the last one free; every live allocation sits on a block of
    the chain that is in use. *)
Theorem chain_is_well_formed s live :
  reachable_nz (s, live) → start_of_heap (_h s) ≠ NULL →
  ∃ bl,
    path (mem s) (start_of_heap (_h s)) bl NULL ∧
    StronglySorted Z.lt bl ∧
    Forall (addr_ok (start_of_heap (_h s))
              (start_of_heap (_h s) + size (_h s) - available_size (_h s)))
           bl ∧
    (length bl < ENOUGH)%nat ∧
    (∃ l t, bl = l ++ [t] ∧ hdr_next (mem s) t = NULL) ∧
    ∀ x, x ∈ live →
         a_ptr x - SZ_BLOCK_METADATA ∈ bl ∧
         IS_INUSE (mem s) (a_ptr x - SZ_BLOCK_METADATA) = 1.
Proof.
  intros [(b & _ & [= -> ->])|(bl & Hinv & Hty)]%reachable_nz_tidy Hstart;
    [done|].
  cbn [fst snd] in *. destruct Hinv as (Hsz & Hav & Hb & Hc & Hnd).
  assert (Htop : start_of_heap (_h s) + 4096 - available_size (_h s)
                 ≤ start_of_heap (_h s) + 4096) by lia.
  pose proof (block_count _ _ _ _ _ Htop Hc) as Hcount.
  destruct Hc as (Hhd & Hs & Hok & Hlk & Hlive). destruct Hty as [Hns Hlast].
  exists bl. rewrite Hsz. destruct bl as [|a l]; [done|].
  injection Hhd as ->.
  split; [by eapply linked_path|]. split; [done|]. split; [done|].
  split; [done|]. split.
  - destruct (last (start_of_heap (_h s) :: l)) as [t|] eqn:Ht.
    + pose proof Ht as [l' Hl']%last_Some. exists l', t. split; [done|].
      by apply Hlast.
    + by apply last_None in Ht.
  - intros x Hx. rewrite Forall_forall in Hlive.
    destruct (Hlive x Hx) as (Hin & Hodd & _). split; [done|].
    by rewrite IS_INUSE_odd.
Qed.

Lemma chain_is_well_formed_witness :
  ∃ bl,
    path (mem sample_s2) (start_of_heap (_h sample_s2)) bl NULL ∧
    StronglySorted Z.lt bl ∧
    Forall (addr_ok (start_of_heap (_h sample_s2))
              (start_of_heap (_h sample_s2) + size (_h sample_s2)
               - available_size (_h sample_s2)))
           bl ∧
    (length bl < ENOUGH)%nat ∧
    (∃ l t, bl = l ++ [t] ∧ hdr_next (mem sample_s2) t = NULL) ∧
    ∀ x, x ∈ [sample_y; sample_x] →
         a_ptr x - SZ_BLOCK_METADATA ∈ bl ∧
         IS_INUSE (mem sample_s2) (a_ptr x - SZ_BLOCK_METADATA) = 1.
Proof.
  apply (chain_is_well_formed sample_s2 [sample_y; sample_x]
           sample_reachable_nz2).
  discriminate.
Defined.

End OneBlock.

(** * The test driver *)

Section Driver.

Implicit Types (s : state) (live : list allocd) (p a : Z).

Lemma holds_ptr_here live x : holds_ptr (x :: live) (a_ptr x).
Proof. exists x. split; [|done]. apply elem_of_cons. by left. Qed.

Lemma holds_ptr_cons live x p : holds_ptr live p → holds_ptr (x :: live) p.
Proof.
  intros (y & Hy & Hp). exists y. split; [|done]. apply elem_of_cons. by right.
Qed.

Lemma holds_ptr_drop live p q :
  holds_ptr live p → p ≠ q → holds_ptr (drop_ptr q live) p.
Proof.
  intros (y & Hy & Hp) Hne. exists y. split; [|done].
  apply drop_ptr_spec. split; [done|]. by rewrite Hp.
Qed.

(** A request that the counter lets through, at a point of the program:
    it returns a fresh pointer and lowers the counter by the footprint. *)
Lemma malloc_rule fuel n a s live :
  running a s live → 0 ≤ n < WORD → aux_size_of n ≠ 0 →
  aux_size_of n ≤ a → (ENOUGH ≤ fuel)%nat →
  ∃ p s',
    mymalloc fuel n s = Some (p, s') ∧ p ≠ NULL ∧
    ¬ holds_ptr live p ∧
    running (a - aux_size_of n) s' (mkAllocd p (aux_size_of n) :: live).
Proof.
  intros [Hreach <-] Hn Hnz Hle Hfuel.
  pose proof (reachable_nz_tidy _ Hreach) as Hti.
  destruct (mymalloc_progress fuel n s live Hti Hn Hle Hfuel)
    as (p & s' & Hm & Hp).
  exists p, s'. split; [done|]. split; [done|].
  pose proof (reach_nz_malloc fuel n s p s' live Hreach Hn Hnz Hm) as Hreach'.
  destruct (Z.eqb_spec p NULL) as [|_]; [done|].
  destruct (mymalloc_block fuel n s p s' live (tidy_inv_invariant _ Hti)
              Hn Hm Hp) as (tmp & _ & _ & _ & Hsz & _ & _ & Hh & _).
  split.
  - intros (y & Hy & Hyp).
    destruct (reachable_invariant _ (reachable_nz_reachable _ Hreach'))
      as [(b & _ & Heq)|(bl & _ & _ & _ & _ & Hnd)]; [discriminate Heq|].
    cbn [snd map a_ptr] in Hnd. apply NoDup_cons in Hnd as [Hnotin _].
    apply Hnotin. rewrite <- Hyp. by apply list_elem_of_fmap_2.
  - split; [done|]. rewrite ready_initialised; rewrite Hh; cbn; [done|lia].
Qed.

Lemma free_rule fuel a s live p :
  running a s live → holds_ptr live p → (ENOUGH ≤ fuel)%nat →
  ∃ s', myfree fuel p s = Some s' ∧ running a s' (drop_ptr p live).
Proof.
  intros [Hreach <-] (x & Hx & <-) Hfuel.
  pose proof (reachable_nz_tidy _ Hreach) as Hti.
  destruct (myfree_progress fuel x s live Hti Hx Hfuel) as [s' Hf].
  exists s'. split; [done|]. split; [by eapply reach_nz_free|].
  pose proof (invariant_live_ready s live x (tidy_inv_invariant _ Hti) Hx) as Hr.
  rewrite Hr. rewrite <- (myfree_heap _ _ _ _ Hf).
  f_equal. f_equal. apply ready_initialised.
  rewrite (myfree_heap _ _ _ _ Hf).
  destruct Hti as [(b & _ & [= -> ->])|(bl & (Hsz & _) & _)];
    [by apply elem_of_nil in Hx|]. cbn in Hsz. lia.
Qed.

Lemma aux_size_of_10 : aux_size_of 10 = 24.
Proof. reflexivity. Qed.

Lemma aux_size_of_20 : aux_size_of 20 = 32.
Proof. reflexivity. Qed.

Lemma size_20 : 0 ≤ 20 < WORD.
Proof. vm_compute. split; congruence. Qed.

(** A request of 10 bytes at a point where the counter is at least 24. *)
Lemma malloc10_rule fuel a s live :
  running a s live → 24 ≤ a → (ENOUGH ≤ fuel)%nat →
  ∃ p s',
    mymalloc fuel 10 s = Some (p, s') ∧ p ≠ NULL ∧
    ¬ holds_ptr live p ∧ running (a - 24) s' (mkAllocd p 24 :: live).
Proof.
  intros Hrun Ha Hfuel.
  destruct (malloc_rule fuel 10 a s live Hrun sample_size sample_nz
              ltac:(rewrite aux_size_of_10; lia) Hfuel) as (p & s' & H).
  rewrite aux_size_of_10 in H. by exists p, s'.
Qed.

Lemma malloc20_rule fuel a s live :
  running a s live → 32 ≤ a → (ENOUGH ≤ fuel)%nat →
  ∃ p s',
    mymalloc fuel 20 s = Some (p, s') ∧ p ≠ NULL ∧
    ¬ holds_ptr live p ∧ running (a - 32) s' (mkAllocd p 32 :: live).
Proof.
  intros Hrun Ha Hfuel.
  destruct (malloc_rule fuel 20 a s live Hrun size_20
              ltac:(rewrite aux_size_of_20; discriminate)
              ltac:(rewrite aux_size_of_20; lia) Hfuel) as (p & s' & H).
  rewrite aux_size_of_20 in H. by exists p, s'.
Qed.

End Driver.

Section Tests.

Implicit Types (s : state) (live : list allocd) (p a : Z).

Lemma test0_loop_returns fuel rnd : (ENOUGH ≤ fuel)%nat →
  ∀ cnt k a s live,
    running a s live → 24 * (Z.of_nat cnt + 1) ≤ a →
    ∃ s' live',
      test0_loop fuel rnd k cnt s = Some s' ∧
      running (a - 24 * (Z.of_nat cnt + 1)) s' live'.
Proof.
  intros Hfuel. induction cnt as [|cnt IH]; intros k a s live Hrun Ha;
    destruct (malloc10_rule fuel a s live Hrun ltac:(lia) Hfuel)
      as (p & s1 & Hm & Hp & _ & Hrun1);
    cbn [test0_loop]; rewrite Hm; cbn [mbind option_bind];
    (destruct (Z.eqb_spec p NULL) as [|_]; [done|]).
  - exists s1, (mkAllocd p 24 :: live). split; [done|].
    by replace (a - 24 * (Z.of_nat 0 + 1)) with (a - 24) by lia.
  - replace (a - 24 * (Z.of_nat (S cnt) + 1))
      with (a - 24 - 24 * (Z.of_nat cnt + 1)) by lia.
    destruct (rnd k).
    + destruct (free_rule fuel (a - 24) s1 _ p Hrun1 (holds_ptr_here live _)
                  Hfuel) as (s2 & Hf & Hrun2).
      rewrite Hf. cbn [mbind option_bind]. eapply IH; [exact Hrun2|lia].
    + cbn [mbind option_bind]. eapply IH; [exact Hrun1|lia].
Qed.

Lemma running_initial b : initial_brk b → running 4096 (initial_state b) [].
Proof. intros Hb. split; [by constructor|done]. Qed.

Lemma test1_returns fuel a s live :
  running a s live → 120 ≤ a → (ENOUGH ≤ fuel)%nat →
  ∃ s' live', test1 fuel s = Some (0, s') ∧ running (a - 120) s' live'.
Proof.
  intros Hrun Ha Hfuel. unfold test1.
  destruct (malloc10_rule fuel _ _ _ Hrun ltac:(lia) Hfuel)
    as (c1 & s1 & -> & _ & _ & Hrun1). cbn [mbind option_bind].
  destruct (malloc10_rule fuel _ _ _ Hrun1 ltac:(lia) Hfuel)
    as (c2 & s2 & -> & _ & Hn2 & Hrun2). cbn [mbind option_bind].
  destruct (malloc10_rule fuel _ _ _ Hrun2 ltac:(lia) Hfuel)
    as (c3 & s3 & -> & _ & Hn3 & Hrun3). cbn [mbind option_bind].
  destruct (malloc10_rule fuel _ _ _ Hrun3 ltac:(lia) Hfuel)
    as (c4 & s4 & -> & _ & Hn4 & Hrun4). cbn [mbind option_bind].
  set (x1 := mkAllocd c1 24) in *. set (x2 := mkAllocd c2 24) in *.
  set (x3 := mkAllocd c3 24) in *. set (x4 := mkAllocd c4 24) in *.
  assert (H1 : holds_ptr (x1 :: live) c1) by apply (holds_ptr_here live x1).
  assert (H2 : holds_ptr (x2 :: x1 :: live) c2) by apply (holds_ptr_here _ x2).
  assert (H3 : holds_ptr (x3 :: x2 :: x1 :: live) c3)
    by apply (holds_ptr_here _ x3).
  assert (H4 : holds_ptr (x4 :: x3 :: x2 :: x1 :: live) c4)
    by apply (holds_ptr_here _ x4).
  assert (H12 : c1 ≠ c2) by (intros ->; by apply Hn2).
  assert (H13 : c1 ≠ c3) by (intros ->; by apply Hn3, holds_ptr_cons).
  assert (H23 : c2 ≠ c3) by (intros ->; by apply Hn3).
  assert (H14 : c1 ≠ c4) by (intros ->; by apply Hn4, holds_ptr_cons, holds_ptr_cons).
  assert (H24 : c2 ≠ c4) by (intros ->; by apply Hn4, holds_ptr_cons).
  assert (H34 : c3 ≠ c4) by (intros ->; by apply Hn4).
  destruct (free_rule fuel _ _ _ c3 Hrun4 (holds_ptr_cons _ x4 _ H3) Hfuel)
    as (s5 & -> & Hrun5). cbn [mbind option_bind].
  destruct (free_rule fuel _ _ _ c1 Hrun5) as (s6 & -> & Hrun6); [|done|].
  { apply holds_ptr_drop; [|done]. by do 3 apply holds_ptr_cons. }
  cbn [mbind option_bind].
  destruct (free_rule fuel _ _ _ c4 Hrun6) as (s7 & -> & Hrun7); [|done|].
  { do 2 (apply holds_ptr_drop; [|done]). exact H4. }
  cbn [mbind option_bind].
  destruct (free_rule fuel _ _ _ c2 Hrun7) as (s8 & -> & Hrun8); [|done|].
  { do 3 (apply holds_ptr_drop; [|done]). by do 2 apply holds_ptr_cons. }
  cbn [mbind option_bind].
  destruct (malloc10_rule fuel _ _ _ Hrun8 ltac:(lia) Hfuel)
    as (c5 & s9 & -> & _ & _ & Hrun9). cbn [mbind option_bind].
  eexists _, _. split; [done|].
  by replace (a - 120) with (a - 24 - 24 - 24 - 24 - 24) by lia.
Qed.

Lemma test2_returns fuel a s live :
  running a s live → 192 ≤ a → (ENOUGH ≤ fuel)%nat →
  ∃ s' live', test2 fuel s = Some (0, s') ∧ running (a - 192) s' live'.
Proof.
  intros Hrun Ha Hfuel. unfold test2.
  destruct (malloc10_rule fuel _ _ _ Hrun ltac:(lia) Hfuel)
    as (c1 & s1 & -> & _ & _ & Hrun1). cbn [mbind option_bind].
  destruct (malloc10_rule fuel _ _ _ Hrun1 ltac:(lia) Hfuel)
    as (c2 & s2 & -> & _ & Hn2 & Hrun2). cbn [mbind option_bind].
  destruct (malloc10_rule fuel _ _ _ Hrun2 ltac:(lia) Hfuel)
    as (c3 & s3 & -> & _ & Hn3 & Hrun3). cbn [mbind option_bind].
  destruct (malloc10_rule fuel _ _ _ Hrun3 ltac:(lia) Hfuel)
    as (c4 & s4 & -> & _ & Hn4 & Hrun4). cbn [mbind option_bind].
  set (x1 := mkAllocd c1 24) in *. set (x2 := mkAllocd c2 24) in *.
  set (x3 := mkAllocd c3 24) in *. set (x4 := mkAllocd c4 24) in *.
  assert (H1 : holds_ptr (x1 :: live) c1) by apply (holds_ptr_here live x1).
  assert (H2 : holds_ptr (x2 :: x1 :: live) c2) by apply (holds_ptr_here _ x2).
  assert (H3 : holds_ptr (x3 :: x2 :: x1 :: live) c3)
    by apply (holds_ptr_here _ x3).
  assert (H12 : c1 ≠ c2) by (intros ->; by apply Hn2).
  assert (H13 : c1 ≠ c3) by (intros ->; by apply Hn3, holds_ptr_cons).
  assert (H23 : c2 ≠ c3) by (intros ->; by apply Hn3).
  destruct (free_rule fuel _ _ _ c3 Hrun4 (holds_ptr_cons _ x4 _ H3) Hfuel)
    as (s5 & -> & Hrun5). cbn [mbind option_bind].
  destruct (malloc20_rule fuel _ _ _ Hrun5 ltac:(lia) Hfuel)
    as (c3' & s6 & -> & _ & _ & Hrun6). cbn [mbind option_bind].
  destruct (free_rule fuel _ _ _ c2 Hrun6) as (s7 & -> & Hrun7); [|done|].
  { apply holds_ptr_cons, holds_ptr_drop; [|done]. by do 2 apply holds_ptr_cons. }
  cbn [mbind option_bind].
  destruct (malloc20_rule fuel _ _ _ Hrun7 ltac:(lia) Hfuel)
    as (c2' & s8 & -> & _ & _ & Hrun8). cbn [mbind option_bind].
  destruct (free_rule fuel _ _ _ c1 Hrun8) as (s9 & -> & Hrun9); [|done|].
  { apply holds_ptr_cons, holds_ptr_drop; [|done].
    apply holds_ptr_cons, holds_ptr_drop; [|done]. by do 3 apply holds_ptr_cons. }
  cbn [mbind option_bind].
  destruct (malloc20_rule fuel _ _ _ Hrun9 ltac:(lia) Hfuel)
    as (c1' & s10 & -> & _ & _ & Hrun10). cbn [mbind option_bind].
  eexists _, _. split; [done|].
  by replace (a - 192) with (a - 24 - 24 - 24 - 24 - 32 - 32 - 32) by lia.
Qed.

(** X10: the test driver always succeeds.  Started on a fresh process,
    whatever the break [sbrk] hands out (aligned, in the lower half of
    the address space) and whatever [rand()] returns, [main] runs the
    three tests without an abort and returns 0; no request in it fails.
    At the end the available counter reads 1360, although the tests have
    freed most of what they obtained. *)
Theorem main_returns_0 fuel rnd b :
  initial_brk b → (ENOUGH ≤ fuel)%nat →
  ∃ s' live',
    main fuel rnd (initial_state b) = Some (Returned 0, s') ∧
    running 1360 s' live'.
Proof.
  intros Hb Hfuel. unfold main.
  destruct (test0_loop_returns fuel rnd Hfuel 100 0 4096 (initial_state b) []
              (running_initial b Hb) ltac:(lia))
    as (s0 & live0 & Hl & Hrun0).
  unfold test0. rewrite Hl. cbn [mbind option_bind Z.eqb negb].
  destruct (test1_returns fuel _ s0 live0 Hrun0 ltac:(lia) Hfuel)
    as (s1 & live1 & -> & Hrun1). cbn [mbind option_bind Z.eqb negb].
  destruct (test2_returns fuel _ s1 live1 Hrun1 ltac:(lia) Hfuel)
    as (s2 & live2 & -> & Hrun2). cbn [mbind option_bind Z.eqb negb].
  exists s2, live2. split; [done|].
  by replace 1360 with (4096 - 24 * (Z.of_nat 100 + 1) - 120 - 192) by lia.
Qed.

Lemma main_returns_0_witness :
  ∃ s' live',
    main ENOUGH (λ k, Nat.even k) (initial_state 65536)
      = Some (Returned 0, s') ∧
    running 1360 s' live'.
Proof.
  apply (main_returns_0 ENOUGH (λ k, Nat.even k) 65536 sample_brk).
  apply le_n.
Defined.

End Tests.

(** * Headers and live footprints *)

Section Footprints.

Implicit Types (s : state) (live : list allocd).

(** X11: in a program none of whose requests has a footprint of 0, the
    block of a live allocation is in use, it is never the last block of
    the chain, and the header it points to lies at or after the end of
    its padded footprint: writing the bytes of the footprint overwrites
    no header the allocator follows from this block. *)
Theorem next_header_after_footprint s live x :
  reachable_nz (s, live) → x ∈ live →
  let blk := a_ptr x - SZ_BLOCK_METADATA in
  IS_INUSE (mem s) blk = 1 ∧
  NEXT_ADDRESS (mem s) blk ≠ NULL ∧
  blk + a_footprint x ≤ NEXT_ADDRESS (mem s) blk.
Proof.
  intros [(b & _ & [= -> ->])|(bl & Hinv & Hty)]%reachable_nz_tidy Hx;
    [by apply elem_of_nil in Hx|].
  cbn [fst snd] in *. cbv zeta.
  destruct Hinv as (Hsz & Hav & Hb & Hc & Hnd).
  assert (Htop : start_of_heap (_h s) + 4096 - available_size (_h s)
                 ≤ start_of_heap (_h s) + 4096) by lia.
  destruct Hc as (_ & Hs & Hok & Hlk & Hlive). destruct Hty as [Hns Hlast].
  rewrite Forall_forall in Hlive. destruct (Hlive x Hx) as (Hin & Hodd & Hbound).
  set (blk := a_ptr x - SZ_BLOCK_METADATA) in *.
  pose proof Hin as (l1 & l2 & Hbl)%list_elem_of_split.
  rewrite Hbl in Hok, Hlk, Hns, Hlast, Hs.
  apply Forall_app in Hok as [_ Hokl]. apply linked_to_app in Hlk as [_ Hlkl].
  apply Forall_app in Hns as [_ [Hself _]%Forall_cons].
  split; [by rewrite IS_INUSE_odd|].
  destruct (linked_cases _ _ Hb Htop (mem s) NULL blk l2 word_addr_NULL
              Hokl Hlkl)
    as [(_ & Hf & _)|[(Hl & _ & Hnext)|(_ & _ & Hnext)]]; [| |done].
  { rewrite IS_INUSE_odd in Hf. lia. }
  rewrite Hnext. destruct l2 as [|c l2].
  { exfalso. specialize (Hlast blk). rewrite last_snoc in Hlast.
    rewrite Hlast in Hodd by done. by cbn in Hodd. }
  cbn [hd].
  assert (Hcin : c ∈ bl).
  { rewrite Hbl. apply elem_of_app. right. apply elem_of_cons. right.
    apply elem_of_cons. by left. }
  apply Forall_cons in Hokl as [_ [Hokc _]%Forall_cons].
  destruct (addr_ok_word _ _ Hb Htop c Hokc) as [_ Hcn].
  split; [done|]. apply Hbound; [done|].
  apply StronglySorted_app in Hs as (_ & _ & Hs).
  by apply StronglySorted_cons in Hs as [[? _]%Forall_cons _].
Qed.

Lemma next_header_after_footprint_witness :
  let blk := a_ptr sample_x - SZ_BLOCK_METADATA in
  IS_INUSE (mem sample_s2) blk = 1 ∧
  NEXT_ADDRESS (mem sample_s2) blk ≠ NULL ∧
  blk + a_footprint sample_x ≤ NEXT_ADDRESS (mem sample_s2) blk.
Proof.
  apply (next_header_after_footprint sample_s2 [sample_y; sample_x] sample_x
           sample_reachable_nz2).
  apply elem_of_cons. right. apply elem_of_cons. by left.
Defined.

End Footprints.

(** * A request whose footprint wraps to 0 *)

Section ZeroFootprint.

Implicit Types (s : state) (m : gmap Z Z).

(** X12: a request whose padded footprint wraps around to 0 (a size from
    [2^64 - 16] to [2^64 - 9]) is served on a fresh heap: it returns the
    arena base plus 8 and charges nothing to the counter.  The split it
    performs makes the block at the base point to itself, and from then
    on no call returns: [mymalloc], whatever the size, [myfree] of the
    pointer and [reset_heap] all loop for ever on that block. *)
Theorem zero_footprint_request_hangs_the_allocator b n fuel :
  initial_brk b → 0 ≤ n < WORD → aux_size_of n = 0 →
  ∃ s',
    mymalloc (S (S fuel)) n (initial_state b)
      = Some (b + SZ_BLOCK_METADATA, s') ∧
    available_size (_h s') = 4096 ∧
    hdr_next (mem s') b = b + 1 ∧
    (∀ f n', aux_size_of n' ≤ 4096 → mymalloc f n' s' = None) ∧
    (∀ f, myfree f (b + SZ_BLOCK_METADATA) s' = None) ∧
    (∀ f, reset_heap f s' = None).
Proof.
  intros Hb Hn Hz. pose proof Hb as (Hpos & Hal & Hfit).
  assert (Hbn : b ≠ NULL) by (unfold NULL; lia).
  assert (Hwb : word_addr b).
  { unfold word_addr, MY_ALIGNMENT_SZ in *. rewrite WORD_eq in *. lia. }
  assert (Hst : start b = b + 8).
  { unfold start, SZ_BLOCK_METADATA. apply wrap_small. rewrite WORD_eq in *. lia. }
  set (m0 := store ∅ b NULL : gmap Z Z).
  set (m1 := store (store (store m0 b NULL) b NULL) b (b + 1)).
  set (s' := mkState (mkHeap 4096 4096 b) m1 (wrap (b + 4096))).
  assert (Hl0 : load m0 b = NULL) by apply load_store_eq.
  assert (Hm : mymalloc (S (S fuel)) n (initial_state b)
               = Some (b + SZ_BLOCK_METADATA, s')).
  { unfold mymalloc. cbv zeta. rewrite Hz.
    change (ready (initial_state b))
      with (mkState (mkHeap 4096 4096 b) m0 (wrap (b + 4096))).
    cbn [_h mem brk available_size start_of_heap size]. cbn [Z.gtb Z.compare].
    rewrite scan_unfold. destruct (Z.eqb_spec b NULL) as [|_]; [done|].
    assert (Hf : IS_INUSE m0 b = 0) by (unfold IS_INUSE, hdr_next; by rewrite Hl0).
    assert (Hnext : NEXT_ADDRESS m0 b = NULL)
      by (unfold NEXT_ADDRESS, hdr_next; by rewrite Hl0).
    rewrite Hf. cbn [Z.eqb]. unfold do_compact.
    rewrite compact_walk_free, Hnext, compact_walk_stop by auto.
    assert (Hbs : BLOCK_SIZE (store m0 b NULL) b = WORD - (b + 8)).
    { unfold BLOCK_SIZE, NEXT_ADDRESS, hdr_next. rewrite load_store_eq, Hst.
      change (Z.land NULL _) with 0.
      replace (0 - (b + 8)) with (- (b + 8)) by lia.
      apply wrap_neg. rewrite WORD_eq in *. lia. }
    destruct (Z.geb_spec (BLOCK_SIZE (store m0 b NULL) b) 0) as [_|Hlt].
    2: { rewrite Hbs in Hlt. rewrite WORD_eq in *. lia. }
    destruct (Z.eqb_spec b NULL) as [|_]; [done|].
    unfold hand_over, needs_split. rewrite Hbs, Hst.
    cbn [_h mem brk available_size start_of_heap size].
    rewrite split_threshold by lia.
    destruct (Z.geb_spec (WORD - (b + 8)) (0 + 16)) as [_|Hlt].
    2: { rewrite WORD_eq in *. lia. }
    unfold s', m1, split, SET_INUSE, UNSET_INUSE, hdr_next, SZ_BLOCK_METADATA.
    replace (wrap (b + 0)) with b by (rewrite wrap_small; lia).
    rewrite !load_store_eq, !store_store.
    rewrite (proj2 (proj2 (decode_free _ Hwb))).
    change (wrap (4096 - 0)) with 4096. done. }
  assert (Hl1 : load m1 b = b + 1) by apply load_store_eq.
  assert (Hu1 : IS_INUSE m1 b ≠ 0).
  { unfold IS_INUSE, hdr_next. rewrite Hl1.
    rewrite (proj1 (decode_inuse _ Hwb)). lia. }
  assert (Hn1 : NEXT_ADDRESS m1 b = b).
  { unfold NEXT_ADDRESS, hdr_next. rewrite Hl1.
    apply (decode_inuse _ Hwb). }
  exists s'. split; [done|]. split; [done|]. split; [done|].
  split; [|split].
  - intros f n' Hle. unfold mymalloc. cbv zeta.
    change (ready s') with s'. cbn [_h mem brk available_size start_of_heap s'].
    destruct (Z.gtb_spec (aux_size_of n') 4096); [lia|].
    by rewrite scan_self_loop.
  - intros f. unfold myfree, SZ_BLOCK_METADATA.
    destruct (Z.eqb_spec (b + 8) NULL) as [Hz'|_]; [unfold NULL in Hz'; lia|].
    replace (wrap (b + 8 - 8)) with b by (rewrite wrap_small; lia).
    unfold do_compact. cbn [mem s'].
    rewrite compact_walk_self_loop; [done|done|apply UNSET_INUSE_free|].
    by rewrite UNSET_INUSE_next.
  - intros f. unfold reset_heap. cbn [_h mem start_of_heap s'].
    by rewrite reset_loop_self_loop.
Qed.

Lemma zero_footprint_request_hangs_the_allocator_witness :
  ∃ s',
    mymalloc 2 (WORD - 16) (initial_state 65536)
      = Some (65536 + SZ_BLOCK_METADATA, s') ∧
    available_size (_h s') = 4096 ∧
    hdr_next (mem s') 65536 = 65536 + 1 ∧
    (∀ f n', aux_size_of n' ≤ 4096 → mymalloc f n' s' = None) ∧
    (∀ f, myfree f (65536 + SZ_BLOCK_METADATA) s' = None) ∧
    (∀ f, reset_heap f s' = None).
Proof.
  apply (zero_footprint_request_hangs_the_allocator 65536 (WORD - 16) 0
           sample_brk).
  - vm_compute. split; congruence.
  - vm_compute. reflexivity.
Defined.

End ZeroFootprint.

(** * Blocks in use and live allocations *)

Section InUse.

Implicit Types (s : state) (live : list allocd) (m : gmap Z Z).

(** The search loop changes no block between free and in use. *)
Lemma scan_inuse aux fuel : ∀ m a t m',
  scan fuel m a aux = Some (t, m') → ∀ y, IS_INUSE m' y = IS_INUSE m y.
Proof.
  induction fuel as [|fuel IH]; intros m a t m';
    rewrite scan_unfold; destruct (Z.eqb_spec a NULL) as [->|Hn].
  1,3: by intros [= <- <-].
  { done. }
  destruct (Z.eqb_spec (IS_INUSE m a) 0) as [Hf|Hu]; [|by apply IH].
  destruct (do_compact fuel m a) as [m1|] eqn:Hdc; [|done].
  destruct (do_compact_scan_frame aux fuel m a m1 Hn Hf Hdc) as (Hu1 & _).
  destruct (Z.geb _ aux).
  - by intros [= <- <-].
  - intros Hscan y. rewrite (IH _ _ _ _ Hscan). apply Hu1.
Qed.

(** Handing a block over sets the in-use bit of that block only. *)
Lemma hand_over_inuse s m tmp aux c :
  IS_INUSE (mem (hand_over s m tmp aux).2) c ≠ 0 →
  c = tmp ∨ IS_INUSE m c ≠ 0.
Proof.
  rewrite hand_over_mem. destruct (Z.eq_dec c tmp) as [|Hne]; [by left|].
  intros Hu. right. revert Hu. unfold IS_INUSE, hdr_next.
  destruct (needs_split m tmp aux).
  - rewrite load_store_ne by done.
    destruct (Z.eq_dec (wrap (tmp + aux)) c) as [<-|Hne2].
    + rewrite load_store_eq, masked_free. done.
    + by rewrite load_store_ne.
  - by rewrite load_store_ne.
Qed.

Lemma myfree_inuse fuel p s s' c :
  p ≠ NULL → wrap (p - SZ_BLOCK_METADATA) ≠ NULL →
  myfree fuel p s = Some s' →
  IS_INUSE (mem s') c ≠ 0 →
  c ≠ wrap (p - SZ_BLOCK_METADATA) ∧ IS_INUSE (mem s) c ≠ 0.
Proof.
  intros Hp Hn. unfold myfree. destruct (Z.eqb_spec p NULL) as [|_]; [done|].
  destruct (do_compact fuel _ _) as [m'|] eqn:Hdc; [|done].
  intros [= <-]. cbn [mem].
  destruct (do_compact_scan_frame 0 fuel _ _ m' Hn (UNSET_INUSE_free _ _) Hdc)
    as (Hu & _).
  rewrite Hu. intros Hc.
  assert (Hne : c ≠ wrap (p - SZ_BLOCK_METADATA)).
  { intros ->. by rewrite UNSET_INUSE_free in Hc. }
  split; [done|]. revert Hc. unfold IS_INUSE, hdr_next, UNSET_INUSE.
  by rewrite load_store_ne.
Qed.

Lemma ready_inuse s live c :
  invariant (s, live) → IS_INUSE (mem (ready s)) c ≠ 0 →
  IS_INUSE (mem s) c ≠ 0.
Proof.
  intros [(b & Hb & [= -> ->])|(bl & Hsz & _)].
  - change (mem (ready (initial_state b))) with (store ∅ b NULL : gmap Z Z).
    unfold IS_INUSE, hdr_next. destruct (Z.eq_dec b c) as [<-|Hne].
    + by rewrite load_store_eq.
    + rewrite load_store_ne by done. done.
  - cbn in Hsz. rewrite ready_initialised by lia. done.
Qed.

Lemma reachable_inuse_is_live c : reachable c → inuse_is_live c.
Proof.
  induction 1 as [b Hb|c c' Hreach IH Hstep]; [by intros a|].
  pose proof (reachable_invariant _ Hreach) as Hinv.
  destruct Hstep as [fuel n s p s' live Hn Hm|fuel s s' live Hf
                    |fuel x s s' live Hx Hf|fuel s s' live Hs Hr];
    unfold inuse_is_live in *; cbn [fst snd] in *.
  - intros a Ha.
    assert (Hold : IS_INUSE (mem (ready s)) a ≠ 0 →
                   holds_ptr (if Z.eqb p NULL then live
                              else mkAllocd p (aux_size_of n) :: live)
                             (a + SZ_BLOCK_METADATA)).
    { intros Hu%(ready_inuse s live a Hinv). specialize (IH a Hu).
      destruct (Z.eqb p NULL); [done|by apply holds_ptr_cons]. }
    pose proof Hm as Hm'. apply mymalloc_cases in Hm'. cbv zeta in Hm'.
    destruct Hm' as [(_ & _ & ->)|(_ & tmp & m & Hscan & Hm')]; [by apply Hold|].
    pose proof (scan_inuse _ _ _ _ _ _ Hscan) as Hfr.
    destruct Hm' as [(_ & _ & ->)|(Hnn & Hho)].
    { apply Hold. cbn [mem] in Ha. by rewrite <- Hfr. }
    assert (Hst : start tmp = tmp + SZ_BLOCK_METADATA ∧
                  tmp + SZ_BLOCK_METADATA ≠ NULL).
    { destruct (ready_inv s live Hinv) as (bl & Hsz & Hav & Hb & Hc & _).
      assert (Htop : start_of_heap (_h (ready s)) + 4096
                     - available_size (_h (ready s))
                     ≤ start_of_heap (_h (ready s)) + 4096) by lia.
      eapply (scan_chain _ _ Hb Htop) in Hscan as (bl' & Hc' & Hdec);
        [|exact Hc|].
      2: { right. destruct Hc as (Hhd & _). destruct bl; [done|].
           injection Hhd as ->. apply elem_of_cons. by left. }
      destruct Hdec as [|(l1 & l2 & -> & _)]; [done|].
      destruct Hc' as (_ & _ & Hok & _).
      apply Forall_app in Hok as [_ [[[Hlo Hhi] _] _]%Forall_cons].
      destruct Hb as (? & ? & ?). unfold start, SZ_BLOCK_METADATA, NULL.
      split; [|lia]. apply wrap_small. rewrite WORD_eq in *. lia. }
    destruct Hst as [Hst Hnz].
    assert (Hs' : s' = (hand_over (ready s) m tmp (aux_size_of n)).2)
      by (by rewrite <- Hho).
    assert (Hp' : p = tmp + SZ_BLOCK_METADATA).
    { rewrite <- Hst. unfold hand_over in Hho. by injection Hho as -> _. }
    rewrite Hs' in Ha. apply hand_over_inuse in Ha as [->|Ha].
    + rewrite Hp'.
      destruct (Z.eqb_spec (tmp + SZ_BLOCK_METADATA) NULL) as [|_]; [done|].
      apply (holds_ptr_here live (mkAllocd _ _)).
    + apply Hold. by rewrite <- Hfr.
  - unfold myfree in Hf. cbn in Hf. injection Hf as <-. exact IH.
  - intros a Ha.
    destruct Hinv as [(b & _ & [= -> ->])|(bl & Hsz & Hav & Hb & Hc & Hnd)];
      [by apply elem_of_nil in Hx|]. cbn [fst snd] in *.
    destruct Hc as (_ & _ & Hok & _ & Hlive).
    rewrite Forall_forall in Hlive. destruct (Hlive x Hx) as (Hin & _).
    rewrite Forall_forall in Hok. destruct (Hok _ Hin) as [[Hlo Hhi] _].
    pose proof Hb as (Hpos & _ & Hfit).
    assert (Hwr : wrap (a_ptr x - SZ_BLOCK_METADATA) = a_ptr x - SZ_BLOCK_METADATA).
    { apply wrap_small. rewrite WORD_eq in *. lia. }
    destruct (myfree_inuse fuel (a_ptr x) s s' a) as [Hne Hu]; try done.
    + unfold SZ_BLOCK_METADATA, NULL in *. lia.
    + rewrite Hwr. unfold NULL. lia.
    + apply holds_ptr_drop; [by apply IH|].
      rewrite Hwr in Hne. unfold SZ_BLOCK_METADATA in *. lia.
  - intros a Ha. exfalso.
    destruct Hinv as [(b & _ & [= -> ->])|(bl & Hsz & Hav & Hb & Hc & Hnd)];
      [done|]. cbn [fst snd] in *.
    set (b0 := start_of_heap (_h s)) in *.
    set (top := b0 + 4096 - available_size (_h s)) in *.
    assert (Htop : top ≤ b0 + 4096) by (unfold top; lia).
    destruct Hc as (Hhd & Hsrt & Hok & Hlk & Hlive).
    destruct bl as [|a0 l]; [done|]. injection Hhd as ->.
    unfold reset_heap in Hr. fold b0 in Hr.
    destruct (reset_loop fuel (mem s) b0) as [m1|] eqn:Hloop; [|done].
    destruct (do_compact fuel m1 b0) as [m2|] eqn:Hdc; [|done].
    injection Hr as <-. cbn [mem] in Ha.
    destruct (reset_loop_chain b0 top fuel (mem s) b0 l m1 Hb Htop Hsrt Hok
                Hlk Hloop) as (Hfree & _ & Hfr).
    pose proof Hfree as [Hf0 _]%Forall_cons.
    destruct (do_compact_scan_frame 0 fuel m1 b0 m2 Hs Hf0 Hdc) as (Hu & _).
    rewrite Hu in Ha.
    destruct (decide (a ∈ b0 :: l)) as [Hin|Hnotin].
    + rewrite Forall_forall in Hfree. by apply Ha, Hfree.
    + assert (Hum : IS_INUSE (mem s) a ≠ 0).
      { unfold IS_INUSE, hdr_next in *. by rewrite <- Hfr. }
      destruct (IH a Hum) as (x & Hx & Hpx).
      rewrite Forall_forall in Hlive. destruct (Hlive x Hx) as (Hin & _).
      apply Hnotin. by replace a with (a_ptr x - SZ_BLOCK_METADATA) by lia.
Qed.

End InUse.

Section Reuse.

Implicit Types (s : state) (live : list allocd) (m : gmap Z Z).

(** X13: in every reachable state a header word with the in-use bit
    set, at whatever address, is the header of a live allocation; when
    nothing is live, no word has the bit set. *)
Theorem inuse_blocks_are_live s live a :
  reachable (s, live) → IS_INUSE (mem s) a ≠ 0 →
  ∃ x, x ∈ live ∧ a_ptr x = a + SZ_BLOCK_METADATA.
Proof. intros Hreach Hu. exact (reachable_inuse_is_live _ Hreach a Hu). Qed.

Lemma inuse_blocks_are_live_witness :
  ∃ x, x ∈ [sample_y; sample_x] ∧ a_ptr x = 65560 + SZ_BLOCK_METADATA.
Proof.
  apply (inuse_blocks_are_live sample_s2 [sample_y; sample_x] 65560
           sample_reachable2).
  vm_compute. congruence.
Defined.

End Reuse.

(** * check_heap *)

Section CheckHeap.

Implicit Types (s : state) (live : list allocd) (m : gmap Z Z).

Lemma check_heap_loop_unfold fuel s tmp :
  check_heap_loop fuel s tmp =
    if Z.eqb tmp NULL then Some []
    else match fuel with
         | O => None
         | S fuel' =>
             rest ← check_heap_loop fuel' s (NEXT_ADDRESS (mem s) tmp);
             Some (line_of s tmp :: rest)
         end.
Proof. by destruct fuel. Qed.

(** On a tidy list the loop of [check_heap] prints one line per block,
    in the order of the list. *)
Lemma check_heap_loop_chain b0 top s :
  initial_brk b0 → top ≤ b0 + 4096 →
  ∀ (l : list Z) a fuel,
    Forall (addr_ok b0 top) (a :: l) → linked (mem s) (a :: l) →
    Forall (λ c, NEXT_ADDRESS (mem s) c ≠ c) (a :: l) →
    (length (a :: l) ≤ fuel)%nat →
    check_heap_loop fuel s a = Some (line_of s <$> a :: l).
Proof.
  intros Hb Htop.
  induction l as [|a' l IH]; intros a fuel Hok Hlk Hns Hlen;
    pose proof Hok as [[_ Hn]%(addr_ok_word b0 top Hb Htop) Hokl]%Forall_cons;
    pose proof Hns as [Hself Hnsl]%Forall_cons;
    (destruct fuel as [|fuel]; [cbn in Hlen; lia|]);
    rewrite check_heap_loop_unfold; (destruct (Z.eqb_spec a NULL); [done|]);
    destruct (linked_cases b0 top Hb Htop (mem s) NULL a _ word_addr_NULL Hok Hlk)
      as [(_ & _ & Hnext)|[(_ & _ & Hnext)|(_ & _ & Hnext)]]; try done;
    rewrite Hnext; cbn [hd].
  1,2: by rewrite check_heap_loop_unfold.
  all: rewrite (IH a' fuel Hokl); [done|by destruct Hlk|done|cbn in *; lia].
Qed.

Lemma accounted_cons ln lines :
  accounted (ln :: lines) = SZ_BLOCK_METADATA + l_alloc_size ln + accounted lines.
Proof. done. Qed.

(** The sizes printed for the blocks from [a] on, with their headers,
    add up to the distance from [a] to the end of the arena, as long as
    the last header lies inside the arena. *)
Lemma accounted_chain b0 top s :
  initial_brk b0 → top ≤ b0 + 4096 →
  start_of_heap (_h s) = b0 → size (_h s) = 4096 →
  ∀ (l : list Z) a,
    StronglySorted Z.lt (a :: l) →
    Forall (addr_ok b0 top) (a :: l) → linked (mem s) (a :: l) →
    Forall (λ c, NEXT_ADDRESS (mem s) c ≠ c) (a :: l) →
    (∀ t, last (a :: l) = Some t → t + 8 ≤ b0 + 4096) →
    accounted (line_of s <$> a :: l) = b0 + 4096 - a.
Proof.
  intros Hb Htop Hst Hsz. pose proof Hb as (Hpos & Hal & Hfit).
  induction l as [|a' l IH]; intros a Hs Hok Hlk Hns Hlast;
    pose proof Hok as [Hoka Hokl]%Forall_cons;
    pose proof Hoka as [[Hlo Hhi] Ha8];
    pose proof Hns as [Hself Hnsl]%Forall_cons;
    assert (Hsta : start a = a + 8)
      by (unfold start, SZ_BLOCK_METADATA; apply wrap_small;
          rewrite WORD_eq in *; lia);
    destruct (linked_cases b0 top Hb Htop (mem s) NULL a _ word_addr_NULL Hok Hlk)
      as [(_ & _ & Hnext)|[(_ & _ & Hnext)|(_ & _ & Hnext)]]; try done;
    rewrite fmap_cons, accounted_cons; unfold line_of at 1;
    cbn [l_alloc_size];
    unfold check_heap_alloc_size; rewrite Hnext, Hst, Hsz, Hsta; cbn [hd].
  1,2: specialize (Hlast a eq_refl); cbn [Z.eqb NULL];
    unfold SZ_BLOCK_METADATA; change (accounted (line_of s <$> [])) with 0;
    rewrite (wrap_small (b0 + 4096)) by (rewrite WORD_eq in *; lia);
    rewrite wrap_small by (rewrite WORD_eq in *; lia); lia.
  all: pose proof Hokl as [Hoka' _]%Forall_cons;
    destruct (addr_ok_word b0 top Hb Htop a' Hoka') as [_ Hn'];
    pose proof Hoka' as [[Hlo' Hhi'] Ha8'];
    pose proof Hs as [[Hlt _]%Forall_cons Hs']%StronglySorted_cons;
    (destruct (Z.eqb_spec a' NULL) as [|_]; [done|]);
    rewrite (IH a' Hs' Hokl); [|by destruct Hlk|done|by intros t Ht; apply Hlast];
    unfold SZ_BLOCK_METADATA, MY_ALIGNMENT_SZ in *;
    rewrite wrap_small; [lia|];
    rewrite WORD_eq in *; split; [|lia];
    Z.div_mod_to_equations; lia.
Qed.

End CheckHeap.

Section CheckHeapReport.

Implicit Types (s : state) (live : list allocd) (m : gmap Z Z).

Lemma line_of_blocks s (bl : list Z) : l_block <$> (line_of s <$> bl) = bl.
Proof. induction bl as [|a l IH]; [done|]. cbn. by f_equal. Qed.

(** X15: in a program none of whose requests has a footprint of 0,
    [check_heap] (the DEBUG build) terminates and prints one line per
    block of the chain, fewer than 514, at strictly ascending addresses.
    While the available counter is at least 8, the sizes printed and the
    headers add up to the capacity of the arena exactly: the blocks tile
    the arena without gap or overlap.  The lines flagged in use are
    exactly the live allocations, each with its pointer as user
    address. *)
Theorem check_heap_reports_the_chain s live fuel :
  reachable_nz (s, live) → start_of_heap (_h s) ≠ NULL →
  (ENOUGH ≤ fuel)%nat →
  ∃ lines,
    check_heap fuel s = Some (lines, Z.of_nat (length lines)) ∧
    (0 < length lines < ENOUGH)%nat ∧
    StronglySorted Z.lt (l_block <$> lines) ∧
    (8 ≤ available_size (_h s) → accounted lines = size (_h s)) ∧
    (∀ x, x ∈ live →
          ∃ ln, ln ∈ lines ∧ l_user_address ln = a_ptr x ∧ l_in_use ln = 1) ∧
    (∀ ln, ln ∈ lines → l_in_use ln ≠ 0 →
           ∃ x, x ∈ live ∧ a_ptr x = l_user_address ln).
Proof.
  intros Hreach Hstart Hfuel.
  pose proof (reachable_inuse_is_live _ (reachable_nz_reachable _ Hreach))
    as Hil.
  destruct (reachable_nz_tidy _ Hreach)
    as [(b & _ & [= -> ->])|(bl & Hinv & Hty)]; [exfalso; by apply Hstart|].
  cbn [fst snd] in *. destruct Hinv as (Hsz & Hav & Hb & Hc & Hnd).
  set (b0 := start_of_heap (_h s)) in *.
  set (top := b0 + 4096 - available_size (_h s)) in *.
  assert (Htop : top ≤ b0 + 4096) by (unfold top; lia).
  pose proof (block_count _ _ _ _ _ Htop Hc) as Hcount.
  destruct Hc as (Hhd & Hs & Hok & Hlk & Hlive). destruct Hty as [Hns Hlast].
  destruct bl as [|a l]; [done|]. injection Hhd as ->.
  pose proof Hb as (Hpos & Hal & Hfit).
  assert (Hstart_of : ∀ c, c ∈ b0 :: l → start c = c + 8).
  { intros c Hc. rewrite Forall_forall in Hok. destruct (Hok c Hc) as [[? ?] _].
    unfold start, SZ_BLOCK_METADATA. apply wrap_small. rewrite WORD_eq in *. lia. }
  exists (line_of s <$> b0 :: l).
  split; [|split; [|split; [|split; [|split]]]].
  - unfold check_heap. fold b0.
    rewrite (check_heap_loop_chain b0 top s Hb Htop l b0 fuel Hok Hlk Hns)
      by lia.
    done.
  - rewrite length_fmap. cbn [length] in *. lia.
  - by rewrite line_of_blocks.
  - intros Hav8. rewrite Hsz.
    rewrite (accounted_chain b0 top s Hb Htop eq_refl Hsz l b0 Hs Hok Hlk Hns);
      [lia|].
    intros t Ht. apply last_Some_elem_of in Ht.
    rewrite Forall_forall in Hok. destruct (Hok t Ht) as [[? ?] _].
    unfold top in *. lia.
  - intros x Hx. rewrite Forall_forall in Hlive.
    destruct (Hlive x Hx) as (Hin & Hodd & _).
    exists (line_of s (a_ptr x - SZ_BLOCK_METADATA)).
    split; [by apply list_elem_of_fmap_2|]. cbn [line_of l_user_address l_in_use].
    rewrite (Hstart_of _ Hin), IS_INUSE_odd. unfold SZ_BLOCK_METADATA in *.
    split; [lia|done].
  - intros ln (c & -> & Hc)%list_elem_of_fmap Hu.
    cbn [line_of l_user_address l_in_use] in *.
    destruct (Hil c Hu) as (x & Hx & Hpx). exists x. split; [done|].
    rewrite (Hstart_of _ Hc). exact Hpx.
Qed.

Lemma check_heap_reports_the_chain_witness :
  ∃ lines,
    check_heap ENOUGH sample_s2 = Some (lines, Z.of_nat (length lines)) ∧
    (0 < length lines < ENOUGH)%nat ∧
    StronglySorted Z.lt (l_block <$> lines) ∧
    (8 ≤ available_size (_h sample_s2) →
     accounted lines = size (_h sample_s2)) ∧
    (∀ x, x ∈ [sample_y; sample_x] →
          ∃ ln, ln ∈ lines ∧ l_user_address ln = a_ptr x ∧ l_in_use ln = 1) ∧
    (∀ ln, ln ∈ lines → l_in_use ln ≠ 0 →
           ∃ x, x ∈ [sample_y; sample_x] ∧ a_ptr x = l_user_address ln).
Proof.
  apply (check_heap_reports_the_chain sample_s2 [sample_y; sample_x] ENOUGH
           sample_reachable_nz2).
  - discriminate.
  - apply le_n.
Defined.

(** What [check_heap] prints on the sample state: three blocks, the two
    handed out and the free remainder. *)
Example check_heap_sample :
  check_heap 5 sample_s2
  = Some ([mkLine 65536 1 16 65544 65560; mkLine 65560 1 16 65568 65584;
           mkLine 65584 0 4040 65592 0], 3).
Proof. vm_compute. reflexivity. Qed.

End CheckHeapReport.

(** * Headers stay inside the arena *)

Section Bounds.

Implicit Types (m : gmap Z Z) (s : state) (live : list allocd) (bl : list Z).

Lemma keys_in_store lo hi m a v :
  keys_in lo hi m → lo ≤ a ≤ hi → keys_in lo hi (store m a v).
Proof.
  intros Hk Ha c. unfold store. destruct (decide (a = c)) as [<-|Hne]; [done|].
  rewrite lookup_insert_ne by done. apply Hk.
Qed.

Lemma keys_in_mono lo hi hi' m :
  hi ≤ hi' → keys_in lo hi m → keys_in lo hi' m.
Proof. intros Hle Hk c Hc. specialize (Hk c Hc). lia. Qed.

Lemma do_compact_keys lo hi fuel m a m' :
  keys_in lo hi m → lo ≤ a ≤ hi → do_compact fuel m a = Some m' →
  keys_in lo hi m'.
Proof. intros Hk Ha (r & _ & ->)%do_compact_inv. by apply keys_in_store. Qed.

(** The search loop stores only to headers of blocks of the list. *)
Lemma scan_keys b0 top aux live fuel :
  initial_brk b0 → top ≤ b0 + 4096 →
  ∀ m bl a t m',
    chain_ok b0 top m bl live → a = NULL ∨ a ∈ bl → keys_in b0 top m →
    scan fuel m a aux = Some (t, m') → keys_in b0 top m'.
Proof.
  intros Hb Htop.
  induction fuel as [|fuel IH]; intros m bl a t m' Hc Ha Hk;
    rewrite scan_unfold; destruct (Z.eqb_spec a NULL) as [->|Hn].
  1,3: by intros [= <- <-].
  { done. }
  destruct Ha as [|Ha]; [done|].
  pose proof Hc as (Hhd & Hs & Hok & Hlk & Hlive).
  pose proof Ha as (l1 & l & Hbl)%list_elem_of_split.
  assert (Hokl : Forall (addr_ok b0 top) (a :: l)).
  { rewrite Hbl in Hok. by apply Forall_app in Hok as [_ ?]. }
  assert (Hlkl : linked_to m NULL (a :: l)).
  { rewrite Hbl in Hlk. by apply linked_to_app in Hlk as [_ ?]. }
  assert (Hnext_in : hd NULL l = NULL ∨ hd NULL l ∈ bl).
  { destruct l as [|a' l']; [by left|right]. rewrite Hbl.
    apply elem_of_app. right. apply elem_of_cons. right.
    apply elem_of_cons. by left. }
  pose proof Hokl as [[Hra _] _]%Forall_cons.
  destruct (linked_cases b0 top Hb Htop m NULL a l word_addr_NULL Hokl Hlkl)
    as [(_ & Hf & _)|[(_ & Hu & Hnext)|(_ & Hu & Hnext)]].
  - rewrite Hf. cbn [Z.eqb].
    destruct (do_compact fuel m a) as [m1|] eqn:Hdc; [|done].
    pose proof (do_compact_keys _ _ _ _ _ _ Hk Hra Hdc) as Hk1.
    destruct (do_compact_chain b0 top Hb Htop m bl live fuel a m1 Hc Ha Hf Hdc)
      as (k1 & frees & k2 & Hbl' & Hc1 & -> & Hstop).
    assert (Hload : load (store m a (hd NULL k2)) a = hd NULL k2)
      by apply load_store_eq.
    destruct (Z.geb _ aux) eqn:Hfit.
    + by intros [= <- <-].
    + intros Hscan. eapply IH; [exact Hc1| |exact Hk1|exact Hscan].
      assert (Hw : word_addr (hd NULL k2)).
      { apply (hd_word b0 top Hb Htop); [apply word_addr_NULL|].
        destruct Hc1 as (_ & _ & Hok1 & _).
        by apply Forall_app in Hok1 as [_ [_ ?]%Forall_cons]. }
      unfold NEXT_ADDRESS, hdr_next. rewrite Hload.
      rewrite (proj1 (proj2 (decode_free _ Hw))).
      destruct k2 as [|c k2]; [by left|right].
      apply elem_of_app. right. apply elem_of_cons. right.
      apply elem_of_cons. by left.
  - rewrite Hu. cbn [Z.eqb]. rewrite Hnext. intros Hscan.
    eapply IH; [exact Hc|exact Hnext_in|exact Hk|exact Hscan].
  - rewrite Hu. cbn [Z.eqb]. rewrite Hnext.
    rewrite scan_self_loop; [done..|lia|done].
Qed.

(** The loop of [reset_heap] stores only to headers of blocks of the
    list. *)
Lemma reset_loop_keys b0 top fuel :
  initial_brk b0 → top ≤ b0 + 4096 →
  ∀ m a (l : list Z) m',
    StronglySorted Z.lt (a :: l) → Forall (addr_ok b0 top) (a :: l) →
    linked m (a :: l) → keys_in b0 top m →
    reset_loop fuel m a = Some m' → keys_in b0 top m'.
Proof.
  intros Hb Htop.
  induction fuel as [|fuel IH]; intros m a l m' Hs Hok Hlk Hk;
    pose proof Hok as [Hoka Hokl]%Forall_cons;
    pose proof (addr_ok_word b0 top Hb Htop a Hoka) as [Hwa Hn];
    rewrite reset_loop_unfold; destruct (Z.eqb_spec a NULL); try done.
  rewrite UNSET_INUSE_next.
  assert (Hk1 : keys_in b0 top (UNSET_INUSE m a))
    by (apply keys_in_store; [done|apply Hoka]).
  assert (Hnormal : NEXT_ADDRESS m a = hd NULL l →
    reset_loop fuel (UNSET_INUSE m a) (hd NULL l) = Some m' →
    keys_in b0 top m').
  { intros Hnext Hloop. destruct l as [|a' l'].
    - rewrite reset_loop_unfold in Hloop. cbn in Hloop. by injection Hloop as <-.
    - cbn [hd] in *.
      pose proof Hs as [Hlt Hs']%StronglySorted_cons.
      destruct Hlk as [_ Hlk'].
      eapply (IH (UNSET_INUSE m a) a' l' m' Hs' Hokl); [|exact Hk1|exact Hloop].
      eapply linked_to_frame; [|exact Hlk'].
      intros c Hc. apply load_store_ne. intros <-.
      rewrite Forall_forall in Hlt. specialize (Hlt a Hc). lia. }
  destruct (linked_cases b0 top Hb Htop m NULL a l word_addr_NULL Hok Hlk)
    as [(_ & _ & Hnext)|[(_ & _ & Hnext)|(_ & _ & Hnext)]];
    rewrite Hnext; try (by apply Hnormal).
  by rewrite reset_loop_self_loop by (by rewrite ?UNSET_INUSE_next).
Qed.

Lemma in_bounds_initial b : in_bounds (initial_state b).
Proof.
  intros c [v Hv]. unfold initial_state in Hv. cbn [mem] in Hv.
  by rewrite lookup_empty in Hv.
Qed.

Lemma ready_in_bounds s live :
  invariant (s, live) → in_bounds s → in_bounds (ready s).
Proof.
  intros [(b & Hb & [= -> ->])|[bl Hinv]] Hk.
  - unfold ready, init_heap, in_bounds. cbn.
    apply keys_in_store; [|lia]. intros c [v Hv]. by rewrite lookup_empty in Hv.
  - cbn in Hinv. destruct Hinv as (Hsz & _).
    rewrite ready_initialised by lia. done.
Qed.

Lemma mymalloc_in_bounds fuel n s p s' live :
  0 ≤ n < WORD → invariant (s, live) → in_bounds s →
  mymalloc fuel n s = Some (p, s') → in_bounds s'.
Proof.
  intros Hn Hinv Hk Hm.
  pose proof (ready_in_bounds s live Hinv Hk) as Hk1.
  destruct (ready_inv s live Hinv) as [bl Hr].
  apply mymalloc_cases in Hm. cbv zeta in Hm.
  revert Hr Hk1 Hm. generalize (ready s). clear s Hinv Hk. intros s Hr Hk Hm.
  destruct Hr as (Hsz & Hav & Hb & Hc & Hnd).
  destruct Hm as [(_ & _ & ->)|(Hle & tmp & m & Hscan & Hm)]; [done|].
  assert (Htop : start_of_heap (_h s) + 4096 - available_size (_h s)
                 ≤ start_of_heap (_h s) + 4096) by lia.
  assert (Hhead : start_of_heap (_h s) = NULL ∨ start_of_heap (_h s) ∈ bl).
  { right. destruct Hc as (Hhd & _). destruct bl; [done|].
    injection Hhd as ->. apply elem_of_cons. by left. }
  unfold in_bounds in Hk. rewrite Hsz in Hk.
  pose proof (scan_keys _ _ _ live fuel Hb Htop _ _ _ _ _ Hc Hhead Hk Hscan)
    as Hkm.
  destruct Hm as [(_ & _ & ->)|(Hnn & Hm)].
  { unfold in_bounds. cbn [_h mem]. by rewrite Hsz. }
  eapply (scan_chain _ _ Hb Htop) in Hscan as (bl' & Hc' & Ht);
    [|exact Hc|exact Hhead].
  destruct Ht as [|(l1 & l2 & -> & Hfree & Hfit)]; [done|].
  destruct Hc' as (_ & _ & Hok & _).
  apply Forall_app in Hok as [_ [[[Hlo Hhi] _] _]%Forall_cons].
  pose proof (aux_size_of_range n) as Hr.
  assert (Hmem : mem s' = mem (hand_over s m tmp (aux_size_of n)).2)
    by (by rewrite <- Hm).
  assert (Hh : _h s' = _h (hand_over s m tmp (aux_size_of n)).2)
    by (by rewrite <- Hm).
  rewrite hand_over_mem in Hmem. unfold hand_over in Hh. cbn [snd _h] in Hh.
  rewrite wrap_small in Hh by (rewrite WORD_eq; lia).
  unfold in_bounds. rewrite Hh, Hmem.
  cbn [start_of_heap size available_size]. rewrite Hsz.
  pose proof Hb as (Hpos & _ & Hfit').
  assert (Hkm' : keys_in (start_of_heap (_h s))
                   (start_of_heap (_h s) + 4096
                    - (available_size (_h s) - aux_size_of n)) m)
    by (eapply keys_in_mono; [|exact Hkm]; lia).
  destruct (needs_split m tmp (aux_size_of n)).
  - apply keys_in_store; [apply keys_in_store; [done|]|lia].
    rewrite wrap_small by (rewrite WORD_eq in *; lia). lia.
  - apply keys_in_store; [done|lia].
Qed.

Lemma myfree_in_bounds fuel x s s' live :
  invariant (s, live) → x ∈ live → in_bounds s →
  myfree fuel (a_ptr x) s = Some s' → in_bounds s'.
Proof.
  intros [(b & _ & [= -> ->])|[bl Hinv]] Hx Hk;
    [by apply elem_of_nil in Hx|].
  cbn [fst snd] in *. destruct Hinv as (Hsz & Hav & Hb & Hc & Hnd).
  destruct Hc as (_ & _ & Hok & _ & Hlive).
  rewrite Forall_forall in Hlive. rewrite Forall_forall in Hok.
  destruct (Hlive x Hx) as (Hin & _). destruct (Hok _ Hin) as [Hr Hal].
  pose proof Hb as (Hpos & _ & Hfit).
  unfold myfree. destruct (Z.eqb_spec (a_ptr x) NULL) as [|_]; [by intros [= <-]|].
  rewrite wrap_small by (rewrite WORD_eq in *; lia).
  destruct (do_compact fuel _ _) as [m'|] eqn:Hdc; [|done].
  intros [= <-]. unfold in_bounds in *. cbn [_h mem].
  rewrite Hsz in *.
  eapply do_compact_keys; [|exact Hr|exact Hdc].
  apply keys_in_store; done.
Qed.

Lemma reset_heap_in_bounds fuel s s' live :
  invariant (s, live) → start_of_heap (_h s) ≠ NULL → in_bounds s →
  reset_heap fuel s = Some s' → in_bounds s'.
Proof.
  intros [(b & _ & [= -> ->])|[bl Hinv]] Hstart Hk; [done|].
  destruct Hinv as (Hsz & Hav & Hb & Hc & Hnd). cbn [fst snd] in *.
  unfold in_bounds in *. rewrite Hsz in Hk.
  set (b0 := start_of_heap (_h s)) in *.
  set (top := b0 + 4096 - available_size (_h s)) in *.
  assert (Htop : top ≤ b0 + 4096) by (unfold top; lia).
  destruct Hc as (Hhd & Hs & Hok & Hlk & _).
  destruct bl as [|a l]; [done|]. injection Hhd as ->.
  unfold reset_heap. fold b0.
  destruct (reset_loop fuel (mem s) b0) as [m1|] eqn:Hloop; [|done].
  destruct (do_compact fuel m1 b0) as [m2|] eqn:Hdc; [|done].
  intros [= <-]. cbn [_h mem]. rewrite Hsz. fold b0. fold top.
  pose proof Hok as [[Hr _] _]%Forall_cons.
  eapply do_compact_keys; [|exact Hr|exact Hdc].
  by eapply (reset_loop_keys b0 top fuel Hb Htop (mem s) b0 l m1).
Qed.

(** In every state a program reaches, the header words the allocator has
    written all lie in the part of the arena counted as handed out. *)
Lemma reachable_in_bounds c : reachable c → in_bounds c.1.
Proof.
  induction 1 as [b Hb|c c' Hreach IH Hstep]; [apply in_bounds_initial|].
  apply reachable_invariant in Hreach.
  destruct Hstep as [fuel n s p s' live Hn Hm|fuel s s' live Hf
                    |fuel a s s' live Ha Hf|fuel s s' live Hs Hr];
    cbn [fst snd] in *.
  - by eapply mymalloc_in_bounds.
  - unfold myfree in Hf. cbn in Hf. by injection Hf as <-.
  - by eapply myfree_in_bounds.
  - by eapply reset_heap_in_bounds.
Qed.

Lemma in_bounds_inside s :
  in_bounds s → 8 ≤ available_size (_h s) → headers_inside s.
Proof.
  intros Hk Hav c Hc. specialize (Hk c Hc). unfold SZ_BLOCK_METADATA. lia.
Qed.

(** The footprints recorded for live allocations are multiples of 8 and
    not negative. *)
Lemma reachable_footprints c : reachable c → Forall footprint_ok c.2.
Proof.
  induction 1 as [b Hb|c c' Hreach IH Hstep]; [constructor|].
  destruct Hstep as [fuel n s p s' live Hn Hm|fuel s s' live Hf
                    |fuel a s s' live Ha Hf|fuel s s' live Hs Hr];
    cbn [fst snd] in *; [|done| |constructor].
  - destruct (Z.eqb p NULL); [done|]. apply Forall_cons. split; [|done].
    split; cbn [a_footprint]; [apply aux_size_of_range|apply aux_size_of_aligned].
  - rewrite Forall_forall in IH |- *.
    intros x [Hx _]%drop_ptr_spec. by apply IH.
Qed.

(** A request served while the counter exceeds the footprint by at least
    one header leaves every header inside the arena. *)
Lemma served_inside s live fuel n p s' :
  reachable (s, live) → 0 ≤ n < WORD →
  mymalloc fuel n s = Some (p, s') → p ≠ NULL →
  aux_size_of n + SZ_BLOCK_METADATA ≤ available_size (_h (ready s)) →
  available_size (_h s') = available_size (_h (ready s)) - aux_size_of n ∧
  headers_inside s'.
Proof.
  intros Hreach Hn Hm Hp Hle.
  destruct (mymalloc_block fuel n s p s' live (reachable_invariant _ Hreach)
              Hn Hm Hp) as (tmp & _ & _ & _ & _ & _ & _ & Hh & _).
  assert (Hav : available_size (_h s')
                = available_size (_h (ready s)) - aux_size_of n)
    by (by rewrite Hh).
  split; [done|].
  apply in_bounds_inside; [|unfold SZ_BLOCK_METADATA in Hle; lia].
  apply (reachable_in_bounds (s', if Z.eqb p NULL then live
                                  else mkAllocd p (aux_size_of n) :: live)).
  eapply reach_step; [exact Hreach|]. by eapply step_malloc.
Qed.

End Bounds.

(** * The last block is taken whatever its size *)

Section TooSmall.

(** C6: the search does not stop on the first free block that is large
    enough: it takes the last block of the chain whatever its size.  On
    a fresh heap whose arena starts at 65536 a request of 4080 bytes has
    a padded footprint of 4096.  The only block is free and coalesced
    (its next reference is NULL) and its size, the distance from its
    payload to the end of the arena that [check_heap] reports, is 4088,
    less than the footprint.  [BLOCK_SIZE] evaluates to [2^64 - 65544]
    for it, so the fit test passes and [mymalloc] returns the payload
    address of a block that is too small; the remainder's header is
    written at 69632, the first address past the arena. *)
Theorem first_fit_takes_too_small_last_block :
  let s := ready (initial_state 65536) in
  let aux := aux_size_of 4080 in
  ∃ m s',
    aux = 4096 ∧
    scan 2 (mem s) (start_of_heap (_h s)) aux = Some (65536, m) ∧
    IS_INUSE m 65536 = 0 ∧ NEXT_ADDRESS m 65536 = NULL ∧
    true_size s m 65536 = 4088 ∧
    true_size s m 65536 < aux ∧
    BLOCK_SIZE m 65536 = WORD - 65544 ∧
    mymalloc 2 4080 (initial_state 65536) = Some (65544, s') ∧
    65544 = start 65536 ∧
    start_of_heap (_h s') + size (_h s') = 69632 ∧
    mem s' !! 69632 = Some 0.
Proof.
  cbv zeta. eexists _, _.
  repeat (split; [vm_compute; reflexivity|]). vm_compute; reflexivity.
Qed.

(** C8: the chosen block is split although it has no room for the
    footprint plus a header plus an alignment unit, whenever it is the
    last block of the chain.  On a fresh heap whose arena starts at
    65536 a request of 4064 bytes has a padded footprint of 4080; the
    only block has a size of 4088, less than 4080 + 8 + 8, yet the split
    test passes ([BLOCK_SIZE] is [2^64 - 65544]): a header is written at
    65536 + 4080 and the block handed over shrinks to 4072 bytes instead
    of being handed over whole.  After a request of 4056 bytes the same
    happens to a request of 0 bytes (footprint 16): the last block, at
    69608, has a size of 16, less than 16 + 8 + 8, and is split; the
    remainder's header lands at 69624 and its payload would start at the
    end of the arena. *)
Theorem split_without_room_on_last_block :
  let s := ready (initial_state 65536) in
  (∃ m s',
     aux_size_of 4064 = 4080 ∧
     scan 2 (mem s) (start_of_heap (_h s)) 4080 = Some (65536, m) ∧
     true_size s m 65536 = 4088 ∧
     true_size s m 65536 < 4080 + SZ_BLOCK_METADATA + MY_ALIGNMENT_SZ ∧
     needs_split m 65536 4080 = true ∧
     mymalloc 2 4064 (initial_state 65536) = Some (65544, s') ∧
     mem s' = <[65536 := 69617]> (<[69616 := 0]> m) ∧
     true_size s' (mem s') 65536 = 4072) ∧
  (∃ s1 m s2,
     mymalloc 2 4056 (initial_state 65536) = Some (65544, s1) ∧
     aux_size_of 0 = 16 ∧
     scan 3 (mem s1) (start_of_heap (_h s1)) 16 = Some (69608, m) ∧
     true_size s1 m 69608 = 16 ∧
     true_size s1 m 69608 < 16 + SZ_BLOCK_METADATA + MY_ALIGNMENT_SZ ∧
     needs_split m 69608 16 = true ∧
     mymalloc 3 0 s1 = Some (69616, s2) ∧
     mem s2 = <[69608 := 69625]> (<[69624 := 0]> m) ∧
     start 69624 = start_of_heap (_h s2) + size (_h s2)).
Proof.
  cbv zeta. split.
  - eexists _, _.
    repeat (split; [vm_compute; reflexivity|]). vm_compute; reflexivity.
  - eexists _, _, _.
    repeat (split; [vm_compute; reflexivity|]). vm_compute; reflexivity.
Qed.

End TooSmall.

(** * Alignment and bounds of what is handed out *)

Section HandedOut.

Implicit Types (s : state) (live : list allocd).

(** X1: where a pointer returned by [mymalloc] lies.  Its offset from
    the arena base is a multiple of the alignment unit, and so is the
    pointer itself, the break the arena was obtained at being a multiple
    of 8 in the states considered.  It is at least [start_of_heap + 8];
    the padded footprint, counted from the header eight bytes below the
    pointer, ends inside the part of the arena that the counter, as the
    call leaves it, counts as handed out; and when the footprint is not
    0 the header itself lies inside that part. *)
Theorem mymalloc_pointer_aligned s live fuel n p s' :
  reachable (s, live) → 0 ≤ n < WORD →
  mymalloc fuel n s = Some (p, s') → p ≠ NULL →
  (p - start_of_heap (_h s')) mod MY_ALIGNMENT_SZ = 0 ∧
  p mod MY_ALIGNMENT_SZ = 0 ∧
  start_of_heap (_h s') + SZ_BLOCK_METADATA ≤ p ∧
  p - SZ_BLOCK_METADATA + aux_size_of n
    ≤ start_of_heap (_h s') + size (_h s') - available_size (_h s') ∧
  0 ≤ available_size (_h s') ∧
  (aux_size_of n ≠ 0 →
   p ≤ start_of_heap (_h s') + size (_h s') - available_size (_h s')).
Proof.
  intros Hinv%reachable_invariant Hn Hm Hp.
  destruct (mymalloc_block fuel n s p s' live Hinv Hn Hm Hp)
    as (tmp & -> & [[Hlo Hhi] Hal] & (_ & Hb8 & _) & Hsz & Haux & Hav & Hh & _).
  pose proof (aux_size_of_aligned n) as Ha8.
  rewrite Hh. cbn [start_of_heap size available_size]. rewrite Hsz.
  unfold MY_ALIGNMENT_SZ, SZ_BLOCK_METADATA in *.
  split; [Z.div_mod_to_equations; lia|].
  split; [Z.div_mod_to_equations; lia|].
  split; [lia|]. split; [lia|]. split; [lia|].
  intros Hnz. Z.div_mod_to_equations. lia.
Qed.

Lemma mymalloc_pointer_aligned_witness :
  (65568 - start_of_heap (_h sample_s2)) mod MY_ALIGNMENT_SZ = 0 ∧
  65568 mod MY_ALIGNMENT_SZ = 0 ∧
  start_of_heap (_h sample_s2) + SZ_BLOCK_METADATA ≤ 65568 ∧
  65568 - SZ_BLOCK_METADATA + aux_size_of 10
    ≤ start_of_heap (_h sample_s2) + size (_h sample_s2)
      - available_size (_h sample_s2) ∧
  0 ≤ available_size (_h sample_s2) ∧
  (aux_size_of 10 ≠ 0 →
   65568 ≤ start_of_heap (_h sample_s2) + size (_h sample_s2)
           - available_size (_h sample_s2)).
Proof.
  apply (mymalloc_pointer_aligned sample_s1 [sample_x] 5 10 65568 sample_s2
           sample_reachable1 sample_size sample_malloc2).
  discriminate.
Defined.

(** X2: for every live allocation, the bytes from its header up to the
    end of its padded footprint lie in the arena, in the part that the
    available counter counts as handed out; the footprint is not
    negative, and when it is not 0 the whole header lies in that part
    too.  The counter is never negative and the arena does not wrap
    around the address space. *)
Theorem live_allocations_in_arena s live x :
  reachable (s, live) → x ∈ live →
  start_of_heap (_h s) ≤ a_ptr x - SZ_BLOCK_METADATA ∧
  a_ptr x - SZ_BLOCK_METADATA + a_footprint x
    ≤ start_of_heap (_h s) + size (_h s) - available_size (_h s) ∧
  0 ≤ a_footprint x ∧
  (a_footprint x ≠ 0 →
   a_ptr x ≤ start_of_heap (_h s) + size (_h s) - available_size (_h s)) ∧
  0 ≤ available_size (_h s) ∧
  start_of_heap (_h s) + size (_h s) < WORD.
Proof.
  intros Hreach Hx.
  pose proof (reachable_in_arena _ Hreach) as Harena.
  pose proof (reachable_footprints _ Hreach) as Hfp.
  apply reachable_invariant in Hreach as [(b & _ & [= -> ->])|[bl Hinv]];
    [by apply elem_of_nil in Hx|].
  destruct Hinv as (Hsz & Hav & (Hpos & _ & Hfit) & _).
  cbn [fst snd] in *. rewrite Forall_forall in Harena.
  rewrite Forall_forall in Hfp.
  destruct (Harena x Hx) as [H1 H2]. destruct (Hfp x Hx) as [H3 H4].
  unfold MY_ALIGNMENT_SZ, SZ_BLOCK_METADATA in *.
  split; [done|]. split; [done|]. split; [done|].
  split; [intros Hnz; Z.div_mod_to_equations; lia|].
  split; [lia|]. rewrite Hsz. rewrite WORD_eq in *. lia.
Qed.

Lemma live_allocations_in_arena_witness :
  start_of_heap (_h sample_s2) ≤ a_ptr sample_y - SZ_BLOCK_METADATA ∧
  a_ptr sample_y - SZ_BLOCK_METADATA + a_footprint sample_y
    ≤ start_of_heap (_h sample_s2) + size (_h sample_s2)
      - available_size (_h sample_s2) ∧
  0 ≤ a_footprint sample_y ∧
  (a_footprint sample_y ≠ 0 →
   a_ptr sample_y ≤ start_of_heap (_h sample_s2) + size (_h sample_s2)
                    - available_size (_h sample_s2)) ∧
  0 ≤ available_size (_h sample_s2) ∧
  start_of_heap (_h sample_s2) + size (_h sample_s2) < WORD.
Proof.
  apply (live_allocations_in_arena sample_s2 [sample_y; sample_x] sample_y
           sample_reachable2).
  apply elem_of_cons. by left.
Defined.

(** X16: the header words the allocator has written all start between
    the arena base and the end of the part of the arena counted as
    handed out, [start_of_heap + size - available_size]; so while the
    counter is at least one header, every header written so far lies,
    with all its bytes, inside the arena. *)
Theorem headers_stay_in_arena s live :
  reachable (s, live) →
  in_bounds s ∧ (8 ≤ available_size (_h s) → headers_inside s).
Proof.
  intros Hreach. pose proof (reachable_in_bounds _ Hreach) as Hk.
  split; [done|]. by apply in_bounds_inside.
Qed.

Lemma headers_stay_in_arena_witness :
  in_bounds sample_s2 ∧
  (8 ≤ available_size (_h sample_s2) → headers_inside sample_s2).
Proof.
  exact (headers_stay_in_arena sample_s2 [sample_y; sample_x]
           sample_reachable2).
Defined.

End HandedOut.

(** * Calls that return, and what they leave in the arena *)

Section Served.

Implicit Types (m : gmap Z Z) (s : state) (live : list allocd) (bl : list Z).

(** Along free blocks of the list the first block in use, or the
    terminal marker, is where the free blocks end. *)
Lemma first_stop_along b0 top m :
  initial_brk b0 → top ≤ b0 + 4096 →
  ∀ (frees l2 : list Z),
    Forall (addr_ok b0 top) (frees ++ l2) → linked m (frees ++ l2) →
    Forall (λ c, IS_INUSE m c = 0) frees →
    l2 = [] ∨ IS_INUSE m (hd NULL l2) ≠ 0 →
    first_stop m (hd NULL (frees ++ l2)) (hd NULL l2).
Proof.
  intros Hb Htop. induction frees as [|c frees IH]; intros l2 Hok Hlk Hfr Hstop.
  - cbn [app]. destruct l2 as [|c l2]; [apply fs_null|]. cbn [hd] in *.
    destruct Hstop as [|Hu]; [done|].
    apply Forall_cons in Hok as [[_ Hn]%(addr_ok_word b0 top Hb Htop) _].
    by apply fs_inuse.
  - cbn [app hd] in *.
    pose proof Hok as [[_ Hn]%(addr_ok_word b0 top Hb Htop) Hokl]%Forall_cons.
    apply Forall_cons in Hfr as [Hf Hfr].
    apply fs_free; [done..|].
    destruct (linked_cases b0 top Hb Htop m NULL c _ word_addr_NULL Hok Hlk)
      as [(_ & _ & Hnext)|[(_ & Hu & _)|(_ & Hu & _)]]; [|congruence..].
    rewrite Hnext. apply IH; [done| |done..]. by destruct Hlk.
Qed.

Lemma running_inside a s live :
  running a s live → 8 ≤ a → headers_inside s.
Proof.
  intros [Hreach Hav] Ha.
  pose proof (reachable_nz_reachable _ Hreach) as Hr.
  destruct (reachable_invariant _ Hr) as [(b & _ & [= -> ->])|[bl (Hsz & _)]].
  - intros c [v Hv]. unfold initial_state in Hv. cbn [mem] in Hv.
    by rewrite lookup_empty in Hv.
  - cbn [fst] in Hsz. rewrite ready_initialised in Hav by lia.
    apply in_bounds_inside; [apply (reachable_in_bounds _ Hr)|lia].
Qed.

(** X5: in a program none of whose requests has a footprint of 0, a
    request whose padded footprint plus one header is at most the
    available counter is served: [mymalloc] returns a pointer that is
    not NULL, the counter drops by the footprint, and every header
    written so far, the remainder's included, lies inside the arena.
    The search never comes back empty-handed, because the last block is
    free and always passes the fit test. *)
Theorem mymalloc_serves_within_counter s live fuel n :
  reachable_nz (s, live) → 0 ≤ n < WORD →
  aux_size_of n + SZ_BLOCK_METADATA ≤ available_size (_h (ready s)) →
  (ENOUGH ≤ fuel)%nat →
  ∃ p s',
    mymalloc fuel n s = Some (p, s') ∧ p ≠ NULL ∧
    available_size (_h s') = available_size (_h (ready s)) - aux_size_of n ∧
    headers_inside s'.
Proof.
  intros Hreach Hn Hle Hfuel.
  pose proof (reachable_nz_tidy _ Hreach) as Hti.
  destruct (mymalloc_progress fuel n s live Hti Hn
              ltac:(unfold SZ_BLOCK_METADATA in Hle; lia) Hfuel)
    as (p & s' & Hm & Hp).
  exists p, s'. split; [done|]. split; [done|].
  exact (served_inside s live fuel n p s' (reachable_nz_reachable _ Hreach)
           Hn Hm Hp Hle).
Qed.

Lemma mymalloc_serves_within_counter_witness :
  ∃ p s',
    mymalloc ENOUGH 10 sample_s2 = Some (p, s') ∧ p ≠ NULL ∧
    available_size (_h s')
    = available_size (_h (ready sample_s2)) - aux_size_of 10 ∧
    headers_inside s'.
Proof.
  apply (mymalloc_serves_within_counter sample_s2 [sample_y; sample_x]
           ENOUGH 10 sample_reachable_nz2 sample_size).
  - vm_compute. congruence.
  - apply le_n.
Defined.

(** X6: in a program none of whose requests has a footprint of 0, and
    while the available counter is at least one header, [myfree] of a
    live pointer returns.  The block behind the pointer, in use before
    the call, is free after it and coalesced: its next reference is the
    first block in use met by following next references from its old
    successor, or NULL when all the blocks that follow are free.  No
    other header word changes, every header lies inside the arena and
    the heap record is untouched; the freed allocation is no longer
    live, the others are, and the program can go on from the state
    left. *)
Theorem myfree_live_pointer_returns s live fuel x :
  reachable_nz (s, live) → x ∈ live →
  SZ_BLOCK_METADATA ≤ available_size (_h s) → (ENOUGH ≤ fuel)%nat →
  let blk := a_ptr x - SZ_BLOCK_METADATA in
  ∃ s', myfree fuel (a_ptr x) s = Some s' ∧ _h s' = _h s ∧
        IS_INUSE (mem s) blk = 1 ∧
        IS_INUSE (mem s') blk = 0 ∧ coalesced (mem s') blk ∧
        first_stop (mem s) (NEXT_ADDRESS (mem s) blk)
                   (NEXT_ADDRESS (mem s') blk) ∧
        (∀ c, c ≠ blk → mem s' !! c = mem s !! c) ∧
        headers_inside s' ∧
        reachable_nz (s', drop_ptr (a_ptr x) live) ∧
        (x ∉ drop_ptr (a_ptr x) live) ∧
        ∀ y, y ∈ live → y ≠ x → y ∈ drop_ptr (a_ptr x) live.
Proof.
  intros Hreach Hx Hroom Hfuel. cbv zeta.
  pose proof (reachable_nz_tidy _ Hreach) as Hti.
  destruct (myfree_progress fuel x s live Hti Hx Hfuel) as [s' Hf].
  exists s'. split; [done|]. split; [by eapply myfree_heap|].
  assert (Hmem : IS_INUSE (mem s) (a_ptr x - SZ_BLOCK_METADATA) = 1 ∧
    IS_INUSE (mem s') (a_ptr x - SZ_BLOCK_METADATA) = 0 ∧
    coalesced (mem s') (a_ptr x - SZ_BLOCK_METADATA) ∧
    first_stop (mem s)
      (NEXT_ADDRESS (mem s) (a_ptr x - SZ_BLOCK_METADATA))
      (NEXT_ADDRESS (mem s') (a_ptr x - SZ_BLOCK_METADATA)) ∧
    (∀ c, c ≠ a_ptr x - SZ_BLOCK_METADATA → mem s' !! c = mem s !! c)).
  { destruct Hti as [(b & _ & [= -> ->])|(bl & Hinv & Hty)];
      [by apply elem_of_nil in Hx|].
    cbn [fst snd] in *.
    destruct (myfree_unset s live bl x Hinv Hty Hx)
      as (Hp & Hwrap & Hin & Hf0 & Hc0 & Hty0).
    destruct Hinv as (Hsz & Hav & Hb & Hc & Hnd).
    set (blk := a_ptr x - SZ_BLOCK_METADATA) in *.
    set (b0 := start_of_heap (_h s)) in *.
    set (top := b0 + 4096 - available_size (_h s)) in *.
    assert (Htop : top ≤ b0 + 4096) by (unfold top; lia).
    unfold myfree in Hf.
    destruct (Z.eqb_spec (a_ptr x) NULL) as [|_]; [done|].
    change (a_ptr x - SZ_BLOCK_METADATA) with blk in Hf.
    rewrite Hwrap in Hf.
    destruct (do_compact fuel (UNSET_INUSE (mem s) blk) blk) as [m'|] eqn:Hdc;
      [|done].
    injection Hf as <-. cbn [mem].
    pose proof Hc as (_ & Hs & Hok & Hlk & Hlive).
    rewrite Forall_forall in Hlive. destruct (Hlive x Hx) as (_ & Hodd & _).
    fold blk in Hodd.
    pose proof Hin as (l1 & l2 & Hbl)%list_elem_of_split.
    rewrite Hbl in Hok, Hlk.
    pose proof Hok as [_ Hokl]%Forall_app.
    pose proof Hokl as [Hokb Hok2]%Forall_cons.
    pose proof Hlk as [_ [_ Hlk2]]%linked_to_app.
    destruct (addr_ok_word b0 top Hb Htop blk Hokb) as [Hwb Hbn].
    destruct (do_compact_scan_frame 0 fuel _ blk m' Hbn Hf0 Hdc)
      as (_ & _ & Hfree' & Hco').
    pose proof Hdc as (r & Hw & Hm')%do_compact_inv.
    split; [by rewrite IS_INUSE_odd|]. split; [done|]. split; [done|].
    split.
    - pose proof Hc0 as (_ & _ & _ & Hlk0 & _). rewrite Hbl in Hlk0.
      pose proof Hlk0 as [_ Hlkl0]%linked_to_app.
      destruct (walk_chain b0 top Hb Htop _ fuel blk l2 r Hokl Hlkl0 Hf0 Hw)
        as (frees & k2 & Hl2 & Hfrees & Hr & Hstop).
      assert (Hne : ∀ c, c ∈ l2 → c ≠ blk).
      { intros c Hcin. apply (chain_ok_sorted_ne bl l1 blk l2 c Hs Hbl).
        apply elem_of_app. by right. }
      assert (Hsame : ∀ c, c ∈ l2 →
                IS_INUSE (UNSET_INUSE (mem s) blk) c = IS_INUSE (mem s) c).
      { intros c Hcin. unfold IS_INUSE, hdr_next, UNSET_INUSE.
        rewrite load_store_ne; [done|]. intros Heq. by apply (Hne c). }
      assert (Hnext' : NEXT_ADDRESS m' blk = r).
      { destruct Hco' as [<- _]. unfold hdr_next. rewrite Hm'.
        apply load_store_eq. }
      assert (Hnext : NEXT_ADDRESS (mem s) blk = hd NULL l2).
      { rewrite <- UNSET_INUSE_next.
        destruct (linked_cases b0 top Hb Htop _ NULL blk l2 word_addr_NULL
                    Hokl Hlkl0)
          as [(_ & _ & Hn)|[(_ & Hu & _)|(_ & Hu & _)]]; [done|congruence..]. }
      rewrite Hnext', Hnext, Hr, Hl2. rewrite Hl2 in Hok2, Hlk2, Hsame.
      apply (first_stop_along b0 top (mem s) Hb Htop frees k2 Hok2 Hlk2).
      + rewrite Forall_forall in Hfrees |- *. intros c Hcin.
        rewrite <- Hsame; [by apply Hfrees|]. apply elem_of_app. by left.
      + destruct k2 as [|c k2]; [by left|].
        destruct Hstop as [|Hu]; [done|right]. cbn [hd] in *.
        rewrite <- Hsame; [done|].
        apply elem_of_app. right. apply elem_of_cons. by left.
    - intros c Hne. rewrite Hm'. unfold store, UNSET_INUSE, store.
      by rewrite !lookup_insert_ne. }
  destruct Hmem as (H1 & H2 & H3 & H4 & H5).
  do 5 (split; [done|]).
  pose proof (reach_nz_free fuel x s s' live Hreach Hx Hf) as Hreach'.
  split.
  { apply in_bounds_inside.
    - exact (reachable_in_bounds _ (reachable_nz_reachable _ Hreach')).
    - rewrite (myfree_heap _ _ _ _ Hf). unfold SZ_BLOCK_METADATA in Hroom. lia. }
  split; [done|]. split.
  - rewrite drop_ptr_spec. tauto.
  - intros y Hy Hne. apply drop_ptr_spec. split; [done|].
    intros Heq. apply Hne.
    apply reachable_nz_reachable, reachable_invariant in Hreach
      as [(b & _ & [= -> ->])|(bl & _ & _ & _ & _ & Hnd)];
      [by apply elem_of_nil in Hx|].
    by apply (NoDup_fmap_eq a_ptr live).
Qed.

Lemma myfree_live_pointer_returns_witness :
  let blk := a_ptr sample_x - SZ_BLOCK_METADATA in
  ∃ s', myfree ENOUGH (a_ptr sample_x) sample_s2 = Some s' ∧
        _h s' = _h sample_s2 ∧
        IS_INUSE (mem sample_s2) blk = 1 ∧
        IS_INUSE (mem s') blk = 0 ∧ coalesced (mem s') blk ∧
        first_stop (mem sample_s2) (NEXT_ADDRESS (mem sample_s2) blk)
                   (NEXT_ADDRESS (mem s') blk) ∧
        (∀ c, c ≠ blk → mem s' !! c = mem sample_s2 !! c) ∧
        headers_inside s' ∧
        reachable_nz (s', drop_ptr (a_ptr sample_x) [sample_y; sample_x]) ∧
        (sample_x ∉ drop_ptr (a_ptr sample_x) [sample_y; sample_x]) ∧
        ∀ y, y ∈ [sample_y; sample_x] → y ≠ sample_x →
             y ∈ drop_ptr (a_ptr sample_x) [sample_y; sample_x].
Proof.
  apply (myfree_live_pointer_returns sample_s2 [sample_y; sample_x] ENOUGH
           sample_x sample_reachable_nz2).
  - apply elem_of_cons. right. apply elem_of_cons. by left.
  - vm_compute. congruence.
  - apply le_n.
Defined.

(** X7: in a program none of whose requests has a footprint of 0, and
    while the available counter is at least one header, [reset_heap]
    returns on an initialised heap; it leaves the heap record as it is,
    the counter included, and the arena as one free block with no live
    allocation: the header at the base holds NULL, no header word has
    the in-use bit set and every header lies inside the arena.  A next
    request whose footprint plus one header is at most the counter is
    served at the arena base, again with every header inside the
    arena. *)
Theorem reset_heap_returns_one_free_block s live fuel :
  reachable_nz (s, live) → start_of_heap (_h s) ≠ NULL →
  SZ_BLOCK_METADATA ≤ available_size (_h s) →
  (ENOUGH ≤ fuel)%nat →
  ∃ s',
    reset_heap fuel s = Some s' ∧ _h s' = _h s ∧
    hdr_next (mem s') (start_of_heap (_h s)) = NULL ∧
    (∀ c, IS_INUSE (mem s') c = 0) ∧
    headers_inside s' ∧
    reachable_nz (s', []) ∧
    ∀ n f, 0 ≤ n < WORD →
           aux_size_of n + SZ_BLOCK_METADATA ≤ available_size (_h s) →
           ∃ s'', mymalloc (S (S f)) n s'
                  = Some (start_of_heap (_h s) + SZ_BLOCK_METADATA, s'') ∧
                  headers_inside s''.
Proof.
  intros Hreach Hstart Hroom Hfuel.
  pose proof (reachable_nz_tidy _ Hreach) as Hti.
  destruct (reset_heap_progress fuel s live Hti Hstart Hfuel) as [s' Hr].
  destruct (reset_heap_collapses fuel s s' live (tidy_inv_invariant _ Hti)
              Hstart Hr) as (Hh & _ & Hl & Hinv).
  pose proof (reach_nz_reset fuel s s' live Hreach Hstart Hr) as Hreach'.
  pose proof (reachable_nz_reachable _ Hreach') as Hr'.
  exists s'. split; [done|]. split; [done|]. split; [done|].
  split.
  { intros c. destruct (Z.eq_dec (IS_INUSE (mem s') c) 0) as [|Hu]; [done|].
    destruct (reachable_inuse_is_live _ Hr' c Hu) as (x & Hx & _).
    by apply elem_of_nil in Hx. }
  split.
  { apply in_bounds_inside; [exact (reachable_in_bounds _ Hr')|].
    rewrite Hh. unfold SZ_BLOCK_METADATA in Hroom. lia. }
  split; [done|].
  intros n f Hn Hle.
  destruct Hinv as (Hsz & Hav & Hb & _). rewrite Hh in *.
  pose proof (aux_size_of_range n).
  unfold SZ_BLOCK_METADATA in Hle.
  destruct (mymalloc_one_block f n s') as [s'' Hm]; rewrite ?Hh; try done; try lia.
  rewrite Hh in Hm. exists s''. split; [done|].
  refine (proj2 (served_inside s' [] (S (S f)) n _ s'' Hr' Hn Hm _ _)).
  - destruct Hb as (? & _). unfold SZ_BLOCK_METADATA, NULL. lia.
  - rewrite ready_initialised by (rewrite Hh; lia). rewrite Hh.
    unfold SZ_BLOCK_METADATA. lia.
Qed.

Lemma reset_heap_returns_one_free_block_witness :
  ∃ s',
    reset_heap ENOUGH sample_s2 = Some s' ∧ _h s' = _h sample_s2 ∧
    hdr_next (mem s') (start_of_heap (_h sample_s2)) = NULL ∧
    (∀ c, IS_INUSE (mem s') c = 0) ∧
    headers_inside s' ∧
    reachable_nz (s', []) ∧
    ∀ n f, 0 ≤ n < WORD →
           aux_size_of n + SZ_BLOCK_METADATA ≤ available_size (_h sample_s2) →
           ∃ s'', mymalloc (S (S f)) n s'
                  = Some (start_of_heap (_h sample_s2) + SZ_BLOCK_METADATA, s'') ∧
                  headers_inside s''.
Proof.
  apply (reset_heap_returns_one_free_block sample_s2 [sample_y; sample_x]
           ENOUGH sample_reachable_nz2).
  - discriminate.
  - vm_compute. congruence.
  - apply le_n.
Defined.

(** X9: [test0] returns 0 whatever [rand()] returns: started at a point
    of a program where the available counter is at least 2432, each of
    its 101 requests of 10 bytes is served, the counter ends 2424 lower
    however many of the blocks were freed on the way, and every header
    written lies inside the arena. *)
Theorem test0_returns fuel rnd a s live :
  running a s live → 2432 ≤ a → (ENOUGH ≤ fuel)%nat →
  ∃ s' live',
    test0 fuel rnd s = Some (0, s') ∧ running (a - 2424) s' live' ∧
    headers_inside s'.
Proof.
  intros Hrun Ha Hfuel.
  destruct (test0_loop_returns fuel rnd Hfuel 100 0 a s live Hrun ltac:(lia))
    as (s' & live' & Hl & Hrun').
  replace (a - 24 * (Z.of_nat 100 + 1)) with (a - 2424) in Hrun' by lia.
  exists s', live'. unfold test0. rewrite Hl. split; [done|].
  split; [done|]. apply (running_inside _ _ _ Hrun'). lia.
Qed.

Lemma test0_returns_witness :
  ∃ s' live',
    test0 ENOUGH (λ k, Nat.even k) (initial_state 65536) = Some (0, s') ∧
    running (4096 - 2424) s' live' ∧
    headers_inside s'.
Proof.
  apply (test0_returns ENOUGH (λ k, Nat.even k) 4096 (initial_state 65536) []
           (running_initial 65536 sample_brk)).
  - vm_compute. congruence.
  - apply le_n.
Defined.

End Served.

(** * Reuse after everything was freed *)

Section Reused.

Implicit Types (m : gmap Z Z) (s : state) (live : list allocd).

Lemma sample_free3 : myfree 5 (a_ptr sample_x) sample_s2 = Some sample_s3.
Proof. vm_compute. reflexivity. Qed.

Lemma sample_free4 : myfree 5 (a_ptr sample_y) sample_s3 = Some sample_s4.
Proof. vm_compute. reflexivity. Qed.

Lemma sample_reachable_nz3 : reachable_nz (sample_s3, [sample_y]).
Proof.
  assert (Hin : sample_x ∈ [sample_y; sample_x]).
  { apply elem_of_cons. right. apply elem_of_cons. by left. }
  exact (reach_nz_free 5 sample_x sample_s2 sample_s3 [sample_y; sample_x]
           sample_reachable_nz2 Hin sample_free3).
Qed.

Lemma sample_reachable_nz4 : reachable_nz (sample_s4, []).
Proof.
  assert (Hin : sample_y ∈ [sample_y]) by (apply elem_of_cons; by left).
  exact (reach_nz_free 5 sample_y sample_s3 sample_s4 [sample_y]
           sample_reachable_nz3 Hin sample_free4).
Qed.

(** X14: blocks are reused.  In a program none of whose requests has a
    footprint of 0, once every allocation has been freed, a request
    whose footprint plus one header is at most the counter makes the
    search merge the whole chain into the block at the arena base (its
    header reads NULL when the search stops on it) and is served there.
    The call leaves a chain of two blocks: the one handed out, in use,
    at the base, and one free block that starts where the footprint ends
    and runs to the end of the chain.  Every header lies inside the
    arena. *)
Theorem all_freed_then_served_at_base s fuel n :
  reachable_nz (s, []) → start_of_heap (_h s) ≠ NULL →
  0 ≤ n < WORD → aux_size_of n ≠ 0 →
  aux_size_of n + SZ_BLOCK_METADATA ≤ available_size (_h s) →
  (ENOUGH ≤ fuel)%nat →
  let b0 := start_of_heap (_h s) in
  ∃ s',
    scan fuel (mem s) b0 (aux_size_of n) = Some (b0, store (mem s) b0 NULL) ∧
    mymalloc fuel n s = Some (b0 + SZ_BLOCK_METADATA, s') ∧
    load (mem s') b0 = b0 + aux_size_of n + 1 ∧
    load (mem s') (b0 + aux_size_of n) = NULL ∧
    path (mem s') b0 [b0; b0 + aux_size_of n] NULL ∧
    headers_inside s'.
Proof.
  intros Hreach Hstart Hn Hnz Hle Hfuel. cbv zeta.
  pose proof (reachable_inuse_is_live _ (reachable_nz_reachable _ Hreach))
    as Hlive.
  assert (Hallfree : ∀ c, IS_INUSE (mem s) c = 0).
  { intros c. destruct (Z.eq_dec (IS_INUSE (mem s) c) 0) as [|Hu]; [done|].
    destruct (Hlive c Hu) as (x & Hx & _). by apply elem_of_nil in Hx. }
  destruct (reachable_nz_tidy _ Hreach)
    as [(b & _ & [= ->])|(bl & Hinv & Hty)]; [exfalso; by apply Hstart|].
  cbn [fst snd] in *. destruct Hinv as (Hsz & Hav & Hb & Hc & Hnd).
  set (b0 := start_of_heap (_h s)) in *.
  set (aux := aux_size_of n) in *.
  assert (Htop : b0 + 4096 - available_size (_h s) ≤ b0 + 4096) by lia.
  pose proof (block_count _ _ _ _ _ Htop Hc) as Hcount.
  destruct Hc as (Hhd & Hs & Hok & Hlk & _).
  destruct bl as [|a l]; [done|]. injection Hhd as ->.
  pose proof Hb as (Hpos & Hal & Hfit).
  pose proof (aux_size_of_range n) as Hr. fold aux in Hr.
  pose proof (aux_size_of_aligned n) as Ha8. fold aux in Ha8.
  unfold SZ_BLOCK_METADATA in Hle |- *.
  assert (Hst : start b0 = b0 + 8).
  { unfold start, SZ_BLOCK_METADATA. apply wrap_small.
    rewrite WORD_eq in *. lia. }
  set (m := store (mem s) b0 NULL).
  assert (Hbs : BLOCK_SIZE m b0 = WORD - (b0 + 8)).
  { unfold BLOCK_SIZE, NEXT_ADDRESS, hdr_next, m. rewrite load_store_eq, Hst.
    change (Z.land NULL _) with 0. replace (0 - (b0 + 8)) with (- (b0 + 8)) by lia.
    apply wrap_neg. rewrite WORD_eq in *. lia. }
  assert (Hscan : scan fuel (mem s) b0 aux = Some (b0, m)).
  { destruct fuel as [|fuel]; [unfold ENOUGH in Hfuel; lia|].
    rewrite scan_unfold. destruct (Z.eqb_spec b0 NULL) as [|_]; [done|].
    rewrite Hallfree. cbn [Z.eqb]. unfold do_compact.
    rewrite (walk_all_free b0 _ (mem s) Hb Htop l b0 fuel Hok Hlk).
    2: { apply Forall_forall. auto. }
    2: { unfold ENOUGH in *. lia. }
    fold m.
    destruct (Z.geb_spec (BLOCK_SIZE m b0) aux) as [_|Hlt]; [done|].
    rewrite Hbs in Hlt. rewrite WORD_eq in *. lia. }
  assert (Hm : mymalloc fuel n s = Some (hand_over s m b0 aux)).
  { unfold mymalloc. cbv zeta. rewrite (ready_initialised s) by lia.
    fold b0 aux.
    destruct (Z.gtb_spec aux (available_size (_h s))); [lia|].
    rewrite Hscan. by destruct (Z.eqb_spec b0 NULL) as [|_]. }
  assert (Hw2 : word_addr (b0 + aux)).
  { unfold word_addr, MY_ALIGNMENT_SZ in *. rewrite WORD_eq in *.
    split; [lia|]. split; [lia|]. Z.div_mod_to_equations. lia. }
  assert (Hmem : mem (hand_over s m b0 aux).2
                 = store (store m (b0 + aux) NULL) b0 (b0 + aux + 1)).
  { rewrite hand_over_mem. unfold needs_split.
    rewrite split_threshold by lia. rewrite Hbs.
    destruct (Z.geb_spec (WORD - (b0 + 8)) (aux + 16)) as [_|Hlt];
      [|rewrite WORD_eq in *; lia].
    rewrite wrap_small by (rewrite WORD_eq in *; lia).
    unfold hdr_next, m. rewrite load_store_eq.
    change (Z.land NULL _) with NULL.
    by rewrite (proj2 (proj2 (decode_free _ Hw2))). }
  exists (hand_over s m b0 aux).2. split; [done|]. split.
  { rewrite Hm. unfold hand_over. cbn [snd]. by rewrite Hst. }
  rewrite Hmem.
  assert (Hl1 : load (store (store m (b0 + aux) NULL) b0 (b0 + aux + 1)) b0
                = b0 + aux + 1) by apply load_store_eq.
  assert (Hl2 : load (store (store m (b0 + aux) NULL) b0 (b0 + aux + 1))
                  (b0 + aux) = NULL).
  { rewrite load_store_ne by lia. apply load_store_eq. }
  split; [done|]. split; [done|]. split.
  - constructor; [unfold NULL; lia|].
    unfold NEXT_ADDRESS at 1. unfold hdr_next. rewrite Hl1.
    rewrite (proj1 (proj2 (decode_inuse _ Hw2))).
    constructor; [unfold NULL; lia|].
    unfold NEXT_ADDRESS, hdr_next. rewrite Hl2.
    change (Z.land NULL _) with NULL. constructor.
  - refine (proj2 (served_inside s [] fuel n (b0 + 8) _
                     (reachable_nz_reachable _ Hreach) Hn _ _ _)).
    + rewrite Hm. unfold hand_over. by rewrite Hst.
    + unfold NULL. lia.
    + rewrite ready_initialised by lia. fold aux.
      unfold SZ_BLOCK_METADATA. lia.
Qed.

Lemma all_freed_then_served_at_base_witness :
  let b0 := start_of_heap (_h sample_s4) in
  ∃ s',
    scan ENOUGH (mem sample_s4) b0 (aux_size_of 10)
      = Some (b0, store (mem sample_s4) b0 NULL) ∧
    mymalloc ENOUGH 10 sample_s4 = Some (b0 + SZ_BLOCK_METADATA, s') ∧
    load (mem s') b0 = b0 + aux_size_of 10 + 1 ∧
    load (mem s') (b0 + aux_size_of 10) = NULL ∧
    path (mem s') b0 [b0; b0 + aux_size_of 10] NULL ∧
    headers_inside s'.
Proof.
  apply (all_freed_then_served_at_base sample_s4 ENOUGH 10
           sample_reachable_nz4).
  - discriminate.
  - exact sample_size.
  - exact sample_nz.
  - vm_compute. congruence.
  - apply le_n.
Defined.

End Reused.

(** * First fit and splitting, by the true sizes *)

Section TrueSizes.

Implicit Types (m : gmap Z Z) (s : state) (live : list allocd).

(** [BLOCK_SIZE] of a block whose next reference is NULL exceeds the
    available counter by more than a header and an alignment unit, so
    the last block passes the fit test and the split test of every
    request the counter lets through. *)
Lemma last_block_always_fits b0 avail m t :
  initial_brk b0 → 0 ≤ avail ≤ 4096 → b0 ≤ t ≤ b0 + 4096 - avail →
  NEXT_ADDRESS m t = NULL → avail + 16 ≤ BLOCK_SIZE m t.
Proof.
  intros (Hpos & _ & Hfit) Hav Ht Hnull.
  rewrite (BLOCK_SIZE_last m t Hnull).
  assert (Hst : start t = t + 8).
  { unfold start, SZ_BLOCK_METADATA. apply wrap_small.
    rewrite WORD_eq in *. lia. }
  rewrite Hst, wrap_neg; rewrite WORD_eq in *; lia.
Qed.

(** For a block whose next reference is not NULL, [BLOCK_SIZE] is the
    size [check_heap] reports. *)
Lemma true_size_inner s m x :
  NEXT_ADDRESS m x ≠ NULL → true_size s m x = BLOCK_SIZE m x.
Proof.
  intros Hn. unfold true_size, check_heap_alloc_size. cbn [mem].
  by destruct (Z.eqb_spec (NEXT_ADDRESS m x) NULL).
Qed.

(** X17: what the search does in terms of the sizes [check_heap]
    reports (the distance from the payload to the next header, or to the
    end of the arena for the last block).  When [mymalloc] returns a
    pointer, the block handed out is free and coalesced, and it is
    either the last block of the chain, taken whatever its size, or at
    least as large as the padded footprint.  Every block before it in
    the chain, which are the blocks at lower addresses, is in use, or is
    free, coalesced, not the last block and smaller than the
    footprint. *)
Theorem first_fit_except_last_block s live fuel n p s' :
  reachable (s, live) → 0 ≤ n < WORD →
  mymalloc fuel n s = Some (p, s') → p ≠ NULL →
  ∃ tmp m pre,
    scan fuel (mem (ready s)) (start_of_heap (_h (ready s))) (aux_size_of n)
      = Some (tmp, m) ∧
    p = start tmp ∧
    path m (start_of_heap (_h (ready s))) pre tmp ∧
    StronglySorted Z.lt (pre ++ [tmp]) ∧
    Forall (λ b, IS_INUSE m b ≠ 0 ∨
                 (IS_INUSE m b = 0 ∧ coalesced m b ∧
                  NEXT_ADDRESS m b ≠ NULL ∧
                  true_size (ready s) m b < aux_size_of n)) pre ∧
    IS_INUSE m tmp = 0 ∧ coalesced m tmp ∧
    (NEXT_ADDRESS m tmp = NULL ∨ aux_size_of n ≤ true_size (ready s) m tmp).
Proof.
  intros [bl Hinv]%reachable_invariant%ready_inv Hn Hm Hp.
  apply mymalloc_cases in Hm. cbv zeta in Hm.
  destruct Hm as [(_ & -> & _)|(Hle & tmp & m & Hscan & Hm)]; [done|].
  destruct Hm as [(_ & -> & _)|(Hnn & Hm)]; [done|].
  destruct Hinv as (Hsz & Hav & Hb & Hc & Hnd).
  assert (Htop : start_of_heap (_h (ready s)) + 4096
                 - available_size (_h (ready s))
                 ≤ start_of_heap (_h (ready s)) + 4096) by lia.
  destruct (scan_passes _ _ _ _ _ _ Hscan Hnn)
    as (pre & Hpath & Hpre & Hf & Hco & Hfit & _).
  pose proof Hscan as Hscan'.
  eapply (scan_chain _ _ Hb Htop) in Hscan' as (bl' & Hc' & _); [|exact Hc|].
  2: { right. destruct Hc as (Hhd & _). destruct bl; [done|].
       injection Hhd as ->. apply elem_of_cons. by left. }
  destruct Hc' as (Hhd & Hs & Hok & Hlk & _).
  destruct bl' as [|a l]; [done|]. injection Hhd as ->.
  destruct (path_in_chain _ _ m Hb Htop pre _ l tmp Hok Hlk Hpath Hnn Hf)
    as [l2 Heq].
  pose proof (aux_size_of_range n) as Hr.
  exists tmp, m, pre. split; [done|]. split.
  { unfold hand_over in Hm. by injection Hm as -> _. }
  split; [done|]. split.
  { rewrite Heq in Hs. rewrite cons_middle, app_assoc in Hs.
    by apply StronglySorted_app_1_l in Hs. }
  split; [|split; [done|split; [done|]]].
  - rewrite Forall_forall in Hpre |- *. intros b Hbin.
    destruct (Hpre b Hbin) as [Hu|(Hfb & Hcob & Hsmall)]; [by left|right].
    assert (Hnb : NEXT_ADDRESS m b ≠ NULL).
    { intros Hnull. rewrite Heq in Hok. rewrite Forall_forall in Hok.
      destruct (Hok b) as [Hrange _]; [apply elem_of_app; by left|].
      pose proof (last_block_always_fits _ _ m b Hb Hav Hrange Hnull). lia. }
    split; [done|]. split; [done|]. split; [done|].
    by rewrite true_size_inner.
  - destruct (Z.eq_dec (NEXT_ADDRESS m tmp) NULL) as [|Hnt]; [by left|right].
    by rewrite true_size_inner.
Qed.

Lemma first_fit_except_last_block_witness :
  ∃ tmp m pre,
    scan 5 (mem (ready sample_s3)) (start_of_heap (_h (ready sample_s3)))
      (aux_size_of 20) = Some (tmp, m) ∧
    65592 = start tmp ∧
    path m (start_of_heap (_h (ready sample_s3))) pre tmp ∧
    StronglySorted Z.lt (pre ++ [tmp]) ∧
    Forall (λ b, IS_INUSE m b ≠ 0 ∨
                 (IS_INUSE m b = 0 ∧ coalesced m b ∧
                  NEXT_ADDRESS m b ≠ NULL ∧
                  true_size (ready sample_s3) m b < aux_size_of 20)) pre ∧
    IS_INUSE m tmp = 0 ∧ coalesced m tmp ∧
    (NEXT_ADDRESS m tmp = NULL
     ∨ aux_size_of 20 ≤ true_size (ready sample_s3) m tmp).
Proof.
  assert (H4 : mymalloc 5 20 sample_s3
               = Some (65592,
                       mkState (mkHeap 4096 4016 65536)
                         (<[65536 := 65560]> (<[65560 := 65585]>
                            (<[65584 := 65617]> (<[65616 := 0]> ∅)))) 69632))
    by (vm_compute; reflexivity).
  apply (first_fit_except_last_block sample_s3 [sample_y] 5 20 65592 _
           (reachable_nz_reachable _ sample_reachable_nz3) size_20 H4).
  discriminate.
Defined.

(** X18: what the split test does in terms of the sizes [check_heap]
    reports.  When [mymalloc] returns a pointer, the chosen block is
    split exactly when it is the last block of the chain, or its size
    is at least the padded footprint plus one header plus one alignment
    unit.  When it is split, the header at the block's address plus the
    footprint receives the old next reference with the in-use bit clear
    and the block's header that address with the in-use bit set.
    Otherwise only the in-use bit of the block's header is set, and the
    block keeps its size. *)
Theorem split_except_last_block s live fuel n p s' :
  reachable (s, live) → 0 ≤ n < WORD →
  mymalloc fuel n s = Some (p, s') → p ≠ NULL →
  ∃ tmp m,
    scan fuel (mem (ready s)) (start_of_heap (_h (ready s))) (aux_size_of n)
      = Some (tmp, m) ∧
    p = start tmp ∧
    (needs_split m tmp (aux_size_of n) = true ↔
     NEXT_ADDRESS m tmp = NULL ∨
     aux_size_of n + SZ_BLOCK_METADATA + MY_ALIGNMENT_SZ
       ≤ true_size (ready s) m tmp) ∧
    (needs_split m tmp (aux_size_of n) = true →
     mem s' = store (store m (tmp + aux_size_of n) (NEXT_ADDRESS m tmp))
                tmp (tmp + aux_size_of n + 1)) ∧
    (needs_split m tmp (aux_size_of n) = false →
     mem s' = store m tmp (NEXT_ADDRESS m tmp + 1) ∧
     NEXT_ADDRESS (mem s') tmp = NEXT_ADDRESS m tmp ∧
     true_size s' (mem s') tmp = true_size (ready s) m tmp).
Proof.
  intros [bl Hinv]%reachable_invariant%ready_inv Hn Hm Hp.
  apply mymalloc_cases in Hm. cbv zeta in Hm.
  destruct Hm as [(_ & -> & _)|(Hle & tmp & m & Hscan & Hm)]; [done|].
  destruct Hm as [(_ & -> & _)|(Hnn & Hm)]; [done|].
  destruct Hinv as (Hsz & Hav & Hb & Hc & Hnd).
  assert (Htop : start_of_heap (_h (ready s)) + 4096
                 - available_size (_h (ready s))
                 ≤ start_of_heap (_h (ready s)) + 4096) by lia.
  pose proof Hscan as Hscan'.
  eapply (scan_chain _ _ Hb Htop) in Hscan' as (bl' & Hc' & Ht); [|exact Hc|].
  2: { right. destruct Hc as (Hhd & _). destruct bl; [done|].
       injection Hhd as ->. apply elem_of_cons. by left. }
  destruct Ht as [|(l1 & l2 & -> & Hfree & Hfit)]; [done|].
  pose proof Hc' as (_ & _ & Hok & _).
  pose proof Hok as [_ [Hokt Hok2]%Forall_cons]%Forall_app.
  destruct (addr_ok_word _ _ Hb Htop tmp Hokt) as [Hwt Htn].
  assert (Hw : word_addr (hd NULL l2))
    by (apply (hd_word _ _ Hb Htop); [apply word_addr_NULL|done]).
  assert (Hnext : NEXT_ADDRESS m tmp = hd NULL l2).
  { unfold NEXT_ADDRESS, hdr_next. rewrite Hfree. apply (decode_free _ Hw). }
  pose proof (aux_size_of_range n) as Hr.
  pose proof (aux_size_of_aligned n) as Ha8.
  pose proof Hb as (Hpos & Hal & Hfit').
  destruct Hokt as [Hrange Ht8].
  assert (Hw2 : word_addr (tmp + aux_size_of n)).
  { unfold word_addr, MY_ALIGNMENT_SZ in *. rewrite WORD_eq in *.
    split; [lia|]. split; [lia|]. Z.div_mod_to_equations. lia. }
  exists tmp, m. split; [done|].
  assert (Hmem : mem s' = mem (hand_over (ready s) m tmp (aux_size_of n)).2)
    by (by rewrite <- Hm).
  assert (Hh : _h s' = _h (hand_over (ready s) m tmp (aux_size_of n)).2)
    by (by rewrite <- Hm).
  rewrite hand_over_mem in Hmem. unfold hand_over in Hh. cbn [snd _h] in Hh.
  split; [unfold hand_over in Hm; by injection Hm as -> _|].
  split; [|split].
  - unfold needs_split. rewrite split_threshold by lia.
    unfold SZ_BLOCK_METADATA, MY_ALIGNMENT_SZ. rewrite Z.geb_le. split.
    + intros Hge.
      destruct (Z.eq_dec (NEXT_ADDRESS m tmp) NULL) as [|Hnt]; [by left|right].
      rewrite true_size_inner by done. lia.
    + intros [Hnull|Hge].
      * pose proof (last_block_always_fits _ _ m tmp Hb Hav Hrange Hnull). lia.
      * destruct (Z.eq_dec (NEXT_ADDRESS m tmp) NULL) as [Hnull|Hnt].
        -- pose proof (last_block_always_fits _ _ m tmp Hb Hav Hrange Hnull).
           lia.
        -- rewrite true_size_inner in Hge by done. lia.
  - intros Hsplit. rewrite Hsplit in Hmem. rewrite Hmem.
    rewrite wrap_small by (rewrite WORD_eq in *; lia).
    unfold hdr_next. rewrite Hfree, Hnext.
    rewrite (proj1 (proj2 (decode_free _ Hw))).
    by rewrite (proj2 (proj2 (decode_free _ Hw2))).
  - intros Hwhole. rewrite Hwhole in Hmem.
    assert (Hmem' : mem s' = store m tmp (NEXT_ADDRESS m tmp + 1)).
    { rewrite Hmem. unfold hdr_next. rewrite Hfree, Hnext.
      by rewrite (proj2 (proj2 (decode_free _ Hw))). }
    assert (Hnext' : NEXT_ADDRESS (mem s') tmp = NEXT_ADDRESS m tmp).
    { rewrite Hmem'. unfold NEXT_ADDRESS at 1. unfold hdr_next.
      rewrite load_store_eq, Hnext.
      apply (proj1 (proj2 (decode_inuse _ Hw))). }
    split; [done|]. split; [done|].
    unfold true_size, check_heap_alloc_size. cbn [mem _h].
    rewrite Hnext', Hh. done.
Qed.

Lemma split_except_last_block_witness :
  let s' := mkState (mkHeap 4096 4032 65536)
              (<[65536 := 65561]> (<[65560 := 65585]> (<[65584 := 0]> ∅)))
              69632 in
  ∃ tmp m,
    scan 5 (mem (ready sample_s3)) (start_of_heap (_h (ready sample_s3)))
      (aux_size_of 0) = Some (tmp, m) ∧
    65544 = start tmp ∧
    (needs_split m tmp (aux_size_of 0) = true ↔
     NEXT_ADDRESS m tmp = NULL ∨
     aux_size_of 0 + SZ_BLOCK_METADATA + MY_ALIGNMENT_SZ
       ≤ true_size (ready sample_s3) m tmp) ∧
    (needs_split m tmp (aux_size_of 0) = true →
     mem s'
     = store (store m (tmp + aux_size_of 0) (NEXT_ADDRESS m tmp))
         tmp (tmp + aux_size_of 0 + 1)) ∧
    (needs_split m tmp (aux_size_of 0) = false →
     mem s' = store m tmp (NEXT_ADDRESS m tmp + 1) ∧
     NEXT_ADDRESS (mem s') tmp = NEXT_ADDRESS m tmp ∧
     true_size s' (mem s') tmp = true_size (ready sample_s3) m tmp).
Proof.
  intros s'.
  assert (H4 : mymalloc 5 0 sample_s3 = Some (65544, s'))
    by (vm_compute; reflexivity).
  assert (Hn : 0 ≤ 0 < WORD) by (vm_compute; split; congruence).
  apply (split_except_last_block sample_s3 [sample_y] 5 0 65544 s'
           (reachable_nz_reachable _ sample_reachable_nz3) Hn H4).
  discriminate.
Defined.

End TrueSizes.
